(** * pyDiscord music module: the per-guild player and its playback loop

    A shallow embedding of [src/modules/music/cog.py]: the [Track] value,
    the [GuildPlayer] object with its queue / volume operations, the
    [_player_loop] coroutine as a resumable state machine, and the
    [Music.remove] command over the cog's [players] dictionary.

    Python floats are IEEE-754 binary64 values, modelled with the Standard
    Library's [SpecFloat] (precision 53, exponent bound 1024).  The asyncio
    event loop is cooperative: a coroutine runs without interruption from
    one [await] to the next, so every segment between two suspension points
    is one atomic transition of the model. *)

From Stdlib Require Import ZArith List Bool Lia Permutation SpecFloat.
From stdpp Require Import gmap strings list pretty.

Open Scope Z_scope.

(* ===================================================================== *)
(** ** Python floats *)
(* ===================================================================== *)

Module Float64.

Definition prec : Z := 53.
Definition emax : Z := 1024.

(** [float(z)] for a Python int (exact below 2^53, rounded above). *)
Definition of_Z (z : Z) : spec_float := binary_normalize prec emax z 0 false.

Definition div (x y : spec_float) : spec_float := SFdiv prec emax x y.
Definition mul (x y : spec_float) : spec_float := SFmul prec emax x y.

(** [x > y] on floats. *)
Definition gtb (x y : spec_float) : bool := SFltb y x.

(** [int(x)]: truncation toward zero; Python raises on nan and on the
    infinities. *)
Definition trunc (x : spec_float) : option Z :=
  match x with
  | S754_zero _ => Some 0
  | S754_finite s m e =>
      let a := Z.shiftl (Zpos m) e in
      Some (if s then - a else a)
  | S754_infinity _ | S754_nan => None
  end.

(** [round(x)] with one argument: nearest integer, ties to even. *)
Definition round_half_even (x : spec_float) : option Z :=
  match x with
  | S754_zero _ => Some 0
  | S754_finite s m e =>
      let a :=
        if 0 <=? e then Z.shiftl (Zpos m) e
        else
          let d := 2 ^ (- e) in
          let q := Zpos m / d in
          let r := Zpos m mod d in
          match 2 * r ?= d with
          | Lt => q
          | Gt => q + 1
          | Eq => if Z.even q then q else q + 1
          end in
      Some (if s then - a else a)
  | S754_infinity _ | S754_nan => None
  end.

Definition zero : spec_float := S754_zero false.
Definition one : spec_float := of_Z 1.
Definition hundred : spec_float := of_Z 100.

End Float64.

(* ===================================================================== *)
(** ** Data model *)
(* ===================================================================== *)

(** [def clamp(x, lo, hi)], used at integer arguments. *)
Definition clamp (x lo hi : Z) : Z :=
  if x <? lo then lo else if hi <? x then hi else x.

(** [@dataclass class Track]. *)
Record Track := {
  title : string;
  url : string;          (* direct ffmpeg stream URL *)
  web_url : string;      (* watch/share URL *)
  duration : spec_float; (* seconds *)
  requested_by : string;
}.

(** A [discord.PCMVolumeTransformer]: a decoded source with a mutable
    volume.  The object is shared between the player ([_pcm]) and the voice
    client that plays it, so it lives in a store and is named by its index. *)
Record PCMVolumeTransformer := {
  pcm_url : string;
  pcm_volume : spec_float;
}.

Record VoiceChannel := {
  ch_id : Z;
  members : list Z;      (* ids of the members currently in the channel *)
}.

(** The audio player a voice client runs for one [play] call: the source it
    reads, the [finished] event its [after] callback sets, and whether it is
    paused. *)
Record AudioPlayer := {
  ap_source : nat;
  ap_after : nat;
  ap_paused : bool;
}.

(** The part of [discord.VoiceClient] the module uses.  The library is not
    part of the repository; its calls follow its documented behaviour:
    [is_playing()] holds while an audio player exists and is not paused,
    [is_paused()] while it exists and is paused; [stop()] ends the audio
    player, whose [after] callback then runs; [play()] raises
    [ClientException] when the client is already playing. *)
Record VoiceClient := {
  vc_connected : bool;
  vc_channel : option VoiceChannel;
  vc_player : option AudioPlayer;
}.

Definition is_connected (vc : VoiceClient) : bool := vc_connected vc.

Definition is_playing (vc : VoiceClient) : bool :=
  match vc_player vc with
  | Some a => negb (ap_paused a)
  | None => false
  end.

Definition is_paused (vc : VoiceClient) : bool :=
  match vc_player vc with
  | Some a => ap_paused a
  | None => false
  end.

(** [class GuildPlayer]: the fields set by [__init__].  [bot_user] is
    [self.bot.user] (absent until the client has logged in) and [guild] the
    guild's id.  [_play_task] names an asyncio task and [_pcm] a stored
    source. *)
Record GuildPlayer := {
  bot_user : option Z;
  guild : Z;
  queue : list Track;
  current : option Track;
  voice : option VoiceClient;
  _play_task : option nat;
  _stop_event : bool;
  _started_at : option spec_float;
  volume : spec_float;
  _pcm : option nat;
  _last_nonzero_volume : spec_float;
  announce_channel : option Z;
}.

(** [GuildPlayer.__init__]. *)
Definition new_player (bot : option Z) (g : Z) : GuildPlayer :=
  {| bot_user := bot; guild := g;
     queue := []; current := None; voice := None;
     _play_task := None; _stop_event := false; _started_at := None;
     volume := Float64.one; _pcm := None;
     _last_nonzero_volume := Float64.one;
     announce_channel := None |}.

(** Field assignments. *)
Definition set_queue (q : list Track) (p : GuildPlayer) : GuildPlayer :=
  {| bot_user := bot_user p; guild := guild p;
     queue := q; current := current p; voice := voice p;
     _play_task := _play_task p; _stop_event := _stop_event p;
     _started_at := _started_at p; volume := volume p; _pcm := _pcm p;
     _last_nonzero_volume := _last_nonzero_volume p;
     announce_channel := announce_channel p |}.

Definition set_current (c : option Track) (p : GuildPlayer) : GuildPlayer :=
  {| bot_user := bot_user p; guild := guild p;
     queue := queue p; current := c; voice := voice p;
     _play_task := _play_task p; _stop_event := _stop_event p;
     _started_at := _started_at p; volume := volume p; _pcm := _pcm p;
     _last_nonzero_volume := _last_nonzero_volume p;
     announce_channel := announce_channel p |}.

Definition set_voice (v : option VoiceClient) (p : GuildPlayer) : GuildPlayer :=
  {| bot_user := bot_user p; guild := guild p;
     queue := queue p; current := current p; voice := v;
     _play_task := _play_task p; _stop_event := _stop_event p;
     _started_at := _started_at p; volume := volume p; _pcm := _pcm p;
     _last_nonzero_volume := _last_nonzero_volume p;
     announce_channel := announce_channel p |}.

Definition set_play_task (t : option nat) (p : GuildPlayer) : GuildPlayer :=
  {| bot_user := bot_user p; guild := guild p;
     queue := queue p; current := current p; voice := voice p;
     _play_task := t; _stop_event := _stop_event p;
     _started_at := _started_at p; volume := volume p; _pcm := _pcm p;
     _last_nonzero_volume := _last_nonzero_volume p;
     announce_channel := announce_channel p |}.

Definition set_stop_event (b : bool) (p : GuildPlayer) : GuildPlayer :=
  {| bot_user := bot_user p; guild := guild p;
     queue := queue p; current := current p; voice := voice p;
     _play_task := _play_task p; _stop_event := b;
     _started_at := _started_at p; volume := volume p; _pcm := _pcm p;
     _last_nonzero_volume := _last_nonzero_volume p;
     announce_channel := announce_channel p |}.

Definition set_started_at (s : option spec_float) (p : GuildPlayer) : GuildPlayer :=
  {| bot_user := bot_user p; guild := guild p;
     queue := queue p; current := current p; voice := voice p;
     _play_task := _play_task p; _stop_event := _stop_event p;
     _started_at := s; volume := volume p; _pcm := _pcm p;
     _last_nonzero_volume := _last_nonzero_volume p;
     announce_channel := announce_channel p |}.

Definition set_volume (v : spec_float) (p : GuildPlayer) : GuildPlayer :=
  {| bot_user := bot_user p; guild := guild p;
     queue := queue p; current := current p; voice := voice p;
     _play_task := _play_task p; _stop_event := _stop_event p;
     _started_at := _started_at p; volume := v; _pcm := _pcm p;
     _last_nonzero_volume := _last_nonzero_volume p;
     announce_channel := announce_channel p |}.

Definition set_pcm (s : option nat) (p : GuildPlayer) : GuildPlayer :=
  {| bot_user := bot_user p; guild := guild p;
     queue := queue p; current := current p; voice := voice p;
     _play_task := _play_task p; _stop_event := _stop_event p;
     _started_at := _started_at p; volume := volume p; _pcm := s;
     _last_nonzero_volume := _last_nonzero_volume p;
     announce_channel := announce_channel p |}.

Definition set_last_nonzero_volume (v : spec_float) (p : GuildPlayer) : GuildPlayer :=
  {| bot_user := bot_user p; guild := guild p;
     queue := queue p; current := current p; voice := voice p;
     _play_task := _play_task p; _stop_event := _stop_event p;
     _started_at := _started_at p; volume := volume p; _pcm := _pcm p;
     _last_nonzero_volume := v;
     announce_channel := announce_channel p |}.

Definition set_announce_channel (c : option Z) (p : GuildPlayer) : GuildPlayer :=
  {| bot_user := bot_user p; guild := guild p;
     queue := queue p; current := current p; voice := voice p;
     _play_task := _play_task p; _stop_event := _stop_event p;
     _started_at := _started_at p; volume := volume p; _pcm := _pcm p;
     _last_nonzero_volume := _last_nonzero_volume p;
     announce_channel := c |}.

(* ===================================================================== *)
(** ** The event loop around one player *)
(* ===================================================================== *)

(** Where a [_player_loop] task stands: the coroutine is suspended at one of
    its [await]s, has not started yet, or is done ([Task.done()] holds both
    after a normal return and after an uncaught exception). *)
Inductive LoopPc :=
| Created                      (* create_task called, body not entered *)
| Yielded                      (* await asyncio.sleep(0) in the handler *)
| Announcing (finished : nat)  (* await announce_channel.send(...) *)
| Waiting (finished : nat)     (* await asyncio.wait({w1, w2}, ...) *)
| Pacing                       (* await asyncio.sleep(0.2) *)
| Disconnecting                (* await self.voice.disconnect() *)
| Done                         (* returned *)
| Raised.                      (* ended by an exception *)

Definition task_done (pc : LoopPc) : bool :=
  match pc with
  | Done | Raised => true
  | _ => false
  end.

Definition is_alive (pc : LoopPc) : bool := negb (task_done pc).

(** One player together with the objects it shares with the event loop:
    the loop tasks it has created, the [finished] events of the iterations,
    the audio sources, and the notices passed to [announce_channel.send]. *)
Record World := {
  player : GuildPlayer;
  tasks : list LoopPc;
  finished_events : list bool;
  pcms : list PCMVolumeTransformer;
  sent : list (Z * Track);
}.

Definition new_world (bot : option Z) (g : Z) : World :=
  {| player := new_player bot g; tasks := []; finished_events := [];
     pcms := []; sent := [] |}.

Definition upd_player (f : GuildPlayer -> GuildPlayer) (w : World) : World :=
  {| player := f (player w); tasks := tasks w;
     finished_events := finished_events w; pcms := pcms w; sent := sent w |}.

Definition set_task (i : nat) (pc : LoopPc) (w : World) : World :=
  {| player := player w; tasks := <[i := pc]> (tasks w);
     finished_events := finished_events w; pcms := pcms w; sent := sent w |}.

Definition set_finished (e : nat) (w : World) : World :=
  {| player := player w; tasks := tasks w;
     finished_events := <[e := true]> (finished_events w);
     pcms := pcms w; sent := sent w |}.

(** What the surroundings decide when a task runs: whether building the
    ffmpeg source succeeds, the reading of [time.monotonic()], and whether
    an awaited [voice.disconnect()] returns rather than raises. *)
Record Env := {
  open_ok : bool;
  now : spec_float;
  disconnect_ok : bool;
}.

(* --------------------------------------------------------------------- *)
(** *** Voice client calls *)

(** [self.voice and self.voice.is_connected()]. *)
Definition connected (p : GuildPlayer) : bool :=
  match voice p with
  | Some vc => is_connected vc
  | None => false
  end.

(** [self.voice and self.voice.is_playing()]. *)
Definition playing (p : GuildPlayer) : bool :=
  match voice p with
  | Some vc => is_playing vc
  | None => false
  end.

(** [self.voice and self.voice.is_paused()]. *)
Definition paused (p : GuildPlayer) : bool :=
  match voice p with
  | Some vc => is_paused vc
  | None => false
  end.

Definition with_audio (a : option AudioPlayer) (vc : VoiceClient) : VoiceClient :=
  {| vc_connected := vc_connected vc; vc_channel := vc_channel vc;
     vc_player := a |}.

(** [voice.stop()]: the audio player ends and its [after] callback runs,
    which sets the [finished] event it closes over. *)
Definition voice_stop (w : World) : World :=
  match voice (player w) with
  | Some vc =>
      match vc_player vc with
      | Some a =>
          set_finished (ap_after a)
            (upd_player (set_voice (Some (with_audio None vc))) w)
      | None => w
      end
  | None => w
  end.

(** [await voice.disconnect()], seen when the await returns: audio stopped,
    connection closed. *)
Definition voice_disconnect (w : World) : World :=
  let w1 := voice_stop w in
  match voice (player w1) with
  | Some vc =>
      upd_player (set_voice (Some {| vc_connected := false;
                                     vc_channel := vc_channel vc;
                                     vc_player := vc_player vc |})) w1
  | None => w1
  end.

(* --------------------------------------------------------------------- *)
(** *** Presence helpers *)

(** [others_in_channel_count]: members of the current voice channel, not
    counting the bot itself. *)
Definition others_in_channel_count (p : GuildPlayer) : nat :=
  match voice p, bot_user p with
  | Some vc, Some me =>
      match vc_channel vc with
      | Some ch => length (List.filter (fun m => negb (m =? me)) (members ch))
      | None => 0%nat
      end
  | _, _ => 0%nat
  end.

Definition channel_empty_excluding_self (p : GuildPlayer) : bool :=
  Nat.eqb (others_in_channel_count p) 0.

(* --------------------------------------------------------------------- *)
(** *** Queue operations *)

(** [_play_task.done()].  A handle always names a task of the table (only
    [add] assigns it, to the task it has just created); the [None] branch
    is there for totality. *)
Definition handle_done (w : World) (h : nat) : bool :=
  match tasks w !! h with
  | Some pc => task_done pc
  | None => true
  end.

(** [not self._play_task or self._play_task.done()]. *)
Definition needs_loop (w : World) : bool :=
  match _play_task (player w) with
  | None => true
  | Some h => handle_done w h
  end.

(** [async def add(self, track)]: no await inside, so one atomic step. *)
Definition add (t : Track) (w : World) : World :=
  let w1 := upd_player (fun p => set_queue (queue p ++ [t]) p) w in
  if needs_loop w1 then
    {| player := set_play_task (Some (length (tasks w1)))
                   (set_stop_event false (player w1));
       tasks := tasks w1 ++ [Created];
       finished_events := finished_events w1; pcms := pcms w1;
       sent := sent w1 |}
  else w1.

(** [async def skip(self)]. *)
Definition skip (w : World) : World :=
  let w1 := if playing (player w) then voice_stop w else w in
  upd_player (set_stop_event true) w1.

(** [def clear_queue(self)]. *)
Definition clear_queue (p : GuildPlayer) : GuildPlayer := set_queue [] p.

(** [Music.stop]: [player.queue.clear()] then [await player.skip()]. *)
Definition stop (w : World) : World := skip (upd_player clear_queue w).

(** [x[i], x[j] = x[j], x[i]]. *)
Definition swap {A} (i j : nat) (x : list A) : list A :=
  match x !! i, x !! j with
  | Some a, Some b => <[j := a]> (<[i := b]> x)
  | _, _ => x
  end.

(** [random.shuffle(x)]:
    [for i in reversed(range(1, len(x))): j = randbelow(i + 1); swap].
    [rnd i] is the draw made at index [i]; [randbelow(n)] lies below [n]. *)
Fixpoint shuffle_down {A} (rnd : nat -> nat) (i : nat) (x : list A) : list A :=
  match i with
  | O => x
  | S i' => shuffle_down rnd i' (swap i (rnd i mod (i + 1))%nat x)
  end.

Definition random_shuffle {A} (rnd : nat -> nat) (x : list A) : list A :=
  shuffle_down rnd (length x - 1)%nat x.

(** [def shuffle(self)]. *)
Definition shuffle (rnd : nat -> nat) (p : GuildPlayer) : GuildPlayer :=
  match queue p with
  | [] => p
  | _ :: _ => set_queue (random_shuffle rnd (queue p)) p
  end.

(* --------------------------------------------------------------------- *)
(** *** Volume helpers *)

(** [def volume_percent(self)]: [int(round(self.volume * 100))]. *)
Definition volume_percent (p : GuildPlayer) : option Z :=
  Float64.round_half_even (Float64.mul (volume p) Float64.hundred).

(** [self._pcm.volume = self.volume] on the stored source. *)
Definition set_pcm_volume (v : spec_float) (s : PCMVolumeTransformer)
  : PCMVolumeTransformer :=
  {| pcm_url := pcm_url s; pcm_volume := v |}.

(** [def set_volume_percent(self, percent)]: the new world and the value
    returned. *)
Definition set_volume_percent (percent : Z) (w : World) : World * Z :=
  let pct := clamp percent 0 200 in
  let v := Float64.div (Float64.of_Z pct) Float64.hundred in
  let p1 := set_volume v (player w) in
  let p2 := if Float64.gtb (volume p1) Float64.zero
            then set_last_nonzero_volume (volume p1) p1 else p1 in
  let store := match _pcm p2 with
               | Some s => alter (set_pcm_volume (volume p2)) s (pcms w)
               | None => pcms w
               end in
  ({| player := p2; tasks := tasks w; finished_events := finished_events w;
      pcms := store; sent := sent w |}, pct).

(** [def mute(self)]. *)
Definition mute (w : World) : World :=
  let w1 := if Float64.gtb (volume (player w)) Float64.zero
            then upd_player (fun p => set_last_nonzero_volume (volume p) p) w
            else w in
  fst (set_volume_percent 0 w1).

(** [def unmute(self)]; [None] when [int(target * 100)] raises. *)
Definition unmute (w : World) : option (World * Z) :=
  let last := _last_nonzero_volume (player w) in
  let target := if Float64.gtb last Float64.zero then last else Float64.one in
  match Float64.trunc (Float64.mul target Float64.hundred) with
  | Some n => Some (set_volume_percent n w)
  | None => None
  end.

(* --------------------------------------------------------------------- *)
(** *** Pause and resume *)

Definition with_paused (b : bool) (vc : VoiceClient) : VoiceClient :=
  match vc_player vc with
  | Some a => with_audio (Some {| ap_source := ap_source a;
                                  ap_after := ap_after a;
                                  ap_paused := b |}) vc
  | None => vc
  end.

(** [def pause(self)]. *)
Definition pause (p : GuildPlayer) : GuildPlayer * bool :=
  match voice p with
  | Some vc =>
      if is_playing vc then (set_voice (Some (with_paused true vc)) p, true)
      else (p, false)
  | None => (p, false)
  end.

(** [def resume(self)]. *)
Definition resume (p : GuildPlayer) : GuildPlayer * bool :=
  match voice p with
  | Some vc =>
      if is_paused vc then (set_voice (Some (with_paused false vc)) p, true)
      else (p, false)
  | None => (p, false)
  end.

(* --------------------------------------------------------------------- *)
(** *** The [remove] command *)

(** What [Music.remove] answers: the "Invalid index" reply with the queue
    length, or the "Removed" reply for the popped track. *)
Inductive RemoveReply :=
| InvalidIndex (q_len : nat)
| Removed (track : Track).

(** [q_list.pop(k)] for an index inside the list. *)
Definition list_pop {A} (k : nat) (l : list A) : option (A * list A) :=
  match l !! k with
  | Some x => Some (x, take k l ++ drop (S k) l)
  | None => None
  end.

(** The body of [Music.remove] once the player is at hand.  After the range
    test [pop] cannot fail, so the last branch is never taken
    ([remove_in_range]). *)
Definition remove (index : Z) (p : GuildPlayer) : GuildPlayer * RemoveReply :=
  let q_len := length (queue p) in
  if (index <? 1) || (Z.of_nat q_len <? index) then (p, InvalidIndex q_len)
  else
    match list_pop (Z.to_nat (index - 1)) (queue p) with
    | Some (track, q_list) => (set_queue q_list p, Removed track)
    | None => (p, InvalidIndex q_len)
    end.

Section Registry.

(** The bot user the cog's players are created with. *)
Variable bot : option Z.

(** [Music.get_player]: the guild's player, created on first use. *)
Definition get_player (players : gmap Z GuildPlayer) (g : Z)
  : gmap Z GuildPlayer * GuildPlayer :=
  match players !! g with
  | Some p => (players, p)
  | None => let p := new_player bot g in (<[g := p]> players, p)
  end.

(** [Music.remove(ctx, index)] for the guild of [ctx]. *)
Definition Music_remove (players : gmap Z GuildPlayer) (g : Z) (index : Z)
  : gmap Z GuildPlayer * RemoveReply :=
  let '(players1, p) := get_player players g in
  let '(p', r) := remove index p in
  (<[g := p']> players1, r).

End Registry.

(* ===================================================================== *)
(** ** Text helpers *)
(* ===================================================================== *)

(** The values [fmt_time] is called with: [None], an int (the total queue
    time) or a float (a position or a duration). *)
Inductive PyNum :=
| PyNone
| PyInt (z : Z)
| PyFloat (x : spec_float).

(** [not sec]: [None], 0, 0.0 and -0.0 are falsy; nan is not. *)
Definition py_falsy (v : PyNum) : bool :=
  match v with
  | PyNone => true
  | PyInt z => z =? 0
  | PyFloat (S754_zero _) => true
  | PyFloat _ => false
  end.

(** [sec < 0] (false on nan). *)
Definition py_negative (v : PyNum) : bool :=
  match v with
  | PyNone => false
  | PyInt z => z <? 0
  | PyFloat x => SFltb x Float64.zero
  end.

(** [int(sec)]; [None] when it raises. *)
Definition py_int (v : PyNum) : option Z :=
  match v with
  | PyNone => None
  | PyInt z => Some z
  | PyFloat x => Float64.trunc x
  end.

(** The format [{n:02d}]: decimal digits, zero-padded to two characters. *)
Definition pad2 (n : Z) : string :=
  let s := pretty n in
  if (String.length s <? 2)%nat then "0" +:+ s else s.

(** The last three lines of [fmt_time], after [sec = int(sec)]. *)
Definition render_hms (sec : Z) : string :=
  let m := sec / 60 in
  let s := sec mod 60 in
  let h := m / 60 in
  let m := m mod 60 in
  if h =? 0 then pretty m +:+ ":" +:+ pad2 s
  else pretty h +:+ ":" +:+ pad2 m +:+ ":" +:+ pad2 s.

(** [def fmt_time(sec)]. *)
Definition fmt_time (sec : PyNum) : option string :=
  if py_falsy sec || py_negative sec then Some "?:??"
  else match py_int sec with
       | Some n => Some (render_hms n)
       | None => None
       end.

(** [s * n] on strings: empty for [n <= 0]. *)
Fixpoint str_repeat (s : string) (n : nat) : string :=
  match n with
  | O => ""
  | S n' => s +:+ str_repeat s n'
  end.

Definition py_str_mul (s : string) (n : Z) : string := str_repeat s (Z.to_nat n).

(** [len(s)] of the Python string whose UTF-8 encoding is [s]: the bytes
    that are not continuation bytes (10xxxxxx). *)
Fixpoint utf8_length (s : string) : nat :=
  match s with
  | EmptyString => O
  | String c s' =>
      (if Nat.eqb (Ascii.nat_of_ascii c / 64) 2 then 0 else 1)
      + utf8_length s'
  end%nat.

(** The four block characters, as their UTF-8 bytes:
    U+2588 (full block), U+2591 (light shade), U+25B0 and U+25B1 (black and
    white parallelogram). *)
Definition full_block : string :=
  String (Ascii.ascii_of_nat 226) (String (Ascii.ascii_of_nat 150) (String (Ascii.ascii_of_nat 136) "")).
Definition light_shade : string :=
  String (Ascii.ascii_of_nat 226) (String (Ascii.ascii_of_nat 150) (String (Ascii.ascii_of_nat 145) "")).
Definition black_parallelogram : string :=
  String (Ascii.ascii_of_nat 226) (String (Ascii.ascii_of_nat 150) (String (Ascii.ascii_of_nat 176) "")).
Definition white_parallelogram : string :=
  String (Ascii.ascii_of_nat 226) (String (Ascii.ascii_of_nat 150) (String (Ascii.ascii_of_nat 177) "")).

(** [def volume_bar(percent, width)]:
    [filled = int(round(percent / 100 * width))]. *)
Definition volume_bar_filled (percent width : Z) : option Z :=
  Float64.round_half_even
    (Float64.mul (Float64.div (Float64.of_Z percent) (Float64.of_Z 100))
                 (Float64.of_Z width)).

Definition volume_bar (percent width : Z) : option string :=
  match volume_bar_filled percent width with
  | Some filled =>
      Some (py_str_mul full_block filled
            +:+ py_str_mul light_shade (width - filled))
  | None => None
  end.

(** [min(1.0, x)] and [max(0.0, x)] as the builtins compute them: the first
    argument is kept unless the second is strictly smaller (larger). *)
Definition py_min_one (x : spec_float) : spec_float :=
  if SFltb x Float64.one then x else Float64.one.

Definition py_max_zero (x : spec_float) : spec_float :=
  if SFltb Float64.zero x then x else Float64.zero.

(** [def progress_bar(frac, width)]. *)
Definition progress_bar (frac : spec_float) (width : Z) : option string :=
  let frac := py_max_zero (py_min_one frac) in
  match Float64.trunc (Float64.mul frac (Float64.of_Z width)) with
  | Some fill =>
      Some (py_str_mul black_parallelogram fill
            +:+ py_str_mul white_parallelogram (width - fill))
  | None => None
  end.

(** The computed parts of the "Now Playing" notice the loop sends:
    [pos = 0.0], [dur = current.duration or 0.0],
    [frac = 0.0 if not dur else min(1.0, pos / dur)], then the bar and the
    two times. *)
Definition now_playing_dur (t : Track) : spec_float :=
  if py_falsy (PyFloat (duration t)) then Float64.zero else duration t.

Definition now_playing_frac (t : Track) : spec_float :=
  let dur := now_playing_dur t in
  if py_falsy (PyFloat dur) then Float64.zero
  else py_min_one (Float64.div Float64.zero dur).

Definition now_playing_bar (t : Track) : option string :=
  progress_bar (now_playing_frac t) 16.

Definition now_playing_position : option string :=
  fmt_time (PyFloat Float64.zero).

(** For one percentage: [int(round(percent / 100 * 12))] is
    [(12 * percent + 50) / 100]. *)
Definition bar_as_expected (n : nat) : bool :=
  match volume_bar_filled (Z.of_nat n) 12 with
  | Some filled => filled =? (12 * Z.of_nat n + 50) / 100
  | None => false
  end.

(** For one number below 60: [{n:02d}] has two characters. *)
Definition pad2_two_chars (n : nat) : bool :=
  Nat.eqb (String.length (pad2 (Z.of_nat n))) 2.

(* --------------------------------------------------------------------- *)
(** *** The playback loop *)

(** The three assignments that end [_player_loop]. *)
Definition clear_playback (p : GuildPlayer) : GuildPlayer :=
  set_pcm None (set_started_at None (set_current None p)).

Definition finish_loop (i : nat) (w : World) : World :=
  set_task i Done (upd_player clear_playback w).

(** The code after the [while]: test, then either suspend in
    [voice.disconnect()] or fall through to the final assignments. *)
Definition loop_exit (i : nat) (w : World) : World :=
  if channel_empty_excluding_self (player w) && connected (player w)
  then set_task i Disconnecting w
  else finish_loop i w.

(** Whether the text of the "Now Playing" notice can be built.  The bar
    and the two times are computed before [send] is called, inside the
    [try]; when one of them raises ([fmt_time] on a nan or +inf duration)
    the handler swallows the exception and nothing is sent. *)
Definition notice_builds (t : Track) : bool :=
  match now_playing_bar t, now_playing_position,
        fmt_time (PyFloat (now_playing_dur t)) with
  | Some _, Some _, Some _ => true
  | _, _, _ => false
  end.

(** [voice.play(self._pcm, after=_after)] and what follows up to the next
    await.  The client refuses to play while it is already playing
    ([ClientException]); the call is outside every handler, so the
    exception ends the task.  The task is suspended in the now-playing
    [send] only when there is a channel to announce to and the text of the
    notice could be built; otherwise it goes on to the wait. *)
Definition attach (i : nat) (env : Env) (t : Track) (vc : VoiceClient)
    (w : World) : World :=
  let src := length (pcms w) in
  let fid := length (finished_events w) in
  let w1 := {| player := set_pcm (Some src) (player w);
               tasks := tasks w;
               finished_events := finished_events w ++ [false];
               pcms := pcms w ++ [{| pcm_url := url t;
                                     pcm_volume := volume (player w) |}];
               sent := sent w |} in
  if is_playing vc then set_task i Raised w1
  else
    let a := {| ap_source := src; ap_after := fid; ap_paused := false |} in
    let p2 := set_started_at (Some (now env))
                (set_voice (Some (with_audio (Some a) vc)) (player w1)) in
    let waiting :=
      {| player := p2; tasks := <[i := Waiting fid]> (tasks w1);
         finished_events := finished_events w1; pcms := pcms w1;
         sent := sent w1 |} in
    match announce_channel p2, current p2 with
    | Some ch, Some c =>
        if notice_builds c then
          {| player := p2; tasks := <[i := Announcing fid]> (tasks w1);
             finished_events := finished_events w1; pcms := pcms w1;
             sent := sent w1 ++ [(ch, c)] |}
        else waiting
    | _, _ => waiting
    end.

(** One pass from [while self.queue:] to the next suspension point. *)
Definition loop_head (i : nat) (env : Env) (w : World) : World :=
  match queue (player w) with
  | [] => loop_exit i w
  | t :: rest =>
      if channel_empty_excluding_self (player w) then loop_exit i w
      else
        let w1 := upd_player
                    (fun p => set_started_at None
                                (set_current (Some t) (set_queue rest p))) w in
        match voice (player w1) with
        | Some vc =>
            if is_connected vc then
              if open_ok env then attach i env t vc w1
              else set_task i Yielded (upd_player (set_current None) w1)
            else loop_exit i w1
        | None => loop_exit i w1
        end
  end.

(** The race [asyncio.wait({w1, w2}, FIRST_COMPLETED)] can return once the
    iteration's [finished] event or the player's stop event is set
    ([Event.wait()] returns at once on an event that is already set).  The
    stop event is cleared only by the waiting loop itself and by [add] when
    the handle's task is done, so an event set during the wait is still set
    when the loop is resumed. *)
Definition wait_ready (fid : nat) (w : World) : bool :=
  _stop_event (player w) || default false (finished_events w !! fid).

(** Resuming task [i]; [None] when there is no such task, when it is done,
    or when it is blocked in its wait.  The [await self.voice.disconnect()]
    after the [while] is outside every handler: when it raises, the task
    ends there and the three final assignments are not reached.  What a
    failed disconnect leaves of the connection is the library's business;
    the voice client is left as it was. *)
Definition step_task (i : nat) (env : Env) (w : World) : option World :=
  match tasks w !! i with
  | Some Created | Some Yielded | Some Pacing => Some (loop_head i env w)
  | Some (Announcing fid) => Some (set_task i (Waiting fid) w)
  | Some (Waiting fid) =>
      if wait_ready fid w then
        Some (set_task i Pacing
                (upd_player (fun p => set_pcm None (set_stop_event false p)) w))
      else None
  | Some Disconnecting =>
      if disconnect_ok env then Some (finish_loop i (voice_disconnect w))
      else Some (set_task i Raised w)
  | Some Done | Some Raised | None => None
  end.

(* --------------------------------------------------------------------- *)
(** *** Interleavings *)

(** The stream being played reaches its end: the audio player stops and its
    [after] callback runs. *)
Definition stream_end (w : World) : World :=
  if playing (player w) then voice_stop w else w.

(** The members of the player's voice channel change. *)
Definition set_members (ms : list Z) (p : GuildPlayer) : GuildPlayer :=
  match voice p with
  | Some vc =>
      match vc_channel vc with
      | Some ch =>
          set_voice (Some {| vc_connected := vc_connected vc;
                             vc_channel := Some {| ch_id := ch_id ch;
                                                   members := ms |};
                             vc_player := vc_player vc |}) p
      | None => p
      end
  | None => p
  end.

(** The [play] command hands the player a connected voice client for a
    channel (after [ensure_connected], or by adopting the guild's client)
    and records where to announce. *)
Definition connect_to (ch : VoiceChannel) (p : GuildPlayer) : GuildPlayer :=
  set_voice (Some {| vc_connected := true; vc_channel := Some ch;
                     vc_player := match voice p with
                                  | Some vc => vc_player vc
                                  | None => None
                                  end |}) p.

(** What can happen to one player between two suspension points. *)
Inductive Event :=
| EAdd (t : Track)
| ESkip
| EStop
| EClear
| ERemove (index : Z)
| EShuffle (rnd : nat -> nat)
| ESetVolume (percent : Z)
| EMute
| EUnmute
| EPause
| EResume
| EConnect (ch : VoiceChannel)
| EAnnounceTo (ch : Z)
| EMembers (ms : list Z)
| EStreamEnd
| ERun (i : nat) (env : Env).

Definition apply_event (e : Event) (w : World) : World :=
  match e with
  | EAdd t => add t w
  | ESkip => skip w
  | EStop => stop w
  | EClear => upd_player clear_queue w
  | ERemove index => upd_player (fun p => fst (remove index p)) w
  | EShuffle rnd => upd_player (shuffle rnd) w
  | ESetVolume percent => fst (set_volume_percent percent w)
  | EMute => mute w
  | EUnmute => match unmute w with Some (w', _) => w' | None => w end
  | EPause => upd_player (fun p => fst (pause p)) w
  | EResume => upd_player (fun p => fst (resume p)) w
  | EConnect ch => upd_player (connect_to ch) w
  | EAnnounceTo ch => upd_player (set_announce_channel (Some ch)) w
  | EMembers ms => upd_player (set_members ms) w
  | EStreamEnd => stream_end w
  | ERun i env => match step_task i env w with Some w' => w' | None => w end
  end.

(** A schedule: events applied from left to right. *)
Definition run (evs : list Event) (w : World) : World :=
  fold_left (fun acc e => apply_event e acc) evs w.

(* ===================================================================== *)
(** ** Vocabulary of the statements *)
(* ===================================================================== *)

(** Events that neither take from the queue nor reorder it: everything but
    a loop step, [remove], [clear], [stop] and [shuffle]. *)
Definition no_dequeue (e : Event) : bool :=
  match e with
  | ERun _ _ | ERemove _ | EClear | EStop | EShuffle _ => false
  | _ => true
  end.

(** The tracks handed to [add], in call order. *)
Fixpoint enqueued (evs : list Event) : list Track :=
  match evs with
  | [] => []
  | EAdd t :: evs' => t :: enqueued evs'
  | _ :: evs' => enqueued evs'
  end.

(** Sample data for the concrete runs. *)
Definition sample_track (name : string) : Track :=
  {| title := name; url := "https://cdn.example/" ++ name;
     web_url := "https://watch.example/" ++ name;
     duration := Float64.of_Z 180; requested_by := "ash" |}.

Definition sample_env : Env :=
  {| open_ok := true; now := Float64.of_Z 5; disconnect_ok := true |}.

(** A voice channel holding the bot (id 7) and one listener (id 9). *)
Definition sample_channel : VoiceChannel := {| ch_id := 1; members := [7; 9] |}.

Definition sample_world : World := new_world (Some 7) 42.

(** The float [pct / 100.0] stored for a percentage. *)
Definition volume_of_percent (pct : Z) : spec_float :=
  Float64.div (Float64.of_Z pct) Float64.hundred.

(** For one percentage: the float test [volume > 0] agrees with [pct > 0]. *)
Definition positive_agrees (n : nat) : bool :=
  Bool.eqb (Float64.gtb (volume_of_percent (Z.of_nat n)) Float64.zero)
           (0 <? Z.of_nat n).

(** For one percentage: [int(volume * 100)] gives the percentage back. *)
Definition trunc_recovers (n : nat) : bool :=
  match Float64.trunc (Float64.mul (volume_of_percent (Z.of_nat n))
                                   Float64.hundred) with
  | Some m => m =? Z.of_nat n
  | None => false
  end.

(** The percentages in [0 .. 200] that [int(volume * 100)] does not give
    back. *)
Definition lossy_percents : list nat :=
  List.filter (fun n => negb (trunc_recovers n)) (seq 0 201).

(** A world with a source attached: connected, one track taken by the loop. *)
Definition playing_world : World :=
  run [EConnect sample_channel; EAdd (sample_track "A"); ERun 0%nat sample_env]
      sample_world.

(** How many loop tasks of the player have not finished. *)
Definition alive_loops (w : World) : nat :=
  length (List.filter is_alive (tasks w)).

(** Every unfinished loop task is the one [_play_task] refers to. *)
Definition handle_owns_alive (w : World) : Prop :=
  forall i pc, tasks w !! i = Some pc -> is_alive pc = true ->
               _play_task (player w) = Some i.

(** The task is about to evaluate [while self.queue:]: it is starting, or
    coming back from one of the two sleeps. *)
Definition at_loop_head (pc : LoopPc) : bool :=
  match pc with
  | Created | Yielded | Pacing => true
  | _ => false
  end.

(** The pass leaves the [while]: the queue is empty, or the channel has no
    other member (first [break]), or the transport is not connected (second
    [break], after the head of the queue was taken). *)
Definition leaves_loop (p : GuildPlayer) : bool :=
  match queue p with
  | [] => true
  | _ :: _ => channel_empty_excluding_self p || negb (connected p)
  end.

(** [current], [_started_at] and [_pcm] are all [None]. *)
Definition playback_cleared (p : GuildPlayer) : Prop :=
  current p = None /\ _started_at p = None /\ _pcm p = None.

(** The player right after the loop took the head [t] of its queue. *)
Definition take_head (t : Track) (rest : list Track) (w : World) : World :=
  upd_player (fun p => set_started_at None
                         (set_current (Some t) (set_queue rest p))) w.

(** The task is suspended with a stream attached for [finished] event
    [fid]: in the now-playing send or in the wait. *)
Definition attached_on (fid : nat) (pc : LoopPc) : bool :=
  match pc with
  | Announcing f | Waiting f => Nat.eqb f fid
  | _ => false
  end.

(** A channel with the bot alone. *)
Definition lonely_channel : VoiceChannel := {| ch_id := 1; members := [7] |}.

(** Resume a task that holds an attached stream until it is past its wait:
    one step from the wait, two from the now-playing send. *)
Definition resume_past_wait (i : nat) (env : Env) (w : World) : option World :=
  match tasks w !! i with
  | Some (Announcing _) =>
      match step_task i env w with
      | Some wa => step_task i env wa
      | None => None
      end
  | _ => step_task i env w
  end.

(** A world whose loop cannot build the source of the head track. *)
Definition two_queued_world : World :=
  run [EConnect sample_channel; EAdd (sample_track "A");
       EAdd (sample_track "B")] sample_world.

Definition failing_env : Env :=
  {| open_ok := false; now := Float64.of_Z 5; disconnect_ok := true |}.

(** Queue [A; B] with [A] just started: the loop holds [A] and waits. *)
Definition first_playing_world : World :=
  run [ERun 0%nat sample_env] two_queued_world.

(** Three tracks queued, [A] played to its end: the loop has reset the
    signal and is in its pacing sleep, [current] still being [A]. *)
Definition between_tracks_world : World :=
  run [EConnect sample_channel; EAdd (sample_track "A");
       EAdd (sample_track "B"); EAdd (sample_track "C");
       ERun 0%nat sample_env; EStreamEnd; ERun 0%nat sample_env]
      sample_world.

(** [between_tracks_world] after a [skip()] and two resumptions of the
    loop: the loop has started [B], has come out of its wait at once, and
    is in its pacing sleep while the voice client still plays [B]; [C] is
    pending. *)
Definition overrun_world : World :=
  run [ESkip; ERun 0%nat sample_env; ERun 0%nat sample_env]
      between_tracks_world.

(** [A] is playing with [B] pending when the last listener leaves; [A]
    plays to its end, and the next pass of the loop finds the channel
    empty: the task is suspended in the disconnect, [current] still being
    [A]. *)
Definition left_alone_world : World :=
  run [EConnect sample_channel; EAdd (sample_track "A");
       EAdd (sample_track "B"); ERun 0%nat sample_env; EMembers [7];
       EStreamEnd; ERun 0%nat sample_env; ERun 0%nat sample_env]
      sample_world.

(** Case analysis on every [match] of the goal. *)
Ltac break_match :=
  repeat match goal with
         | |- context [match ?x with _ => _ end] => destruct x eqn:?
         end.


(* ===================================================================== *)
(** ** Further vocabulary: playback order *)
(* ===================================================================== *)







(** The urls of the sources built so far, in the order they were built,
    and the tracks announced so far. *)
Definition built_urls (w : World) : list string := map pcm_url (pcms w).


(** Every loop task of the table has returned normally. *)
Definition all_returned (w : World) : bool :=
  forallb (fun pc => match pc with Done => true | _ => false end) (tasks w).

(** Some loop task has not returned normally (it is suspended, not yet
    started, or was ended by an exception). *)
Definition some_not_returned (w : World) : Prop :=
  exists i pc, tasks w !! i = Some pc /\ pc <> Done.

(* ===================================================================== *)
(** ** Further vocabulary: volume *)
(* ===================================================================== *)

(** The float is [pct / 100.0] for some whole percentage from [lo] to 200. *)
Definition percent_volume (lo : Z) (v : spec_float) : Prop :=
  exists pct, lo <= pct <= 200 /\ v = volume_of_percent pct.

(** The volume is a whole percentage in [0 .. 200]; the remembered last
    non-zero volume is one in [1 .. 200]. *)
Definition volumes_are_percents (w : World) : Prop :=
  percent_volume 0 (volume (player w))
  /\ percent_volume 1 (_last_nonzero_volume (player w)).

(** The source [_pcm] refers to, if any, is in the store and carries the
    player's volume. *)
Definition pcm_follows_volume (w : World) : Prop :=
  forall s, _pcm (player w) = Some s ->
            exists src, pcms w !! s = Some src /\
                        pcm_volume src = volume (player w).

(** For one percentage: the float lies between 0.0 and 2.0. *)
Definition within_float_range (n : nat) : bool :=
  SFleb Float64.zero (volume_of_percent (Z.of_nat n))
  && SFleb (volume_of_percent (Z.of_nat n)) (Float64.of_Z 2).

(** For one percentage: [int(round(volume * 100))] gives it back. *)
Definition round_recovers (n : nat) : bool :=
  match Float64.round_half_even
          (Float64.mul (volume_of_percent (Z.of_nat n)) Float64.hundred) with
  | Some m => m =? Z.of_nat n
  | None => false
  end.

(** For one percentage: [int(volume * 100)] gives it back or falls one
    short, and is at least 1 when the percentage is. *)
Definition trunc_is_near (n : nat) : bool :=
  match Float64.trunc
          (Float64.mul (volume_of_percent (Z.of_nat n)) Float64.hundred) with
  | Some m => ((m =? Z.of_nat n) || (m =? Z.of_nat n - 1))
              && ((Z.of_nat n <? 1) || (1 <=? m))
  | None => false
  end.

(** [VolumeView._bump(delta)], also the body of [QueueView.vol_down] and
    [vol_up]: [set_volume_percent(volume_percent() + delta)].  [None] when
    [volume_percent()] raises. *)
Definition bump (delta : Z) (w : World) : option (World * Z) :=
  match volume_percent (player w) with
  | Some pct => Some (set_volume_percent (pct + delta) w)
  | None => None
  end.

(** [VolumeView.mute_unmute]: unmute at 0 %, mute otherwise. *)
Definition mute_unmute (w : World) : option World :=
  match volume_percent (player w) with
  | Some pct =>
      if pct =? 0 then option_map fst (unmute w) else Some (mute w)
  | None => None
  end.

(* ===================================================================== *)
(** ** Further vocabulary: pause button, teardown *)
(* ===================================================================== *)

(** [QueueView.pause_resume]: resume when paused, pause otherwise. *)
Definition pause_resume (p : GuildPlayer) : GuildPlayer :=
  if paused p then (resume p).1 else (pause p).1.

(** [teardown] up to its await: the body of the [try] before
    [voice.disconnect()] is awaited.  The flag tells whether the coroutine
    gets suspended in the disconnect. *)
Definition teardown_begin (w : World) : World * bool :=
  let w1 := upd_player (set_stop_event true) (upd_player clear_queue w) in
  let w2 := if playing (player w1) then voice_stop w1 else w1 in
  (w2, connected (player w2)).

(** The [finally] block of [teardown]. *)
Definition teardown_finally (w : World) : World := upd_player clear_playback w.

(** [teardown] from the return of the disconnect; [ok] is false when the
    disconnect raised.  The [finally] block runs either way. *)
Definition teardown_end (ok : bool) (w : World) : World :=
  teardown_finally (if ok then voice_disconnect w else w).

(** [teardown] as the event loop runs it.  Without a connected voice
    client there is no await and the coroutine runs in one piece.
    Otherwise it is suspended in [voice.disconnect()], the event loop runs
    the events [during] in the meantime, and the coroutine goes on when the
    disconnect is over.  The flag tells whether [teardown] returned: when
    the disconnect raised, the exception leaves [teardown] after the
    [finally] block. *)
Definition teardown (ok : bool) (during : list Event) (w : World)
  : World * bool :=
  let '(w1, suspended) := teardown_begin w in
  if suspended then (teardown_end ok (run during w1), ok)
  else (teardown_finally w1, true).

(** Four resumptions of one task. *)
Definition resume_four (i : nat) (e1 e2 e3 e4 : Env) : list Event :=
  [ERun i e1; ERun i e2; ERun i e3; ERun i e4].

(** The loop task has returned and left nothing behind: no current track,
    an empty queue, and the stores of sources and notices as in [w0]. *)
Definition wound_down (i : nat) (w0 w : World) : Prop :=
  tasks w !! i = Some Done
  /\ playback_cleared (player w)
  /\ queue (player w) = []
  /\ pcms w = pcms w0
  /\ sent w = sent w0.

(** Whether the code after the [while] calls [voice.disconnect()]. *)
Definition exit_disconnects (p : GuildPlayer) : bool :=
  channel_empty_excluding_self p && connected p.

(** Whether a task gets to [voice.disconnect()] once the queue is empty:
    it is suspended there already, or the code after the [while] calls
    it. *)
Definition reaches_disconnect (pc : LoopPc) (p : GuildPlayer) : bool :=
  match pc with
  | Disconnecting => true
  | _ => exit_disconnects p
  end.

(** The loop task was ended by the exception of a failed disconnect: the
    final assignments were skipped, so [current] and [_started_at] are what
    [w0] had; the queue is empty and the stores of sources and notices are
    as in [w0]. *)
Definition died_disconnecting (i : nat) (w0 w : World) : Prop :=
  tasks w !! i = Some Raised
  /\ current (player w) = current (player w0)
  /\ _started_at (player w) = _started_at (player w0)
  /\ queue (player w) = []
  /\ pcms w = pcms w0
  /\ sent w = sent w0.

(** How the loop task ended, given whether it called [voice.disconnect()]
    and whether that call returned. *)
Definition loop_ending (disconnects ok : bool) (i : nat) (w0 w : World)
  : Prop :=
  if disconnects && negb ok then died_disconnecting i w0 w
  else wound_down i w0 w.

(** Surroundings in which [voice.disconnect()] raises. *)
Definition raising_env : Env :=
  {| open_ok := true; now := Float64.of_Z 5; disconnect_ok := false |}.

(** A voice client whose connection is gone while listeners are still in
    its channel. *)
Definition dropped_client : VoiceClient :=
  {| vc_connected := false; vc_channel := Some sample_channel;
     vc_player := None |}.

Definition dropped_world : World :=
  upd_player (set_voice (Some dropped_client)) two_queued_world.

Definition lonely_world : World :=
  run [EConnect lonely_channel; EAdd (sample_track "A");
       EAdd (sample_track "B")] sample_world.

(* ===================================================================== *)
(** ** The paginated queue view *)
(* ===================================================================== *)

(** The state of a [QueueView] that its paging uses.  [page] starts at 0
    and is only ever assigned [max(0, page - 1)], [page + 1],
    [min(page, max_page)] with [max_page >= 0], or 0, so it is never
    negative. *)
Record QueueView := {
  per_page : nat;
  page : nat;
}.

(** [len(range(0, n, step))] for a positive [step]. *)
Definition range_count (n step : nat) : nat := ((n + step - 1) / step)%nat.

(** [QueueView._queue_pages]: the slices [q[i:i + per_page]] for [i] in
    [range(0, len(q), per_page)], or one empty page when there is none.
    [None] stands for the [ValueError] of [range] with step 0. *)
Definition queue_pages (per : nat) (q : list Track)
  : option (list (list Track)) :=
  match per with
  | O => None
  | S _ =>
      let pages := map (fun k => take per (drop (k * per) q))
                       (seq 0 (range_count (length q) per)) in
      Some (match pages with [] => [[]] | _ :: _ => pages end)
  end.

(** The page [embed] shows: [max(0, min(self.page, len(pages) - 1))]. *)
Definition shown_page (v : QueueView) (pages : list (list Track)) : nat :=
  Nat.max 0 (Nat.min (page v) (length pages - 1)).

(** The numbers [_queue_lines] prints in front of the tracks of a page:
    [offset + i] for [i] counting from 1. *)
Definition line_numbers (offset : nat) (page_tracks : list Track)
  : list (nat * Track) :=
  imap (fun j t => ((offset + S j)%nat, t)) page_tracks.

(** What [_sync_button_states] sets: the two paging buttons, the values of
    the remove select (the labels are not modelled) and whether the select
    is disabled. *)
Record Buttons := {
  prev_disabled : bool;
  next_disabled : bool;
  select_values : list Z;
  select_disabled : bool;
}.

(** [QueueView._sync_button_states].  [pages[self.page]] is not clamped:
    [None] stands for its [IndexError] (and for the error of
    [_queue_pages]). *)
Definition sync_button_states (v : QueueView) (q : list Track)
  : option Buttons :=
  match queue_pages (per_page v) q with
  | None => None
  | Some pages =>
      let has_prev := (0 <? page v)%nat in
      let has_next := Z.of_nat (page v) <? Z.of_nat (length pages) - 1 in
      match pages !! page v with
      | None => None
      | Some page_tracks =>
          let opts := imap (fun j (_ : Track) =>
                              Z.of_nat (page v * per_page v + S j))
                           page_tracks in
          let opts' := match opts with [] => [-1] | _ :: _ => opts end in
          Some {| prev_disabled := negb has_prev;
                  next_disabled := negb has_next;
                  select_values := opts';
                  select_disabled :=
                    match opts' with o :: _ => o =? -1 | [] => false end |}
      end
  end.

(** The page buttons and the two buttons that reset the page. *)
Definition prev_page (v : QueueView) : QueueView :=
  {| per_page := per_page v; page := Nat.max 0 (page v - 1) |}.

Definition next_page (v : QueueView) : QueueView :=
  {| per_page := per_page v; page := (page v + 1)%nat |}.

Definition first_page (v : QueueView) : QueueView :=
  {| per_page := per_page v; page := 0 |}.

(** What [_on_remove_select] answers. *)
Inductive SelectReply :=
| InvalidSelection
| RemovedTrack (track : Track).

(** [QueueView._on_remove_select] for the selected value [idx]: the same
    range test and [pop] as the [remove] command, then the page is pulled
    back to [max(0, (len(queue) - 1) // per_page)].  [None] stands for the
    [ZeroDivisionError] of a view with [per_page = 0]. *)
Definition on_remove_select (idx : Z) (v : QueueView) (p : GuildPlayer)
  : option (QueueView * GuildPlayer * SelectReply) :=
  let q_len := length (queue p) in
  if (idx <? 1) || (Z.of_nat q_len <? idx) then Some (v, p, InvalidSelection)
  else
    match list_pop (Z.to_nat (idx - 1)) (queue p) with
    | Some (track, q_list) =>
        match per_page v with
        | O => None
        | S _ =>
            let max_page :=
              Z.max 0 ((Z.of_nat (length q_list) - 1)
                       / Z.of_nat (per_page v)) in
            Some ({| per_page := per_page v;
                     page := Nat.min (page v) (Z.to_nat max_page) |},
                  set_queue q_list p, RemovedTrack track)
        end
    | None => Some (v, p, InvalidSelection)
    end.

(** Twenty numbered tracks, and the view [/queue] opens (8 per page). *)
Definition twenty_tracks : list Track :=
  map (fun n => sample_track (String (Ascii.ascii_of_nat (65 + n)) ""))
      (seq 0 20).

Definition queue_view (pg : nat) : QueueView := {| per_page := 8; page := pg |}.

(** The numbered tracks [embed] lists under "Up Next": the page it shows,
    numbered by [_queue_lines] from [offset = page * per_page]. *)
Definition embed_lines (v : QueueView) (q : list Track)
  : option (list (nat * Track)) :=
  match queue_pages (per_page v) q with
  | None => None
  | Some pages =>
      let pg := shown_page v pages in
      match pages !! pg with
      | None => None
      | Some page_tracks => Some (line_numbers (pg * per_page v) page_tracks)
      end
  end.

(* ===================================================================== *)
(** ** The voice-state listener *)
(* ===================================================================== *)

(** What [on_voice_state_update] decides before its first await: nothing,
    a teardown (with the channel the farewell goes to, if any), or an
    [AttributeError] (the connected client has no channel to compare
    with). *)
Inductive WatchDecision :=
| WatchIgnore
| WatchTearDown (farewell_to : option Z)
| WatchError.

(** [c and c.id == ch.id] for the channel [c] of a voice state. *)
Definition touches (ch : VoiceChannel) (c : option Z) : bool :=
  match c with
  | Some id => id =? ch_id ch
  | None => false
  end.

(** [on_voice_state_update(member, before, after)] for a member of guild
    [g]; [before] and [after] are the ids of the member's channel before
    and after the change. *)
Definition watch_decision (players : gmap Z GuildPlayer) (g : Z)
    (before after : option Z) : WatchDecision :=
  match players !! g with
  | None => WatchIgnore
  | Some p =>
      match voice p with
      | None => WatchIgnore
      | Some vc =>
          if is_connected vc then
            match vc_channel vc with
            | Some ch =>
                if touches ch before || touches ch after then
                  if Nat.eqb (others_in_channel_count p) 0
                  then WatchTearDown (announce_channel p)
                  else WatchIgnore
                else WatchIgnore
            | None =>
                match before, after with
                | None, None => WatchIgnore
                | _, _ => WatchError
                end
            end
          else WatchIgnore
      end
  end.

(** The dictionary once the listener is through.  Without a teardown the
    listener returns (or raises) before its first await and the dictionary
    is as it found it.  After deciding on a teardown it awaits the farewell
    and [player.teardown()]; other handlers run during these awaits, so the
    dictionary it comes back to is [later].  [self.players.pop] is reached
    only when [teardown] returned: an exception from [teardown] leaves the
    listener before the pop. *)
Definition watch_registry (players : gmap Z GuildPlayer) (g : Z)
    (before after : option Z) (returned : bool)
    (later : gmap Z GuildPlayer) : gmap Z GuildPlayer :=
  match watch_decision players g before after with
  | WatchTearDown _ => if returned then delete g later else later
  | _ => players
  end.

(* ===================================================================== *)
(** ** Basic facts about assignments *)
(* ===================================================================== *)

Lemma player_upd f w : player (upd_player f w) = f (player w).
Proof. reflexivity. Qed.

Lemma tasks_upd f w : tasks (upd_player f w) = tasks w.
Proof. reflexivity. Qed.

Lemma run_app evs1 evs2 w : run (evs1 ++ evs2) w = run evs2 (run evs1 w).
Proof. unfold run. apply fold_left_app. Qed.

Lemma run_cons e evs w : run (e :: evs) w = run evs (apply_event e w).
Proof. reflexivity. Qed.

Lemma voice_stop_player_fields w :
  let p := player w in
  let p' := player (voice_stop w) in
  queue p' = queue p /\ current p' = current p /\
  _play_task p' = _play_task p /\ _stop_event p' = _stop_event p /\
  _pcm p' = _pcm p /\ volume p' = volume p.
Proof.
  unfold voice_stop. destruct (voice (player w)) as [vc|]; [|tauto].
  destruct (vc_player vc); simpl; tauto.
Qed.

Lemma voice_stop_tasks w : tasks (voice_stop w) = tasks w.
Proof.
  unfold voice_stop. destruct (voice (player w)) as [vc|]; [|reflexivity].
  destruct (vc_player vc); reflexivity.
Qed.

(* ===================================================================== *)
(** ** Enqueueing keeps insertion order *)
(* ===================================================================== *)

Lemma add_queue t w : queue (player (add t w)) = queue (player w) ++ [t].
Proof. unfold add. destruct (needs_loop _); reflexivity. Qed.

Lemma set_volume_percent_queue n w :
  queue (player (fst (set_volume_percent n w))) = queue (player w).
Proof.
  unfold set_volume_percent. simpl.
  destruct (Float64.gtb _ _); reflexivity.
Qed.

Lemma no_dequeue_queue e w :
  no_dequeue e = true ->
  queue (player (apply_event e w)) =
  queue (player w) ++ enqueued [e].
Proof.
  destruct e; cbn [apply_event no_dequeue enqueued]; try discriminate;
    intros _; rewrite ?app_nil_r; try reflexivity.
  - apply add_queue.
  - unfold skip. destruct (playing _); simpl; [|reflexivity].
    apply voice_stop_player_fields.
  - apply set_volume_percent_queue.
  - unfold mute. rewrite set_volume_percent_queue.
    destruct (Float64.gtb _ _); reflexivity.
  - unfold unmute. destruct (Float64.trunc _); [|reflexivity].
    apply set_volume_percent_queue.
  - rewrite player_upd. unfold pause.
    destruct (voice (player w)) as [vc|]; [|reflexivity].
    destruct (is_playing vc); reflexivity.
  - rewrite player_upd. unfold resume.
    destruct (voice (player w)) as [vc|]; [|reflexivity].
    destruct (is_paused vc); reflexivity.
  - rewrite player_upd. unfold set_members.
    destruct (voice (player w)) as [vc|]; [|reflexivity].
    destruct (vc_channel vc); reflexivity.
  - unfold stream_end. destruct (playing _); [|reflexivity].
    apply voice_stop_player_fields.
Qed.

(** C2.  Over any schedule in which nothing dequeues (no loop step, no
    remove / clear / stop / shuffle), the queue ends as the queue it
    started from followed by exactly the tracks passed to [add], in call
    order: every [add] appends at the tail. *)
Theorem enqueue_keeps_fifo_order (evs : list Event) (w : World) :
  forallb no_dequeue evs = true ->
  queue (player (run evs w)) = queue (player w) ++ enqueued evs.
Proof.
  revert w. induction evs as [|e evs IH]; intros w Hnd.
  - simpl. now rewrite app_nil_r.
  - simpl in Hnd. apply andb_prop in Hnd as [He Hevs].
    rewrite run_cons, IH by exact Hevs.
    rewrite no_dequeue_queue by exact He.
    rewrite <- app_assoc. f_equal.
    destruct e; simpl in *; try reflexivity; discriminate.
Qed.

Lemma enqueue_keeps_fifo_order_witness :
  queue (player (run [EAdd (sample_track "A"); ESkip;
                      EAdd (sample_track "B"); ESetVolume 80;
                      EAdd (sample_track "C")] sample_world))
  = [sample_track "A"; sample_track "B"; sample_track "C"].
Proof.
  exact (enqueue_keeps_fifo_order
           [EAdd (sample_track "A"); ESkip; EAdd (sample_track "B");
            ESetVolume 80; EAdd (sample_track "C")] sample_world eq_refl).
Defined.

(* ===================================================================== *)
(** ** Removing a pending item by index *)
(* ===================================================================== *)

Lemma list_pop_middle {A} (k : nat) (l : list A) :
  (k < length l)%nat ->
  exists before x after,
    l = before ++ x :: after /\ length before = k /\
    list_pop k l = Some (x, before ++ after).
Proof.
  intros Hk. destruct (lookup_lt_is_Some_2 l k Hk) as [x Hx].
  exists (take k l), x, (drop (S k) l). split; [|split].
  - symmetry. now apply take_drop_middle.
  - rewrite length_take. lia.
  - unfold list_pop. now rewrite Hx.
Qed.

Lemma remove_out_of_range index p :
  index < 1 \/ Z.of_nat (length (queue p)) < index ->
  remove index p = (p, InvalidIndex (length (queue p))).
Proof.
  intros H. unfold remove.
  destruct (index <? 1) eqn:E1; [reflexivity|].
  destruct (Z.of_nat (length (queue p)) <? index) eqn:E2; [reflexivity|].
  apply Z.ltb_ge in E1, E2. lia.
Qed.

Lemma remove_in_range index p :
  1 <= index <= Z.of_nat (length (queue p)) ->
  exists before x after,
    queue p = before ++ x :: after /\
    Z.of_nat (length before) = index - 1 /\
    remove index p = (set_queue (before ++ after) p, Removed x).
Proof.
  intros H. unfold remove.
  destruct (index <? 1) eqn:E1; [apply Z.ltb_lt in E1; lia|].
  destruct (Z.of_nat (length (queue p)) <? index) eqn:E2;
    [apply Z.ltb_lt in E2; lia|].
  simpl.
  destruct (list_pop_middle (Z.to_nat (index - 1)) (queue p))
    as (before & x & after & Hq & Hlen & Hpop); [lia|].
  exists before, x, after. rewrite Hpop. repeat split; [exact Hq | lia].
Qed.

Lemma get_player_stored bot players g :
  (get_player bot players g).1 !! g = Some (get_player bot players g).2.
Proof.
  unfold get_player. destruct (players !! g) eqn:E; simpl.
  - exact E.
  - apply lookup_insert_eq.
Qed.

(** C3.  [Music.remove] on the guild's player (created on first use) with
    queue [q]: an index below 1 or above [len q] is answered with the
    invalid-index reply and the stored player is unchanged; an index inside
    [1 .. len q] splits [q] as [before ++ x :: after] with
    [len before = index - 1], replies with [x], and stores the player with
    queue [before ++ after], every other field (so also [current]) as it
    was.  In particular index 1 on [X; Y; Z] leaves [Y; Z] and yields [X]. *)
Theorem remove_checks_index_then_pops
    (bot : option Z) (players : gmap Z GuildPlayer) (g index : Z) :
  let p := (get_player bot players g).2 in
  let out := Music_remove bot players g index in
  (index < 1 \/ Z.of_nat (length (queue p)) < index ->
     out.2 = InvalidIndex (length (queue p)) /\ out.1 !! g = Some p)
  /\ (1 <= index <= Z.of_nat (length (queue p)) ->
      exists before x after,
        queue p = before ++ x :: after /\
        Z.of_nat (length before) = index - 1 /\
        out.2 = Removed x /\
        out.1 !! g = Some (set_queue (before ++ after) p) /\
        current (set_queue (before ++ after) p) = current p)
  /\ (forall X Y Z', queue p = [X; Y; Z'] -> index = 1 ->
        out.2 = Removed X /\ out.1 !! g = Some (set_queue [Y; Z'] p)).
Proof.
  intros p out. subst p out. unfold Music_remove.
  pose proof (get_player_stored bot players g) as Hst.
  destruct (get_player bot players g) as [players1 p] eqn:Eg.
  cbn [fst snd] in *.
  split; [|split].
  - intros H. rewrite (remove_out_of_range _ _ H). cbn [fst snd].
    split; [reflexivity|]. now rewrite insert_id.
  - intros H.
    destruct (remove_in_range _ _ H) as (before & x & after & Hq & Hl & Hr).
    exists before, x, after. rewrite Hr. cbn [fst snd].
    repeat split; try assumption. apply lookup_insert_eq.
  - intros X Y Z' Hq ->.
    unfold remove. rewrite Hq. cbn. split; [reflexivity|].
    apply lookup_insert_eq.
Qed.

Lemma remove_checks_index_then_pops_witness :
  let q := [sample_track "X"; sample_track "Y"; sample_track "Z"] in
  let players : gmap Z GuildPlayer :=
    {[ 42 := set_queue q (new_player (Some 7) 42) ]} in
  (Music_remove (Some 7) players 42 0).2 = InvalidIndex 3
  /\ (Music_remove (Some 7) players 42 4).2 = InvalidIndex 3
  /\ (Music_remove (Some 7) players 42 1).2 = Removed (sample_track "X")
  /\ (Music_remove (Some 7) players 42 1).1 !! 42
     = Some (set_queue [sample_track "Y"; sample_track "Z"]
               (new_player (Some 7) 42)).
Proof.
  intros q players.
  pose proof (remove_checks_index_then_pops (Some 7) players 42 0) as H0.
  pose proof (remove_checks_index_then_pops (Some 7) players 42 4) as H4.
  pose proof (remove_checks_index_then_pops (Some 7) players 42 1) as H1.
  cbv zeta in H0, H4, H1.
  destruct H0 as [H0 _]. destruct H4 as [H4 _]. destruct H1 as (_ & _ & H1).
  split; [|split].
  - apply H0. left. lia.
  - apply H4. right.
    change (Z.of_nat (length (queue (get_player (Some 7) players 42).2)))
      with 3. lia.
  - apply (H1 (sample_track "X") (sample_track "Y") (sample_track "Z"));
      reflexivity.
Defined.

(* ===================================================================== *)
(** ** Volume *)
(* ===================================================================== *)

Lemma clamp_0_200 x : clamp x 0 200 = Z.max 0 (Z.min x 200).
Proof.
  unfold clamp. destruct (x <? 0) eqn:E1.
  - apply Z.ltb_lt in E1. lia.
  - apply Z.ltb_ge in E1. destruct (200 <? x) eqn:E2.
    + apply Z.ltb_lt in E2. lia.
    + apply Z.ltb_ge in E2. lia.
Qed.

Lemma positive_agrees_all : forallb positive_agrees (seq 0 201) = true.
Proof. vm_compute. reflexivity. Qed.

Lemma volume_positive_iff pct :
  0 <= pct <= 200 ->
  Float64.gtb (volume_of_percent pct) Float64.zero = (0 <? pct).
Proof.
  intros H.
  pose proof (proj1 (forallb_forall _ _) positive_agrees_all (Z.to_nat pct)) as Hc.
  unfold positive_agrees in Hc. rewrite Z2Nat.id in Hc by lia.
  apply Bool.eqb_prop, Hc, in_seq. lia.
Qed.

Lemma set_volume_percent_volume percent w :
  volume (player (set_volume_percent percent w).1)
  = volume_of_percent (clamp percent 0 200).
Proof.
  unfold set_volume_percent. cbn [fst player volume set_volume].
  destruct (Float64.gtb _ _); reflexivity.
Qed.

(** C4.  [set_volume_percent(percent)] returns [pct = clamp(percent, 0, 200)]
    (that is [max 0 (min percent 200)]), stores the float [pct / 100.0] as
    the volume, overwrites the remembered last non-zero volume exactly when
    [pct > 0], and writes the new volume into the source [_pcm] refers to
    when there is one (the store is untouched otherwise).  With 250 it
    returns 200 and stores 2.0. *)
Theorem set_volume_percent_clamps_and_propagates (percent : Z) (w : World) :
  let pct := clamp percent 0 200 in
  let out := set_volume_percent percent w in
  out.2 = pct
  /\ pct = Z.max 0 (Z.min percent 200)
  /\ volume (player out.1) = Float64.div (Float64.of_Z pct) (Float64.of_Z 100)
  /\ _last_nonzero_volume (player out.1)
     = (if 0 <? pct then volume (player out.1)
        else _last_nonzero_volume (player w))
  /\ _pcm (player out.1) = _pcm (player w)
  /\ (forall s src, _pcm (player w) = Some s -> pcms w !! s = Some src ->
        pcms out.1 !! s = Some (set_pcm_volume (volume (player out.1)) src))
  /\ (_pcm (player w) = None -> pcms out.1 = pcms w)
  /\ (percent = 250 ->
        out.2 = 200 /\
        volume (player out.1) = S754_finite false 4503599627370496 (-51)).
Proof.
  intros pct out.
  assert (Hrange : 0 <= pct <= 200) by (subst pct; rewrite clamp_0_200; lia).
  pose proof (volume_positive_iff pct Hrange) as Hpos.
  subst out. unfold set_volume_percent. fold pct.
  cbn [fst snd player volume set_volume].
  fold (volume_of_percent pct). rewrite Hpos.
  split; [reflexivity|]. split; [apply clamp_0_200|].
  assert (Hvol : volume (if 0 <? pct
                         then set_last_nonzero_volume (volume_of_percent pct)
                                (set_volume (volume_of_percent pct) (player w))
                         else set_volume (volume_of_percent pct) (player w))
                 = volume_of_percent pct)
    by (destruct (0 <? pct); reflexivity).
  assert (Hpcm : _pcm (if 0 <? pct
                       then set_last_nonzero_volume (volume_of_percent pct)
                              (set_volume (volume_of_percent pct) (player w))
                       else set_volume (volume_of_percent pct) (player w))
                 = _pcm (player w))
    by (destruct (0 <? pct); reflexivity).
  rewrite Hvol, Hpcm.
  split; [reflexivity|]. split; [destruct (0 <? pct); reflexivity|].
  split; [reflexivity|]. split; [|split].
  - intros s src Hs Hsrc. rewrite Hs.
    cbn [pcms]. rewrite list_lookup_alter_eq, Hsrc. reflexivity.
  - intros Hnone. now rewrite Hnone.
  - intros ->. split; reflexivity.
Qed.

Lemma set_volume_percent_clamps_and_propagates_witness :
  (set_volume_percent 250 playing_world).2 = 200
  /\ volume (player (set_volume_percent 250 playing_world).1)
     = S754_finite false 4503599627370496 (-51)
  /\ pcms (set_volume_percent 250 playing_world).1 !! 0%nat
     = Some {| pcm_url := url (sample_track "A");
               pcm_volume := S754_finite false 4503599627370496 (-51) |}.
Proof.
  pose proof (set_volume_percent_clamps_and_propagates 250 playing_world) as H.
  cbv zeta in H.
  destruct H as (_ & _ & _ & _ & _ & Hsrc & _ & H250).
  destruct (H250 eq_refl) as [Hret Hvol].
  split; [exact Hret|]. split; [exact Hvol|].
  rewrite (Hsrc 0%nat {| pcm_url := url (sample_track "A");
                         pcm_volume := Float64.one |} eq_refl eq_refl).
  now rewrite Hvol.
Defined.

(** The displayed percentage, computed with [round], gives back every
    percentage that was set. *)
Lemma volume_percent_after_set percent w :
  volume_percent (player (set_volume_percent percent w).1)
  = Some (clamp percent 0 200).
Proof.
  pose proof (clamp_0_200 percent) as Hc.
  unfold volume_percent. rewrite set_volume_percent_volume.
  assert (Hall : forallb (fun n =>
            match Float64.round_half_even
                    (Float64.mul (volume_of_percent (Z.of_nat n))
                                 Float64.hundred) with
            | Some m => m =? Z.of_nat n
            | None => false
            end) (seq 0 201) = true) by (vm_compute; reflexivity).
  pose proof (proj1 (forallb_forall _ _) Hall
                (Z.to_nat (clamp percent 0 200))) as Hn.
  cbv beta in Hn. rewrite Z2Nat.id in Hn by lia.
  destruct (Float64.round_half_even _) as [m|].
  - f_equal. apply Z.eqb_eq, Hn, in_seq. lia.
  - discriminate Hn. apply in_seq. lia.
Qed.

(** C5 (the code departs from the claim).  At 57 % the volume is positive;
    [mute()] then [unmute()] ends at 56 %: [int(0.57 * 100)] truncates
    56.99999999999999 to 56.  The same happens at each of 29, 57, 58, 113,
    114, 115 and 116 %, and at no other percentage. *)
Theorem mute_then_unmute_at_57_percent :
  let w := (set_volume_percent 57 sample_world).1 in
  volume (player w) = volume_of_percent 57
  /\ Float64.gtb (volume (player w)) Float64.zero = true
  /\ volume (player (mute w)) = Float64.zero
  /\ option_map snd (unmute (mute w)) = Some 56
  /\ option_map (fun o => volume (player o.1)) (unmute (mute w))
     = Some (volume_of_percent 56)
  /\ volume_of_percent 56 <> volume_of_percent 57
  /\ volume_percent (player w) = Some 57
  /\ lossy_percents = [29; 57; 58; 113; 114; 115; 116]%nat.
Proof.
  vm_compute. repeat split; try reflexivity. discriminate.
Qed.

(* ===================================================================== *)
(** ** Shuffling *)
(* ===================================================================== *)

Section ShuffleFacts.

Context {A : Type}.
Implicit Types (x : list A) (a b : A) (i j : nat).

Lemma insert_perm_head x j a b :
  x !! j = Some b -> Permutation (b :: <[j := a]> x) (a :: x).
Proof.
  revert j. induction x as [|c x IH]; intros [|j] Hj; try discriminate.
  - injection Hj as ->. apply perm_swap.
  - cbn in Hj |- *. etransitivity; [apply perm_swap|].
    etransitivity; [apply perm_skip, IH, Hj|]. apply perm_swap.
Qed.

Lemma insert_swap_perm x i j a b :
  x !! i = Some a -> x !! j = Some b ->
  Permutation (<[j := a]> (<[i := b]> x)) x.
Proof.
  revert i j. induction x as [|c x IH]; intros [|i] [|j] Hi Hj;
    try discriminate; cbn in Hi, Hj |- *.
  - injection Hi as ->. reflexivity.
  - injection Hi as ->. now apply insert_perm_head.
  - injection Hj as ->. now apply insert_perm_head.
  - apply perm_skip. now apply IH.
Qed.

Lemma swap_perm i j x : Permutation (swap i j x) x.
Proof.
  unfold swap. destruct (x !! i) as [a|] eqn:Hi; [|reflexivity].
  destruct (x !! j) as [b|] eqn:Hj; [|reflexivity].
  now apply insert_swap_perm.
Qed.

Lemma shuffle_down_perm rnd i x : Permutation (shuffle_down rnd i x) x.
Proof.
  revert x. induction i as [|i IH]; intros x; [reflexivity|].
  cbn [shuffle_down]. etransitivity; [apply IH|]. apply swap_perm.
Qed.

Lemma random_shuffle_perm rnd x : Permutation (random_shuffle rnd x) x.
Proof. apply shuffle_down_perm. Qed.

End ShuffleFacts.

(** C10.  [shuffle()] returns the player itself when the queue is empty;
    otherwise the new queue is a permutation of the old one (same tracks
    with the same multiplicities, hence the same length), whatever the
    random draws, and the player differs from the old one in its [queue]
    field only, so [current] and all the rest are untouched. *)
Theorem shuffle_permutes_queue_only (rnd : nat -> nat) (p : GuildPlayer) :
  (queue p = [] -> shuffle rnd p = p)
  /\ Permutation (queue (shuffle rnd p)) (queue p)
  /\ length (queue (shuffle rnd p)) = length (queue p)
  /\ shuffle rnd p = set_queue (queue (shuffle rnd p)) p
  /\ current (shuffle rnd p) = current p.
Proof.
  assert (Hperm : Permutation (queue (shuffle rnd p)) (queue p)).
  { unfold shuffle. destruct (queue p) as [|t q] eqn:Hq.
    - now rewrite Hq.
    - cbn [queue set_queue]. apply random_shuffle_perm. }
  split; [|split; [|split; [|split]]].
  - intros Hq. unfold shuffle. now rewrite Hq.
  - exact Hperm.
  - now apply Permutation_length.
  - unfold shuffle. destruct (queue p) as [|t q] eqn:Hq.
    + destruct p; cbn in *; now subst.
    + reflexivity.
  - unfold shuffle. destruct (queue p); reflexivity.
Qed.

Lemma shuffle_permutes_queue_only_witness :
  shuffle (fun _ => 3%nat) (new_player (Some 7) 42) = new_player (Some 7) 42
  /\ queue (shuffle (fun _ => 3%nat)
              (set_queue [sample_track "A"; sample_track "B"; sample_track "C"]
                 (new_player (Some 7) 42)))
     = [sample_track "C"; sample_track "B"; sample_track "A"].
Proof.
  split.
  - exact (proj1 (shuffle_permutes_queue_only (fun _ => 3%nat)
                    (new_player (Some 7) 42)) eq_refl).
  - reflexivity.
Defined.

(* ===================================================================== *)
(** ** One playback loop per player *)
(* ===================================================================== *)

(** Everything except [add] and a loop step leaves the task table and the
    handle alone. *)
Lemma set_volume_percent_tasks n w :
  tasks (set_volume_percent n w).1 = tasks w /\
  _play_task (player (set_volume_percent n w).1) = _play_task (player w).
Proof.
  unfold set_volume_percent. cbn [fst tasks player].
  destruct (Float64.gtb _ _); split; reflexivity.
Qed.

Lemma skip_tasks w :
  tasks (skip w) = tasks w /\
  _play_task (player (skip w)) = _play_task (player w).
Proof.
  unfold skip. destruct (playing (player w)); cbn; [|tauto].
  split; [apply voice_stop_tasks | apply voice_stop_player_fields].
Qed.

Lemma other_events_keep_tasks e w :
  match e with EAdd _ | ERun _ _ => False | _ => True end ->
  tasks (apply_event e w) = tasks w /\
  _play_task (player (apply_event e w)) = _play_task (player w).
Proof.
  destruct e; cbn [apply_event]; intros H; try contradiction;
    try (split; reflexivity).
  - apply skip_tasks.
  - unfold stop. destruct (skip_tasks (upd_player clear_queue w)) as [-> ->].
    split; reflexivity.
  - rewrite tasks_upd, player_upd. unfold remove.
    break_match; split; reflexivity.
  - rewrite tasks_upd, player_upd. unfold shuffle.
    break_match; split; reflexivity.
  - apply set_volume_percent_tasks.
  - unfold mute.
    destruct (set_volume_percent_tasks 0
      (if Float64.gtb (volume (player w)) Float64.zero
       then upd_player (fun p => set_last_nonzero_volume (volume p) p) w
       else w)) as [-> ->].
    destruct (Float64.gtb _ _); split; reflexivity.
  - unfold unmute. destruct (Float64.trunc _); [|split; reflexivity].
    apply set_volume_percent_tasks.
  - rewrite tasks_upd, player_upd. unfold pause.
    break_match; split; reflexivity.
  - rewrite tasks_upd, player_upd. unfold resume.
    break_match; split; reflexivity.
  - rewrite tasks_upd, player_upd. unfold set_members.
    break_match; split; reflexivity.
  - unfold stream_end. destruct (playing (player w)); [|split; reflexivity].
    split; [apply voice_stop_tasks | apply voice_stop_player_fields].
Qed.

(** A loop step rewrites the entry of the task that ran and nothing else in
    the table; the handle is not assigned by the loop. *)
Lemma finish_loop_shape i w :
  tasks (finish_loop i w) = <[i := Done]> (tasks w) /\
  _play_task (player (finish_loop i w)) = _play_task (player w).
Proof. split; reflexivity. Qed.

Lemma loop_exit_shape i w :
  exists pc', tasks (loop_exit i w) = <[i := pc']> (tasks w) /\
              _play_task (player (loop_exit i w)) = _play_task (player w).
Proof.
  unfold loop_exit. destruct (_ && _); eexists; split; reflexivity.
Qed.

Lemma attach_shape i env t vc w :
  exists pc', tasks (attach i env t vc w) = <[i := pc']> (tasks w) /\
              _play_task (player (attach i env t vc w)) = _play_task (player w).
Proof.
  unfold attach. destruct (is_playing vc).
  - eexists; split; reflexivity.
  - cbn [announce_channel current set_started_at set_voice set_pcm player].
    destruct (announce_channel (player w));
      [destruct (current (player w)) as [c|];
       [destruct (notice_builds c)|]|];
      eexists; split; reflexivity.
Qed.

Lemma loop_head_shape i env w :
  exists pc', tasks (loop_head i env w) = <[i := pc']> (tasks w) /\
              _play_task (player (loop_head i env w)) = _play_task (player w).
Proof.
  unfold loop_head. destruct (queue (player w)) as [|t rest].
  { apply loop_exit_shape. }
  destruct (channel_empty_excluding_self (player w)).
  { apply loop_exit_shape. }
  set (w1 := upd_player _ w).
  assert (Hw1 : tasks w1 = tasks w /\
                _play_task (player w1) = _play_task (player w))
    by (split; reflexivity).
  destruct Hw1 as [Ht Hh]. rewrite <- Ht, <- Hh.
  destruct (voice (player w1)) as [vc|]; [|apply loop_exit_shape].
  destruct (is_connected vc); [|apply loop_exit_shape].
  destruct (open_ok env); [apply attach_shape|].
  eexists; split; reflexivity.
Qed.

Lemma voice_disconnect_tasks w :
  tasks (voice_disconnect w) = tasks w /\
  _play_task (player (voice_disconnect w)) = _play_task (player w).
Proof.
  unfold voice_disconnect.
  destruct (voice (player (voice_stop w))); cbn;
    (split; [apply voice_stop_tasks | apply voice_stop_player_fields]).
Qed.

Lemma step_task_shape i env w w' :
  step_task i env w = Some w' ->
  exists pc pc',
    tasks w !! i = Some pc /\ is_alive pc = true /\
    tasks w' = <[i := pc']> (tasks w) /\
    _play_task (player w') = _play_task (player w).
Proof.
  unfold step_task. intros H.
  destruct (tasks w !! i) as [pc|] eqn:Hpc; [|discriminate].
  exists pc.
  destruct pc; try discriminate; try injection H as <-;
    try (destruct (loop_head_shape i env w) as (pc' & ? & ?);
         exists pc'; repeat split; assumption);
    try (eexists; repeat split; reflexivity).
  - destruct (wait_ready finished w); [|discriminate].
    injection H as <-. eexists; repeat split; reflexivity.
  - destruct (disconnect_ok env); injection H as <-.
    + destruct (voice_disconnect_tasks w) as [Ht Hh].
      exists Done. repeat split; cbn; [now rewrite Ht | exact Hh].
    + exists Raised. repeat split; reflexivity.
Qed.

Lemma add_unfold t w :
  add t w =
  if needs_loop w then
    {| player := set_play_task (Some (length (tasks w)))
                   (set_stop_event false
                      (set_queue (queue (player w) ++ [t]) (player w)));
       tasks := tasks w ++ [Created];
       finished_events := finished_events w; pcms := pcms w;
       sent := sent w |}
  else upd_player (fun p => set_queue (queue p ++ [t]) p) w.
Proof. reflexivity. Qed.

Lemma needs_loop_no_alive w :
  handle_owns_alive w -> needs_loop w = true ->
  forall i pc, tasks w !! i = Some pc -> is_alive pc = false.
Proof.
  intros Hinv Hneed i pc Hi.
  destruct (is_alive pc) eqn:Ha; [|reflexivity].
  pose proof (Hinv i pc Hi Ha) as Hh.
  unfold needs_loop, handle_done in Hneed. rewrite Hh, Hi in Hneed.
  unfold is_alive in Ha. now rewrite Hneed in Ha.
Qed.

Lemma not_needs_loop_alive w :
  needs_loop w = false ->
  exists h pc, _play_task (player w) = Some h /\
               tasks w !! h = Some pc /\ is_alive pc = true.
Proof.
  unfold needs_loop, handle_done. intros H.
  destruct (_play_task (player w)) as [h|]; [|discriminate].
  destruct (tasks w !! h) as [pc|] eqn:Hpc; [|discriminate].
  exists h, pc. unfold is_alive. now rewrite H.
Qed.

Lemma handle_owns_alive_new bot g : handle_owns_alive (new_world bot g).
Proof. intros i pc Hi. discriminate Hi. Qed.

Lemma handle_owns_alive_add t w :
  handle_owns_alive w -> handle_owns_alive (add t w).
Proof.
  intros Hinv. rewrite add_unfold. destruct (needs_loop w) eqn:Hneed.
  - intros i pc Hi Ha. cbn in Hi |- *.
    destruct (decide (i < length (tasks w))%nat) as [Hlt|Hge].
    + rewrite lookup_app_l in Hi by exact Hlt.
      rewrite (needs_loop_no_alive w Hinv Hneed i pc Hi) in Ha. discriminate.
    + rewrite lookup_app_r in Hi by lia.
      destruct (i - length (tasks w))%nat as [|k] eqn:Hk; [|discriminate Hi].
      f_equal. lia.
  - exact Hinv.
Qed.

Lemma handle_owns_alive_step e w :
  handle_owns_alive w -> handle_owns_alive (apply_event e w).
Proof.
  intros Hinv.
  destruct e as [t| | | |index|rnd|percent| | | | |ch|ch|ms| |i env];
    try (match goal with
         | |- handle_owns_alive (apply_event ?e w) =>
             destruct (other_events_keep_tasks e w I) as [Ht Hh]
         end;
         intros j pc; rewrite Ht, Hh; apply Hinv).
  - apply handle_owns_alive_add, Hinv.
  - cbn [apply_event]. destruct (step_task i env w) as [w'|] eqn:Hs;
      [|exact Hinv].
    destruct (step_task_shape _ _ _ _ Hs) as (pc & pc' & Hi & Ha & Ht & Hh).
    intros j pcj Hj Haj. rewrite Hh. rewrite Ht in Hj.
    destruct (decide (i = j)) as [->|Hne].
    + now apply (Hinv j pc).
    + rewrite list_lookup_insert_ne in Hj by exact Hne.
      now apply (Hinv j pcj).
Qed.

Lemma handle_owns_alive_run evs w :
  handle_owns_alive w -> handle_owns_alive (run evs w).
Proof.
  revert w. induction evs as [|e evs IH]; intros w Hinv; [exact Hinv|].
  rewrite run_cons. apply IH, handle_owns_alive_step, Hinv.
Qed.

(** Counting the unfinished entries of a task table. *)
Lemma no_alive_filter (l : list LoopPc) :
  (forall i pc, l !! i = Some pc -> is_alive pc = false) ->
  List.filter is_alive l = [].
Proof.
  induction l as [|c l IH]; intros H; [reflexivity|].
  cbn. rewrite (H 0%nat c eq_refl).
  apply IH. intros i pc Hi. exact (H (S i) pc Hi).
Qed.

Lemma unique_alive_filter (l : list LoopPc) :
  (forall i j pc pc', l !! i = Some pc -> l !! j = Some pc' ->
                      is_alive pc = true -> is_alive pc' = true -> i = j) ->
  (length (List.filter is_alive l) <= 1)%nat.
Proof.
  induction l as [|c l IH]; intros H; [cbn; lia|].
  cbn. destruct (is_alive c) eqn:Hc.
  - rewrite no_alive_filter; [cbn; lia|].
    intros i pc Hi. destruct (is_alive pc) eqn:Hp; [|reflexivity].
    discriminate (H 0%nat (S i) c pc eq_refl Hi Hc Hp).
  - apply IH. intros i j pc pc' Hi Hj Ha Ha'.
    pose proof (H (S i) (S j) pc pc' Hi Hj Ha Ha'). lia.
Qed.

Lemma some_alive_filter (l : list LoopPc) h pc :
  l !! h = Some pc -> is_alive pc = true ->
  (1 <= length (List.filter is_alive l))%nat.
Proof.
  revert h. induction l as [|c l IH]; intros [|h] Hh Ha; try discriminate.
  - injection Hh as ->. cbn. rewrite Ha. cbn. lia.
  - cbn. destruct (is_alive c); cbn; [lia|]. exact (IH h Hh Ha).
Qed.

Lemma alive_loops_of_invariant w :
  handle_owns_alive w ->
  alive_loops w = if needs_loop w then 0%nat else 1%nat.
Proof.
  intros Hinv. unfold alive_loops. destruct (needs_loop w) eqn:Hneed.
  - rewrite no_alive_filter; [reflexivity|].
    now apply needs_loop_no_alive.
  - destruct (not_needs_loop_alive w Hneed) as (h & pc & _ & Hh & Ha).
    pose proof (some_alive_filter _ _ _ Hh Ha).
    assert (length (List.filter is_alive (tasks w)) <= 1)%nat; [|lia].
    apply unique_alive_filter. intros i j pci pcj Hi Hj Hai Haj.
    pose proof (Hinv i pci Hi Hai) as E1.
    pose proof (Hinv j pcj Hj Haj) as E2. congruence.
Qed.

(** C1.  After any schedule of events on a fresh player (enqueues, loop
    steps with any outcome, skips, stops, volume and queue commands,
    membership and stream events, in any order), at most one loop task is
    unfinished.  [add] creates a task exactly when its test
    [not _play_task or _play_task.done()] holds, which is exactly when no
    loop is unfinished; with a loop still running [add] leaves the task
    table and the handle as they are.  Either way one loop is unfinished
    right after [add]. *)
Theorem at_most_one_playback_loop
    (evs : list Event) (bot : option Z) (g : Z) (t : Track) :
  let w := run evs (new_world bot g) in
  (alive_loops w <= 1)%nat
  /\ alive_loops w = (if needs_loop w then 0%nat else 1%nat)
  /\ tasks (add t w) = (if needs_loop w then tasks w ++ [Created] else tasks w)
  /\ _play_task (player (add t w))
     = (if needs_loop w then Some (length (tasks w))
        else _play_task (player w))
  /\ alive_loops (add t w) = 1%nat.
Proof.
  intros w.
  assert (Hinv : handle_owns_alive w)
    by apply handle_owns_alive_run, handle_owns_alive_new.
  pose proof (alive_loops_of_invariant w Hinv) as Hcount.
  split; [rewrite Hcount; destruct (needs_loop w); lia|].
  split; [exact Hcount|].
  split; [rewrite add_unfold; destruct (needs_loop w); reflexivity|].
  split; [rewrite add_unfold; destruct (needs_loop w); reflexivity|].
  pose proof (alive_loops_of_invariant (add t w)
                (handle_owns_alive_add t w Hinv)) as Hafter.
  rewrite Hafter. rewrite add_unfold.
  destruct (needs_loop w) eqn:Hneed.
  - unfold needs_loop, handle_done. cbn.
    rewrite lookup_app_r by lia. now rewrite Nat.sub_diag.
  - unfold needs_loop, handle_done in *. cbn. now rewrite Hneed.
Qed.

(* ===================================================================== *)
(** ** The playback loop, pass by pass *)
(* ===================================================================== *)

Lemma lookup_set_task i pc w old :
  tasks w !! i = Some old -> tasks (set_task i pc w) !! i = Some pc.
Proof.
  intros H. cbn. apply list_lookup_insert_eq.
  now apply lookup_lt_Some in H.
Qed.

Lemma step_at_loop_head i env w pc :
  tasks w !! i = Some pc -> at_loop_head pc = true ->
  step_task i env w = Some (loop_head i env w).
Proof.
  intros Hi Hpc. unfold step_task. rewrite Hi.
  destruct pc; try discriminate; reflexivity.
Qed.

(** The three ways out of the [while] all run the code after it, on the
    player as it is then (with the head taken on the second [break]). *)
Lemma loop_head_leaves i env w :
  leaves_loop (player w) = true ->
  exists w0, loop_head i env w = loop_exit i w0 /\
             tasks w0 = tasks w /\
             voice (player w0) = voice (player w) /\
             bot_user (player w0) = bot_user (player w).
Proof.
  unfold leaves_loop, loop_head. intros H.
  destruct (queue (player w)) as [|t rest].
  { exists w. repeat split. }
  destruct (channel_empty_excluding_self (player w)).
  { exists w. repeat split. }
  cbn in H. unfold connected in H.
  cbn [player upd_player voice set_started_at set_current set_queue].
  destruct (voice (player w)) as [vc|] eqn:Hv.
  - destruct (is_connected vc); [discriminate|].
    eexists. split; [reflexivity|]. repeat split. exact Hv.
  - eexists. split; [reflexivity|]. repeat split. exact Hv.
Qed.

Lemma channel_empty_ext p p' :
  voice p' = voice p -> bot_user p' = bot_user p ->
  channel_empty_excluding_self p' = channel_empty_excluding_self p.
Proof.
  intros Hv Hb. unfold channel_empty_excluding_self, others_in_channel_count.
  now rewrite Hv, Hb.
Qed.

Lemma connected_ext p p' : voice p' = voice p -> connected p' = connected p.
Proof. intros Hv. unfold connected. now rewrite Hv. Qed.

Lemma finish_loop_cleared i w : playback_cleared (player (finish_loop i w)).
Proof. repeat split. Qed.

Lemma voice_disconnect_connected w :
  connected (player (voice_disconnect w)) = false.
Proof.
  unfold voice_disconnect.
  destruct (voice (player (voice_stop w))) as [vc|] eqn:Hv.
  - reflexivity.
  - unfold connected. now rewrite Hv.
Qed.

(** The code after the [while], path by path.  When a pass of the loop
    leaves the [while] (queue empty, channel without other members, or
    transport not connected), [voice.disconnect()] is called if and only if
    the channel has no member besides the bot and the voice client is
    connected.  If it is not called, the task returns in the same step with
    [current], [_started_at] and [_pcm] set to [None] and the voice client
    untouched.  If it is, the task is suspended in the disconnect; when the
    disconnect returns, the task's next step ends it with the transport
    disconnected and the three fields set to [None]; when the disconnect
    raises, the task ends with the exception and the player is left as it
    was, the three fields included. *)
Lemma loop_exit_paths
    (i : nat) (env : Env) (w : World) (pc : LoopPc) :
  tasks w !! i = Some pc -> at_loop_head pc = true ->
  leaves_loop (player w) = true ->
  exists w1,
    step_task i env w = Some w1
    /\ (if channel_empty_excluding_self (player w) && connected (player w)
        then tasks w1 !! i = Some Disconnecting
        else tasks w1 !! i = Some Done
             /\ voice (player w1) = voice (player w)
             /\ playback_cleared (player w1))
    /\ (forall (w' : World) (env' : Env),
          tasks w' !! i = Some Disconnecting ->
          exists w2, step_task i env' w' = Some w2
                     /\ if disconnect_ok env'
                        then tasks w2 !! i = Some Done
                             /\ connected (player w2) = false
                             /\ playback_cleared (player w2)
                        else tasks w2 !! i = Some Raised
                             /\ player w2 = player w').
Proof.
  intros Hi Hpc Hleave.
  rewrite (step_at_loop_head i env w pc Hi Hpc).
  eexists. split; [reflexivity|]. split.
  - destruct (loop_head_leaves i env w Hleave) as (w0 & -> & Ht & Hv & Hb).
    unfold loop_exit.
    rewrite (channel_empty_ext _ _ Hv Hb), (connected_ext _ _ Hv).
    rewrite <- Ht in Hi.
    destruct (_ && _).
    + exact (lookup_set_task i _ w0 pc Hi).
    + split; [exact (lookup_set_task i _ _ pc Hi)|].
      split; [exact Hv | apply finish_loop_cleared].
  - intros w' env' Hd. unfold step_task. rewrite Hd.
    destruct (disconnect_ok env'); (eexists; split; [reflexivity|]).
    + split; [|split].
      * apply (lookup_set_task i Done _ Disconnecting).
        cbn. now rewrite (proj1 (voice_disconnect_tasks w')).
      * apply voice_disconnect_connected.
      * apply finish_loop_cleared.
    + split; [exact (lookup_set_task i Raised _ _ Hd) | reflexivity].
Qed.

(** C9 (the code departs from the claim).  The three final assignments are
    not reached when the task leaves by an exception.  Left alone in the
    channel while [A] played, the loop finds the channel empty on its next
    pass and awaits [voice.disconnect()], [current] still being [A].  When
    the disconnect returns, the task returns with the transport
    disconnected and the three fields cleared.  When it raises, the task
    ends there: [current] is still [A] and the start time is still set,
    with no loop task left to clear them.  The same holds when the task is
    ended by the refused [play]: [current] and [_pcm] stay set. *)
Theorem failed_disconnect_skips_the_cleanup :
  let w := left_alone_world in
  let returned := run [ERun 0%nat sample_env] w in
  let raised := run [ERun 0%nat raising_env] w in
  let refused := run [ERun 0%nat sample_env] overrun_world in
  (tasks w = [Disconnecting]
   /\ channel_empty_excluding_self (player w) = true
   /\ connected (player w) = true
   /\ current (player w) = Some (sample_track "A")
   /\ _started_at (player w) = Some (now sample_env)
   /\ queue (player w) = [sample_track "B"])
  /\ (tasks returned = [Done]
      /\ connected (player returned) = false
      /\ current (player returned) = None
      /\ _started_at (player returned) = None
      /\ _pcm (player returned) = None)
  /\ (tasks raised = [Raised]
      /\ alive_loops raised = 0%nat
      /\ current (player raised) = Some (sample_track "A")
      /\ _started_at (player raised) = Some (now sample_env))
  /\ (tasks refused = [Raised]
      /\ current (player refused) = Some (sample_track "C")
      /\ _pcm (player refused) = Some 2%nat).
Proof. vm_compute. repeat split. Qed.

(** A pass that stays in the loop: head taken, then the source is built or
    the handler runs. *)
Lemma loop_head_takes i env w t rest vc :
  queue (player w) = t :: rest ->
  channel_empty_excluding_self (player w) = false ->
  voice (player w) = Some vc -> is_connected vc = true ->
  loop_head i env w =
  if open_ok env then attach i env t vc (take_head t rest w)
  else set_task i Yielded (upd_player (set_current None) (take_head t rest w)).
Proof.
  intros Hq Hch Hv Hc. unfold loop_head. rewrite Hq, Hch.
  fold (take_head t rest w).
  replace (voice (player (take_head t rest w))) with (Some vc)
    by (symmetry; exact Hv).
  now rewrite Hc.
Qed.

Lemma connected_voice p :
  connected p = true -> exists vc, voice p = Some vc /\ is_connected vc = true.
Proof.
  unfold connected. destruct (voice p) as [vc|]; [|discriminate].
  intros H. now exists vc.
Qed.

(** A successful attach: the client plays the new source, tied to a fresh
    [finished] event, and the task is suspended on that event. *)
Lemma attach_success i env t vc w old :
  tasks w !! i = Some old -> is_playing vc = false ->
  let w2 := attach i env t vc w in
  let fid := length (finished_events w) in
  current (player w2) = current (player w)
  /\ queue (player w2) = queue (player w)
  /\ _stop_event (player w2) = _stop_event (player w)
  /\ _pcm (player w2) = Some (length (pcms w))
  /\ _started_at (player w2) = Some (now env)
  /\ playing (player w2) = true
  /\ finished_events w2 = finished_events w ++ [false]
  /\ (exists pc', tasks w2 !! i = Some pc' /\ attached_on fid pc' = true).
Proof.
  intros Hi Hnp. unfold attach. rewrite Hnp.
  cbn [announce_channel current set_started_at set_voice set_pcm player].
  assert (Hlt : (i < length (tasks w))%nat) by now apply lookup_lt_Some in Hi.
  destruct (announce_channel (player w));
    [destruct (current (player w)) as [c|] eqn:Hcur;
     [destruct (notice_builds c)|]|];
    cbn; rewrite ?Hcur; repeat split; eexists;
    (split; [now apply list_lookup_insert_eq | cbn; apply Nat.eqb_refl]).
Qed.

(** A failure inside the [try].  When building the audio source for the
    track at the head of the queue raises, the pass ends
    with [current] cleared and the track gone from the queue (the rest of
    the queue is as it was, so the track is not queued again); nothing was
    attached; the task is not finished but suspended in [sleep(0)], and its
    next step is a new pass of the loop, which takes the next queued track
    when there is one and its source can be built. *)
Lemma failed_open_drops_track_and_continues
    (i : nat) (env : Env) (w : World) (pc : LoopPc)
    (t : Track) (rest : list Track) :
  tasks w !! i = Some pc -> at_loop_head pc = true ->
  queue (player w) = t :: rest ->
  channel_empty_excluding_self (player w) = false ->
  connected (player w) = true ->
  open_ok env = false ->
  exists w1,
    step_task i env w = Some w1
    /\ current (player w1) = None
    /\ queue (player w1) = rest
    /\ tasks w1 !! i = Some Yielded
    /\ task_done Yielded = false
    /\ voice (player w1) = voice (player w)
    /\ _pcm (player w1) = _pcm (player w)
    /\ pcms w1 = pcms w
    /\ (forall env', step_task i env' w1 = Some (loop_head i env' w1))
    /\ (forall env' n rest',
          rest = n :: rest' -> open_ok env' = true ->
          playing (player w) = false ->
          exists w2, step_task i env' w1 = Some w2
                     /\ current (player w2) = Some n
                     /\ queue (player w2) = rest'
                     /\ playing (player w2) = true).
Proof.
  intros Hi Hpc Hq Hch Hconn Hopen.
  destruct (connected_voice _ Hconn) as (vc & Hv & Hc).
  rewrite (step_at_loop_head i env w pc Hi Hpc).
  rewrite (loop_head_takes i env w t rest vc Hq Hch Hv Hc), Hopen.
  eexists. split; [reflexivity|].
  assert (Hy : tasks (set_task i Yielded
                        (upd_player (set_current None) (take_head t rest w)))
               !! i = Some Yielded)
    by exact (lookup_set_task i Yielded _ pc Hi).
  repeat (split; [first [reflexivity | exact Hy]|]).
  split.
  - intros env'. exact (step_at_loop_head i env' _ Yielded Hy eq_refl).
  - intros env' n rest' -> Hopen' Hnp.
    set (w1 := set_task i Yielded
                 (upd_player (set_current None) (take_head t (n :: rest') w)))
      in *.
    rewrite (step_at_loop_head i env' w1 Yielded Hy eq_refl).
    eexists. split; [reflexivity|].
    assert (Hq1 : queue (player w1) = n :: rest') by reflexivity.
    assert (Hch1 : channel_empty_excluding_self (player w1) = false)
      by exact Hch.
    assert (Hv1 : voice (player w1) = Some vc) by exact Hv.
    rewrite (loop_head_takes i env' w1 n rest' vc Hq1 Hch1 Hv1 Hc), Hopen'.
    assert (Hvc : is_playing vc = false)
      by (unfold playing in Hnp; now rewrite Hv in Hnp).
    destruct (attach_success i env' n vc (take_head n rest' w1) Yielded Hy Hvc)
      as (Hcur & Hqu & _ & _ & _ & Hpl & _).
    rewrite Hcur, Hqu. repeat split. exact Hpl.
Qed.

Lemma failed_open_example :
  exists w1,
    step_task 0 failing_env two_queued_world = Some w1
    /\ current (player w1) = None
    /\ queue (player w1) = [sample_track "B"]
    /\ tasks w1 !! 0%nat = Some Yielded
    /\ exists w2, step_task 0 sample_env w1 = Some w2
                  /\ current (player w2) = Some (sample_track "B")
                  /\ queue (player w2) = []
                  /\ playing (player w2) = true.
Proof.
  destruct (failed_open_drops_track_and_continues 0 failing_env
              two_queued_world Created (sample_track "A") [sample_track "B"]
              eq_refl eq_refl eq_refl eq_refl eq_refl eq_refl)
    as (w1 & Hs & Hcur & Hq & Ht & _ & _ & _ & _ & _ & Hnext).
  exists w1. repeat (split; [assumption|]).
  exact (Hnext sample_env (sample_track "B") [] eq_refl eq_refl eq_refl).
Qed.

(** C7 (the code departs from the claim).  Only the building of the source
    is inside the [try]; [voice.play] is not.  With the loop in its pacing
    sleep, [C] and [D] pending and the voice client still playing, a pass
    whose source cannot be built drops [C] and goes on (the handler).  A
    pass whose source is built but whose [play] is refused ends the task
    with the exception: [current] stays [C], [_pcm] names the source that
    was never played, [D] stays queued, no loop task is left and the task
    cannot be resumed. *)
Theorem refused_play_ends_the_loop :
  let w := run [EAdd (sample_track "D")] overrun_world in
  let unopened := run [ERun 0%nat failing_env] w in
  let refused := run [ERun 0%nat sample_env] w in
  (tasks w = [Pacing]
   /\ queue (player w) = [sample_track "C"; sample_track "D"]
   /\ playing (player w) = true
   /\ connected (player w) = true
   /\ channel_empty_excluding_self (player w) = false)
  /\ (tasks unopened = [Yielded]
      /\ current (player unopened) = None
      /\ queue (player unopened) = [sample_track "D"])
  /\ (tasks refused = [Raised]
      /\ current (player refused) = Some (sample_track "C")
      /\ _pcm (player refused) = Some 2%nat
      /\ built_urls refused
         = [url (sample_track "A"); url (sample_track "B");
            url (sample_track "C")]
      /\ queue (player refused) = [sample_track "D"]
      /\ alive_loops refused = 0%nat
      /\ step_task 0 sample_env refused = None).
Proof. vm_compute. repeat split. Qed.

(* ===================================================================== *)
(** ** Skip *)
(* ===================================================================== *)

Lemma voice_stop_presence w :
  channel_empty_excluding_self (player (voice_stop w))
  = channel_empty_excluding_self (player w)
  /\ connected (player (voice_stop w)) = connected (player w)
  /\ playing (player (voice_stop w)) = false.
Proof.
  unfold voice_stop, channel_empty_excluding_self, others_in_channel_count,
    connected, playing, is_playing.
  destruct (voice (player w)) as [vc|] eqn:Hv; cbn.
  - destruct (vc_player vc) eqn:Ha; cbn; rewrite ?Hv, ?Ha; repeat split.
  - rewrite Hv. repeat split.
Qed.

Lemma skip_not_playing w :
  playing (player w) = false -> skip w = upd_player (set_stop_event true) w.
Proof. unfold skip. now intros ->. Qed.

Lemma skip_facts w :
  tasks (skip w) = tasks w
  /\ queue (player (skip w)) = queue (player w)
  /\ current (player (skip w)) = current (player w)
  /\ _stop_event (player (skip w)) = true
  /\ playing (player (skip w)) = false
  /\ channel_empty_excluding_self (player (skip w))
     = channel_empty_excluding_self (player w)
  /\ connected (player (skip w)) = connected (player w).
Proof.
  unfold skip. destruct (playing (player w)) eqn:Hp.
  - destruct (voice_stop_presence w) as (Hch & Hc & Hpl).
    destruct (voice_stop_player_fields w) as (Hq & Hcur & _).
    cbv zeta in Hq, Hcur.
    rewrite tasks_upd, player_upd. repeat split; try assumption.
    apply voice_stop_tasks.
  - repeat split. exact Hp.
Qed.

Lemma skip_playing w :
  playing (player w) = true ->
  exists vc a,
    voice (player w) = Some vc /\ vc_player vc = Some a /\
    voice (player (skip w)) = Some (with_audio None vc) /\
    finished_events (skip w) = <[ap_after a := true]> (finished_events w).
Proof.
  intros Hp. unfold skip. rewrite Hp.
  unfold playing, is_playing in Hp. unfold voice_stop.
  destruct (voice (player w)) as [vc|]; [|discriminate].
  destruct (vc_player vc) as [a|] eqn:Ha; [|discriminate].
  exists vc, a. cbn. rewrite Ha. repeat split.
Qed.

(** After a skip, a task that held an attached stream gets past its wait
    and into the pacing sleep, having reset the signal; the queue is as the
    skip found it. *)
Lemma skip_then_resume i fid env w pc :
  tasks w !! i = Some pc -> attached_on fid pc = true ->
  exists w1,
    resume_past_wait i env (skip w) = Some w1
    /\ tasks w1 !! i = Some Pacing
    /\ player w1 = set_pcm None (set_stop_event false (player (skip w))).
Proof.
  intros Hi Hpc.
  destruct (skip_facts w) as (Ht & _ & _ & Hstop & _).
  assert (His : tasks (skip w) !! i = Some pc) by now rewrite Ht.
  assert (Hready : forall f w', _stop_event (player w') = true ->
                                wait_ready f w' = true)
    by (intros f w' H; unfold wait_ready; now rewrite H).
  unfold resume_past_wait. rewrite His.
  destruct pc; try discriminate.
  - set (wa := set_task i (Waiting finished) (skip w)).
    assert (Hwa : tasks wa !! i = Some (Waiting finished))
      by exact (lookup_set_task i _ _ _ His).
    assert (Hs1 : step_task i env (skip w) = Some wa)
      by (unfold step_task; now rewrite His).
    rewrite Hs1. unfold step_task. rewrite Hwa.
    rewrite (Hready finished wa Hstop).
    eexists. split; [reflexivity|]. split; [|reflexivity].
    exact (lookup_set_task i Pacing _ _ Hwa).
  - unfold step_task. rewrite His, (Hready finished (skip w) Hstop).
    eexists. split; [reflexivity|]. split; [|reflexivity].
    exact (lookup_set_task i Pacing _ _ His).
Qed.

(** What [skip()] does at once, and to a loop that holds an attached
    stream.  [skip()] always leaves the stop event set and nothing playing.
    If the voice client was playing, its audio player is stopped at once
    (and the [finished] event of that stream is set by the callback); if
    nothing was playing, the call changes the stop event and nothing else;
    a second [skip()] right after the first changes nothing.
    A loop task that holds an attached stream when [skip()] is called gets
    past its wait, resets the signal and sleeps; its next pass returns (or
    goes to disconnect) when the queue is empty, and otherwise, with
    listeners present, the transport connected and the source building,
    takes the head of the queue as the new [current]: the skipped track is
    not put back and the queue is the old tail. *)
Lemma skip_stops_stream_and_moves_on (w : World) :
  _stop_event (player (skip w)) = true
  /\ playing (player (skip w)) = false
  /\ (playing (player w) = true ->
      exists vc a,
        voice (player w) = Some vc /\ vc_player vc = Some a /\
        voice (player (skip w)) = Some (with_audio None vc) /\
        finished_events (skip w) = <[ap_after a := true]> (finished_events w))
  /\ (playing (player w) = false ->
      skip w = upd_player (set_stop_event true) w)
  /\ skip (skip w) = skip w
  /\ (forall i fid pc env,
        tasks w !! i = Some pc -> attached_on fid pc = true ->
        exists w1,
          resume_past_wait i env (skip w) = Some w1
          /\ tasks w1 !! i = Some Pacing
          /\ _stop_event (player w1) = false
          /\ queue (player w1) = queue (player w)
          /\ (queue (player w) = [] ->
              forall env', exists w2,
                step_task i env' w1 = Some w2
                /\ queue (player w2) = []
                /\ (tasks w2 !! i = Some Done \/
                    tasks w2 !! i = Some Disconnecting))
          /\ (forall env' n rest,
                queue (player w) = n :: rest ->
                channel_empty_excluding_self (player w) = false ->
                connected (player w) = true ->
                open_ok env' = true ->
                exists w2,
                  step_task i env' w1 = Some w2
                  /\ current (player w2) = Some n
                  /\ queue (player w2) = rest
                  /\ playing (player w2) = true
                  /\ _stop_event (player w2) = false)).
Proof.
  destruct (skip_facts w) as (Ht & Hq & Hcur & Hstop & Hpl & Hch & Hconn).
  split; [exact Hstop|]. split; [exact Hpl|].
  split; [apply skip_playing|]. split; [apply skip_not_playing|].
  split.
  { rewrite (skip_not_playing (skip w) Hpl). unfold skip.
    destruct (playing (player w)); reflexivity. }
  intros i fid pc env Hi Hpc.
  destruct (skip_then_resume i fid env w pc Hi Hpc) as (w1 & Hr & Hp & Hplayer).
  exists w1. split; [exact Hr|]. split; [exact Hp|].
  split; [now rewrite Hplayer|]. split; [now rewrite Hplayer|].
  split.
  - intros Hempty env'.
    rewrite (step_at_loop_head i env' w1 Pacing Hp eq_refl).
    eexists. split; [reflexivity|].
    assert (Hq1 : queue (player w1) = [])
      by (rewrite Hplayer; exact (eq_trans Hq Hempty)).
    unfold loop_head. rewrite Hq1. unfold loop_exit.
    destruct (_ && _).
    + split; [exact Hq1|].
      right. exact (lookup_set_task i _ _ _ Hp).
    + split; [exact Hq1|].
      left. exact (lookup_set_task i _ _ _ Hp).
  - intros env' n rest Hqn Hne Hc Hopen.
    rewrite (step_at_loop_head i env' w1 Pacing Hp eq_refl).
    eexists. split; [reflexivity|].
    rewrite <- Hconn in Hc. rewrite <- Hch in Hne.
    destruct (connected_voice _ Hc) as (vc & Hv & Hvc).
    assert (Hq1 : queue (player w1) = n :: rest)
      by (rewrite Hplayer; exact (eq_trans Hq Hqn)).
    assert (Hch1 : channel_empty_excluding_self (player w1) = false)
      by (rewrite Hplayer; exact Hne).
    assert (Hv1 : voice (player w1) = Some vc)
      by (rewrite Hplayer; exact Hv).
    rewrite (loop_head_takes i env' w1 n rest vc Hq1 Hch1 Hv1 Hvc), Hopen.
    assert (Hnp : is_playing vc = false)
      by (unfold playing in Hpl; now rewrite Hv in Hpl).
    destruct (attach_success i env' n vc (take_head n rest w1) Pacing Hp Hnp)
      as (Hc2 & Hq2 & Hs2 & _ & _ & Hpl2 & _).
    rewrite Hc2, Hq2, Hs2. repeat split; [exact Hpl2|].
    change (_stop_event (player w1) = false). now rewrite Hplayer.
Qed.

Lemma skip_example :
  current (player first_playing_world) = Some (sample_track "A")
  /\ exists w1 w2,
       resume_past_wait 0 sample_env (skip first_playing_world) = Some w1
       /\ step_task 0 sample_env w1 = Some w2
       /\ current (player w2) = Some (sample_track "B")
       /\ queue (player w2) = []
       /\ playing (player w2) = true.
Proof.
  split; [reflexivity|].
  destruct (skip_stops_stream_and_moves_on first_playing_world)
    as (_ & _ & _ & _ & _ & H).
  destruct (H 0%nat 0%nat (Waiting 0) sample_env eq_refl eq_refl)
    as (w1 & Hr & _ & _ & _ & _ & Hnext).
  destruct (Hnext sample_env (sample_track "B") [] eq_refl eq_refl eq_refl
              eq_refl) as (w2 & Hs & Hcur & Hq & Hpl & _).
  exists w1, w2. repeat split; assumption.
Qed.

(** C6 (the code departs from the claim).  A [skip()] with nothing playing
    is not a harmless raise of the signal.  With [A] finished and the loop
    in its pacing sleep nothing is playing, and the skip changes the stop
    event and nothing else.  Without the skip, the next pass starts [B] and
    the loop stays blocked in its wait while [B] plays.  With it, the same
    pass starts [B] as well, but the wait is ready at once: the loop leaves
    [B] playing, takes [C], and ends with the refused [play].  No loop task
    is left, [B] was cut off from the loop without having been skipped, and
    [current] names a track that never played. *)
Theorem idle_skip_is_not_harmless :
  let w0 := between_tracks_world in
  let quiet := run [ERun 0%nat sample_env] w0 in
  let skipped := run [ESkip; ERun 0%nat sample_env] w0 in
  let later := run [ERun 0%nat sample_env; ERun 0%nat sample_env] skipped in
  (playing (player w0) = false
   /\ skip w0 = upd_player (set_stop_event true) w0)
  /\ (tasks quiet = [Waiting 1]
      /\ current (player quiet) = Some (sample_track "B")
      /\ playing (player quiet) = true
      /\ wait_ready 1 quiet = false
      /\ step_task 0 sample_env quiet = None)
  /\ (tasks skipped = [Waiting 1]
      /\ current (player skipped) = Some (sample_track "B")
      /\ playing (player skipped) = true
      /\ finished_events skipped !! 1%nat = Some false
      /\ wait_ready 1 skipped = true)
  /\ (tasks later = [Raised]
      /\ alive_loops later = 0%nat
      /\ current (player later) = Some (sample_track "C")
      /\ queue (player later) = []
      /\ playing (player later) = true).
Proof. vm_compute. repeat split. Qed.

(* ===================================================================== *)
(** ** The cancellation signal *)
(* ===================================================================== *)

(** The loop clears the signal when it comes out of a wait. *)
Lemma wait_resets_signal i fid env w w' :
  tasks w !! i = Some (Waiting fid) -> step_task i env w = Some w' ->
  _stop_event (player w') = false /\ tasks w' !! i = Some Pacing.
Proof.
  intros Hi. unfold step_task. rewrite Hi.
  destruct (wait_ready fid w); [|discriminate].
  intros H. injection H as <-. split; [reflexivity|].
  exact (lookup_set_task i Pacing _ _ Hi).
Qed.

(** [add] clears the signal whenever it starts a loop. *)
Lemma add_clears_signal t w :
  needs_loop w = true -> _stop_event (player (add t w)) = false.
Proof. intros H. rewrite add_unfold, H. reflexivity. Qed.

(** No other step of the loop writes the signal: a pass from the head of
    the loop keeps it as it finds it. *)
Lemma loop_head_keeps_signal i env w :
  _stop_event (player (loop_head i env w)) = _stop_event (player w).
Proof.
  unfold loop_head, loop_exit, attach.
  destruct (queue (player w)) as [|t rest].
  { destruct (_ && _); reflexivity. }
  destruct (channel_empty_excluding_self (player w)).
  { destruct (_ && _); reflexivity. }
  cbn [player upd_player voice set_started_at set_current set_queue].
  destruct (voice (player w)) as [vc|].
  - destruct (is_connected vc).
    + destruct (open_ok env); [|reflexivity].
      destruct (is_playing vc); [reflexivity|].
      cbn [announce_channel current set_started_at set_voice set_pcm player
           set_current set_queue].
      destruct (announce_channel (player w)); [|reflexivity].
      destruct (notice_builds t); reflexivity.
    + destruct (_ && _); reflexivity.
  - destruct (_ && _); reflexivity.
Qed.

(** C8 (the code departs from the claim).  With [A] finished and the loop in
    its 0.2 s pacing sleep ([current] is still [A], the signal was reset),
    a [skip()] finds nothing playing and only sets the stop event.  The
    loop's next pass takes [B], starts it and enters its wait with the
    event still set: the wait is ready at once although [B]'s [finished]
    event is unset and nothing was raised since [B] was taken.  The loop
    drops its reference to the source while the voice client is still
    playing [B], takes [C], and the refused [play] ends the task with
    [current] left at [C]. *)
Theorem stale_skip_cancels_next_track :
  let w0 := between_tracks_world in
  let w1 := run [ESkip] w0 in
  let w2 := run [ERun 0%nat sample_env] w1 in
  let w3 := run [ERun 0%nat sample_env] w2 in
  let w4 := run [ERun 0%nat sample_env] w3 in
  (tasks w0 = [Pacing] /\ _stop_event (player w0) = false
   /\ current (player w0) = Some (sample_track "A")
   /\ playing (player w0) = false)
  /\ (w1 = upd_player (set_stop_event true) w0)
  /\ (tasks w2 = [Waiting 1] /\ current (player w2) = Some (sample_track "B")
      /\ playing (player w2) = true /\ _stop_event (player w2) = true
      /\ finished_events w2 !! 1%nat = Some false
      /\ wait_ready 1 w2 = true)
  /\ (tasks w3 = [Pacing] /\ _pcm (player w3) = None
      /\ playing (player w3) = true
      /\ current (player w3) = Some (sample_track "B"))
  /\ (tasks w4 = [Raised] /\ current (player w4) = Some (sample_track "C")
      /\ queue (player w4) = []).
Proof. vm_compute. repeat split. Qed.

(** What the emptiness test of the exit code means when the player has a
    voice client in a channel and the bot's user is known: every member of
    the channel is the bot itself. *)
Lemma channel_empty_meaning p vc ch me :
  voice p = Some vc -> vc_channel vc = Some ch -> bot_user p = Some me ->
  channel_empty_excluding_self p = true <->
  (forall m, In m (members ch) -> m = me).
Proof.
  intros Hv Hch Hb.
  unfold channel_empty_excluding_self, others_in_channel_count.
  rewrite Hv, Hb, Hch. rewrite Nat.eqb_eq.
  induction (members ch) as [|a l IH]; cbn.
  - split; [intros _ m []|reflexivity].
  - destruct (a =? me) eqn:E; cbn.
    + apply Z.eqb_eq in E. rewrite IH. split.
      * intros H m [<-|Hm]; [exact E | now apply H].
      * intros H m Hm. apply H. now right.
    + apply Z.eqb_neq in E. split; [discriminate|].
      intros H. exfalso. apply E, H. now left.
Qed.

(** Where the round trip does work: at every percentage in [1 .. 200] that
    [int(volume * 100)] gives back, [mute()] then [unmute()] ends at the
    volume it started from. *)
Lemma mute_unmute_restores_unless_lossy (pct : Z) (w : World) :
  1 <= pct <= 200 ->
  trunc_recovers (Z.to_nat pct) = true ->
  volume (player w) = volume_of_percent pct ->
  option_map (fun o => volume (player o.1)) (unmute (mute w))
  = Some (volume (player w)).
Proof.
  intros Hr Hrec Hvol.
  assert (Hpos : Float64.gtb (volume_of_percent pct) Float64.zero = true)
    by (rewrite volume_positive_iff by lia; apply Z.ltb_lt; lia).
  unfold trunc_recovers in Hrec. rewrite Z2Nat.id in Hrec by lia.
  destruct (Float64.trunc _) as [m|] eqn:Htr; [|discriminate].
  apply Z.eqb_eq in Hrec. subst m.
  assert (Hlast : _last_nonzero_volume (player (mute w))
                  = volume_of_percent pct).
  { unfold mute. rewrite Hvol, Hpos.
    unfold set_volume_percent. cbn. now rewrite Hvol. }
  unfold unmute. rewrite Hlast, Hpos, Htr.
  cbn [option_map]. rewrite set_volume_percent_volume, Hvol. do 2 f_equal.
  unfold clamp. destruct (pct <? 0) eqn:E1; [apply Z.ltb_lt in E1; lia|].
  destruct (200 <? pct) eqn:E2; [apply Z.ltb_lt in E2; lia|]. reflexivity.
Qed.

(* ===================================================================== *)
(** ** The player registry *)
(* ===================================================================== *)

(** X1.  [get_player] creates a player at most once per guild: the player it
    returns is the one stored under the guild afterwards; a guild that
    already has a player gets that player back and the dictionary is not
    changed; a guild without one gets a fresh player; the entries of other
    guilds are never touched; and asking again returns the same player and
    the same dictionary. *)
Theorem get_player_creates_once
    (bot : option Z) (players : gmap Z GuildPlayer) (g : Z) :
  let out := get_player bot players g in
  out.1 !! g = Some out.2
  /\ (forall p, players !! g = Some p -> out = (players, p))
  /\ (players !! g = None ->
      out.2 = new_player bot g /\ out.1 = <[g := new_player bot g]> players)
  /\ (forall g', g' <> g -> out.1 !! g' = players !! g')
  /\ get_player bot out.1 g = out.
Proof.
  cbv zeta. split; [apply get_player_stored|].
  unfold get_player. destruct (players !! g) as [p|] eqn:E; cbn [fst snd].
  - split; [intros p' Hp'; congruence|].
    split; [discriminate|]. split; [reflexivity|]. now rewrite E.
  - split; [discriminate|]. split; [now split|].
    split; [intros g' Hne; now apply lookup_insert_ne|].
    now rewrite lookup_insert_eq.
Qed.

Lemma get_player_creates_once_witness :
  let players : gmap Z GuildPlayer :=
    {[ 42 := set_queue [sample_track "A"] (new_player (Some 7) 42) ]} in
  get_player (Some 7) players 42
  = (players, set_queue [sample_track "A"] (new_player (Some 7) 42))
  /\ (get_player (Some 7) players 43).2 = new_player (Some 7) 43
  /\ (get_player (Some 7) players 43).1 !! 42 = players !! 42.
Proof.
  intros players.
  pose proof (get_player_creates_once (Some 7) players 42) as H42.
  pose proof (get_player_creates_once (Some 7) players 43) as H43.
  cbv zeta in H42, H43.
  destruct H42 as (_ & Hsame & _).
  destruct H43 as (_ & _ & Hnew & Hother & _).
  split; [apply Hsame; reflexivity|].
  split; [apply Hnew; reflexivity|].
  apply Hother. discriminate.
Defined.

(* ===================================================================== *)
(** ** Playback order *)
(* ===================================================================== *)






(* ===================================================================== *)
(** ** Nothing is shown as playing once every loop has returned *)
(* ===================================================================== *)

Lemma voice_stop_playback w :
  current (player (voice_stop w)) = current (player w)
  /\ _started_at (player (voice_stop w)) = _started_at (player w)
  /\ _pcm (player (voice_stop w)) = _pcm (player w).
Proof.
  unfold voice_stop. destruct (voice (player w)) as [vc|]; [|tauto].
  destruct (vc_player vc); cbn; tauto.
Qed.

Lemma set_volume_percent_playback n w :
  current (player (set_volume_percent n w).1) = current (player w)
  /\ _started_at (player (set_volume_percent n w).1) = _started_at (player w)
  /\ _pcm (player (set_volume_percent n w).1) = _pcm (player w).
Proof.
  unfold set_volume_percent. cbn [fst player].
  destruct (Float64.gtb _ _); repeat split.
Qed.

Lemma skip_playback w :
  current (player (skip w)) = current (player w)
  /\ _started_at (player (skip w)) = _started_at (player w)
  /\ _pcm (player (skip w)) = _pcm (player w).
Proof.
  unfold skip. destruct (playing (player w)); cbn; [|tauto].
  apply voice_stop_playback.
Qed.

(** Only a loop step writes [current], [_started_at] and [_pcm]. *)
Lemma playback_fields_frame e w :
  match e with ERun _ _ => False | _ => True end ->
  current (player (apply_event e w)) = current (player w)
  /\ _started_at (player (apply_event e w)) = _started_at (player w)
  /\ _pcm (player (apply_event e w)) = _pcm (player w).
Proof.
  destruct e as [t| | | |index|rnd|percent| | | | |ch|ch|ms| |i env];
    cbn [apply_event]; intros H; try contradiction;
    try (repeat split; reflexivity).
  - rewrite add_unfold. destruct (needs_loop w); repeat split.
  - apply skip_playback.
  - unfold stop. destruct (skip_playback (upd_player clear_queue w))
      as (-> & -> & ->). repeat split.
  - rewrite player_upd. unfold remove. break_match; repeat split.
  - rewrite player_upd. unfold shuffle. break_match; repeat split.
  - apply set_volume_percent_playback.
  - unfold mute.
    destruct (set_volume_percent_playback 0
      (if Float64.gtb (volume (player w)) Float64.zero
       then upd_player (fun p => set_last_nonzero_volume (volume p) p) w
       else w)) as (-> & -> & ->).
    destruct (Float64.gtb _ _); repeat split.
  - unfold unmute. destruct (Float64.trunc _); [|repeat split].
    apply set_volume_percent_playback.
  - rewrite player_upd. unfold pause. break_match; repeat split.
  - rewrite player_upd. unfold resume. break_match; repeat split.
  - rewrite player_upd. unfold set_members. break_match; repeat split.
  - unfold stream_end. destruct (playing (player w)); [|repeat split].
    apply voice_stop_playback.
Qed.

(** After a loop step the playback fields are cleared or the task that ran
    has not returned. *)
Lemma loop_exit_cleared_or_pending i w pc :
  tasks w !! i = Some pc ->
  playback_cleared (player (loop_exit i w))
  \/ exists pc', tasks (loop_exit i w) !! i = Some pc' /\ pc' <> Done.
Proof.
  intros Hi. unfold loop_exit. destruct (_ && _).
  - right. exists Disconnecting.
    split; [exact (lookup_set_task i _ w pc Hi) | discriminate].
  - left. apply finish_loop_cleared.
Qed.

Lemma attach_pending i env t vc w pc :
  tasks w !! i = Some pc ->
  exists pc', tasks (attach i env t vc w) !! i = Some pc' /\ pc' <> Done.
Proof.
  intros Hi.
  assert (Hlt : (i < length (tasks w))%nat) by now apply lookup_lt_Some in Hi.
  unfold attach. destruct (is_playing vc).
  - exists Raised. split; [cbn; now apply list_lookup_insert_eq|discriminate].
  - cbn [announce_channel current set_started_at set_voice set_pcm player].
    destruct (announce_channel (player w));
      [destruct (current (player w)) as [c|]; [destruct (notice_builds c)|]|];
      eexists; (split; [cbn; now apply list_lookup_insert_eq|discriminate]).
Qed.

Lemma loop_head_cleared_or_pending i env w pc :
  tasks w !! i = Some pc ->
  playback_cleared (player (loop_head i env w))
  \/ exists pc', tasks (loop_head i env w) !! i = Some pc' /\ pc' <> Done.
Proof.
  intros Hi. unfold loop_head.
  destruct (queue (player w)) as [|t rest].
  { now apply (loop_exit_cleared_or_pending i w pc). }
  destruct (channel_empty_excluding_self (player w)).
  { now apply (loop_exit_cleared_or_pending i w pc). }
  set (w1 := upd_player _ w).
  assert (Hi1 : tasks w1 !! i = Some pc) by exact Hi.
  destruct (voice (player w1)) as [vc|];
    [|now apply (loop_exit_cleared_or_pending i w1 pc)].
  destruct (is_connected vc);
    [|now apply (loop_exit_cleared_or_pending i w1 pc)].
  right. destruct (open_ok env).
  - now apply (attach_pending i env t vc w1 pc).
  - exists Yielded. split; [|discriminate].
    exact (lookup_set_task i Yielded _ pc Hi1).
Qed.

Lemma step_task_cleared_or_pending i env w w' :
  step_task i env w = Some w' ->
  playback_cleared (player w')
  \/ exists pc', tasks w' !! i = Some pc' /\ pc' <> Done.
Proof.
  unfold step_task. intros H.
  destruct (tasks w !! i) as [pc|] eqn:Hi; [|discriminate].
  destruct pc; try discriminate; try (injection H as <-);
    try (now apply (loop_head_cleared_or_pending i env w _ Hi)).
  - right. eexists. split; [exact (lookup_set_task i _ w _ Hi)|discriminate].
  - destruct (wait_ready finished w); [|discriminate].
    injection H as <-. right. eexists.
    split; [exact (lookup_set_task i _ _ _ Hi)|discriminate].
  - destruct (disconnect_ok env); injection H as <-.
    + left. apply finish_loop_cleared.
    + right. exists Raised.
      split; [exact (lookup_set_task i _ _ _ Hi)|discriminate].
Qed.

Lemma cleared_or_pending_step e w :
  playback_cleared (player w) \/ some_not_returned w ->
  playback_cleared (player (apply_event e w))
  \/ some_not_returned (apply_event e w).
Proof.
  intros Hinv.
  destruct e as [t| | | |index|rnd|percent| | | | |ch|ch|ms| |i env];
    try (match goal with
         | |- playback_cleared (player (apply_event ?e w)) \/ _ =>
             destruct (playback_fields_frame e w I) as (Hc & Hs & Hp);
             destruct (other_events_keep_tasks e w I) as [Ht _]
         end;
         destruct Hinv as [(H1 & H2 & H3)|(j & pc & Hj & Hne)];
         [left; unfold playback_cleared; rewrite Hc, Hs, Hp; now repeat split
         |right; exists j, pc; now rewrite Ht]).
  - destruct (playback_fields_frame (EAdd t) w I) as (Hc & Hs & Hp).
    destruct Hinv as [(H1 & H2 & H3)|(j & pc & Hj & Hne)].
    + left. unfold playback_cleared. rewrite Hc, Hs, Hp. now repeat split.
    + right. exists j, pc. split; [|exact Hne].
      cbn [apply_event]. rewrite add_unfold.
      destruct (needs_loop w); [|exact Hj].
      cbn [tasks]. rewrite lookup_app_l; [exact Hj|].
      now apply lookup_lt_Some in Hj.
  - cbn [apply_event]. destruct (step_task i env w) as [w'|] eqn:Hs;
      [|exact Hinv].
    destruct (step_task_cleared_or_pending _ _ _ _ Hs) as [Hc|(pc' & Hi & Hne)];
      [now left|right; now exists i, pc'].
Qed.

Lemma cleared_or_pending_run evs w :
  playback_cleared (player w) \/ some_not_returned w ->
  playback_cleared (player (run evs w)) \/ some_not_returned (run evs w).
Proof.
  revert w. induction evs as [|e evs IH]; intros w Hinv; [exact Hinv|].
  rewrite run_cons. apply IH, cleared_or_pending_step, Hinv.
Qed.

(** X3.  After any schedule on a fresh player, if every loop task created so
    far has returned normally (also when none was created), then [current],
    [_started_at] and [_pcm] are all [None].  That the tasks have returned
    normally is needed: a task ended by an exception leaves the fields as
    they were, so a track can be shown as current with no loop task left
    (the second part is such a run). *)
Theorem idle_player_shows_nothing
    (evs : list Event) (bot : option Z) (g : Z) :
  (all_returned (run evs (new_world bot g)) = true ->
   playback_cleared (player (run evs (new_world bot g))))
  /\ (let w := run [ERun 0%nat sample_env] overrun_world in
      alive_loops w = 0%nat
      /\ all_returned w = false
      /\ current (player w) = Some (sample_track "C")).
Proof.
  split; [|vm_compute; repeat split].
  intros Hall.
  destruct (cleared_or_pending_run evs (new_world bot g))
    as [Hc|(j & pc & Hj & Hne)].
  - left. repeat split.
  - exact Hc.
  - exfalso. unfold all_returned in Hall.
    pose proof (proj1 (forallb_forall _ _) Hall pc) as Hpc.
    assert (Hin : In pc (tasks (run evs (new_world bot g)))).
    { apply list_elem_of_In. eapply list_elem_of_lookup_2, Hj. }
    specialize (Hpc Hin). destruct pc; congruence.
Qed.

Lemma idle_player_shows_nothing_witness :
  let evs := [EConnect sample_channel; EAdd (sample_track "A");
              ERun 0%nat sample_env; EStreamEnd; ERun 0%nat sample_env;
              ERun 0%nat sample_env] in
  tasks (run evs sample_world) = [Done]
  /\ playback_cleared (player (run evs sample_world)).
Proof.
  intros evs. split; [reflexivity|].
  exact (proj1 (idle_player_shows_nothing evs (Some 7) 42) eq_refl).
Defined.

(* ===================================================================== *)
(** ** Volume stays a whole percentage *)
(* ===================================================================== *)

Lemma within_float_range_all : forallb within_float_range (seq 0 201) = true.
Proof. vm_compute. reflexivity. Qed.

Lemma round_recovers_all : forallb round_recovers (seq 0 201) = true.
Proof. vm_compute. reflexivity. Qed.

Lemma trunc_is_near_all : forallb trunc_is_near (seq 0 201) = true.
Proof. vm_compute. reflexivity. Qed.

Lemma percent_check (f : nat -> bool) pct :
  forallb f (seq 0 201) = true -> 0 <= pct <= 200 -> f (Z.to_nat pct) = true.
Proof.
  intros Hall Hr. apply (proj1 (forallb_forall _ _) Hall), in_seq. lia.
Qed.

Lemma volume_percent_of_percent p pct :
  0 <= pct <= 200 -> volume p = volume_of_percent pct ->
  volume_percent p = Some pct.
Proof.
  intros Hr Hv. unfold volume_percent. rewrite Hv.
  pose proof (percent_check _ pct round_recovers_all Hr) as H.
  unfold round_recovers in H. rewrite Z2Nat.id in H by lia.
  destruct (Float64.round_half_even _) as [m|]; [|discriminate].
  f_equal. now apply Z.eqb_eq.
Qed.

Lemma one_is_hundred_percent : Float64.one = volume_of_percent 100.
Proof. vm_compute. reflexivity. Qed.

Lemma clamp_range x : 0 <= clamp x 0 200 <= 200.
Proof. rewrite clamp_0_200. lia. Qed.

Lemma set_volume_percent_last n w :
  _last_nonzero_volume (player (set_volume_percent n w).1)
  = if 0 <? clamp n 0 200 then volume_of_percent (clamp n 0 200)
    else _last_nonzero_volume (player w).
Proof.
  unfold set_volume_percent. cbn [fst player volume set_volume].
  fold (volume_of_percent (clamp n 0 200)).
  rewrite (volume_positive_iff _ (clamp_range n)).
  destruct (0 <? clamp n 0 200); reflexivity.
Qed.

Lemma volumes_are_percents_set n w :
  volumes_are_percents w -> volumes_are_percents (set_volume_percent n w).1.
Proof.
  intros [_ Hlast]. split.
  - exists (clamp n 0 200). split; [apply clamp_range|].
    apply set_volume_percent_volume.
  - rewrite set_volume_percent_last.
    destruct (0 <? clamp n 0 200) eqn:E; [|exact Hlast].
    exists (clamp n 0 200). apply Z.ltb_lt in E.
    pose proof (clamp_range n). split; [lia|reflexivity].
Qed.

Lemma volumes_are_percents_mute w :
  volumes_are_percents w -> volumes_are_percents (mute w).
Proof.
  intros [Hv Hlast]. unfold mute. apply volumes_are_percents_set.
  destruct (Float64.gtb (volume (player w)) Float64.zero) eqn:E;
    [|now split].
  split; [exact Hv|]. cbn. destruct Hv as (pct & Hr & Hpct).
  exists pct. split; [|exact Hpct].
  rewrite Hpct, (volume_positive_iff _ Hr) in E. apply Z.ltb_lt in E. lia.
Qed.

Lemma volumes_are_percents_unmute w w' n :
  volumes_are_percents w -> unmute w = Some (w', n) ->
  volumes_are_percents w'.
Proof.
  intros Hinv. unfold unmute.
  destruct (Float64.trunc _) as [m|]; [|discriminate].
  intros H. injection H as <- _.
  exact (volumes_are_percents_set m w Hinv).
Qed.

(** The loop never writes the two volume fields. *)
Lemma loop_exit_volume i w :
  volume (player (loop_exit i w)) = volume (player w)
  /\ _last_nonzero_volume (player (loop_exit i w))
     = _last_nonzero_volume (player w).
Proof. unfold loop_exit. destruct (_ && _); split; reflexivity. Qed.

Lemma attach_volume i env t vc w :
  volume (player (attach i env t vc w)) = volume (player w)
  /\ _last_nonzero_volume (player (attach i env t vc w))
     = _last_nonzero_volume (player w).
Proof.
  unfold attach. destruct (is_playing vc); [split; reflexivity|].
  cbn [announce_channel current set_started_at set_voice set_pcm player].
  destruct (announce_channel (player w));
      [destruct (current (player w)) as [c|]; [destruct (notice_builds c)|]|];
    split; reflexivity.
Qed.

Lemma loop_head_volume i env w :
  volume (player (loop_head i env w)) = volume (player w)
  /\ _last_nonzero_volume (player (loop_head i env w))
     = _last_nonzero_volume (player w).
Proof.
  unfold loop_head. destruct (queue (player w)) as [|t rest].
  { apply loop_exit_volume. }
  destruct (channel_empty_excluding_self (player w)).
  { apply loop_exit_volume. }
  set (w1 := upd_player _ w).
  change (volume (player w)) with (volume (player w1)).
  change (_last_nonzero_volume (player w))
    with (_last_nonzero_volume (player w1)).
  destruct (voice (player w1)) as [vc|]; [|apply loop_exit_volume].
  destruct (is_connected vc); [|apply loop_exit_volume].
  destruct (open_ok env); [apply attach_volume|split; reflexivity].
Qed.

Lemma voice_stop_volume w :
  volume (player (voice_stop w)) = volume (player w)
  /\ _last_nonzero_volume (player (voice_stop w))
     = _last_nonzero_volume (player w)
  /\ pcms (voice_stop w) = pcms w.
Proof.
  unfold voice_stop. destruct (voice (player w)) as [vc|]; [|tauto].
  destruct (vc_player vc); cbn; tauto.
Qed.

Lemma voice_disconnect_volume w :
  volume (player (voice_disconnect w)) = volume (player w)
  /\ _last_nonzero_volume (player (voice_disconnect w))
     = _last_nonzero_volume (player w)
  /\ pcms (voice_disconnect w) = pcms w.
Proof.
  unfold voice_disconnect.
  destruct (voice (player (voice_stop w))); cbn; apply voice_stop_volume.
Qed.

Lemma step_task_volume i env w w' :
  step_task i env w = Some w' ->
  volume (player w') = volume (player w)
  /\ _last_nonzero_volume (player w') = _last_nonzero_volume (player w).
Proof.
  unfold step_task. intros H.
  destruct (tasks w !! i) as [pc|]; [|discriminate].
  destruct pc; try discriminate; try (injection H as <-);
    try apply loop_head_volume; try (split; reflexivity).
  - destruct (wait_ready finished w); [|discriminate].
    injection H as <-. split; reflexivity.
  - destruct (disconnect_ok env); injection H as <-; [|split; reflexivity].
    cbn. destruct (voice_disconnect_volume w) as (Hv & Hl & _). now split.
Qed.

(** Apart from the volume commands, no event writes the volume fields. *)
Lemma volume_frame e w :
  match e with ESetVolume _ | EMute | EUnmute => False | _ => True end ->
  volume (player (apply_event e w)) = volume (player w)
  /\ _last_nonzero_volume (player (apply_event e w))
     = _last_nonzero_volume (player w).
Proof.
  destruct e as [t| | | |index|rnd|percent| | | | |ch|ch|ms| |i env];
    cbn [apply_event]; intros H; try contradiction;
    try (split; reflexivity).
  - rewrite add_unfold. destruct (needs_loop w); split; reflexivity.
  - unfold skip. destruct (playing (player w)); cbn; [|tauto].
    destruct (voice_stop_volume w) as (Hv & Hl & _). now split.
  - unfold stop, skip. destruct (playing _); cbn; [|tauto].
    destruct (voice_stop_volume (upd_player clear_queue w)) as (Hv & Hl & _).
    now split.
  - rewrite player_upd. unfold remove. break_match; split; reflexivity.
  - rewrite player_upd. unfold shuffle. break_match; split; reflexivity.
  - rewrite player_upd. unfold pause. break_match; split; reflexivity.
  - rewrite player_upd. unfold resume. break_match; split; reflexivity.
  - rewrite player_upd. unfold set_members. break_match; split; reflexivity.
  - unfold stream_end. destruct (playing (player w)); [|tauto].
    destruct (voice_stop_volume w) as (Hv & Hl & _). now split.
  - destruct (step_task i env w) as [w'|] eqn:Hs; [|tauto].
    exact (step_task_volume _ _ _ _ Hs).
Qed.

Lemma volumes_are_percents_step e w :
  volumes_are_percents w -> volumes_are_percents (apply_event e w).
Proof.
  intros Hinv.
  destruct e as [t| | | |index|rnd|percent| | | | |ch|ch|ms| |i env];
    try (match goal with
         | |- volumes_are_percents (apply_event ?e w) =>
             destruct (volume_frame e w I) as [Hv Hl]
         end;
         unfold volumes_are_percents; rewrite Hv, Hl; exact Hinv).
  - now apply volumes_are_percents_set.
  - now apply volumes_are_percents_mute.
  - cbn [apply_event]. destruct (unmute w) as [[w' n]|] eqn:Hu; [|exact Hinv].
    exact (volumes_are_percents_unmute w w' n Hinv Hu).
Qed.

Lemma volumes_are_percents_run evs w :
  volumes_are_percents w -> volumes_are_percents (run evs w).
Proof.
  revert w. induction evs as [|e evs IH]; intros w Hinv; [exact Hinv|].
  rewrite run_cons. apply IH, volumes_are_percents_step, Hinv.
Qed.

Lemma volumes_are_percents_new bot g :
  volumes_are_percents (new_world bot g).
Proof.
  split; exists 100; (split; [lia|apply one_is_hundred_percent]).
Qed.

(** X4.  After any schedule on a fresh player the stored volume is the float
    [pct / 100.0] of a whole percentage [pct] in [0 .. 200], so it lies
    between 0.0 and 2.0, and the remembered last non-zero volume is that of
    a percentage in [1 .. 200], so it is strictly positive: no command
    sequence (set, bump, mute, unmute, in any order, with any arguments)
    gets the volume out of range or makes the remembered volume zero. *)
Theorem volume_is_always_a_percentage
    (evs : list Event) (bot : option Z) (g : Z) :
  let p := player (run evs (new_world bot g)) in
  (exists pct, 0 <= pct <= 200 /\ volume p = volume_of_percent pct
               /\ volume_percent p = Some pct)
  /\ (exists pct, 1 <= pct <= 200
                  /\ _last_nonzero_volume p = volume_of_percent pct)
  /\ SFleb Float64.zero (volume p) = true
  /\ SFleb (volume p) (Float64.of_Z 2) = true
  /\ Float64.gtb (_last_nonzero_volume p) Float64.zero = true.
Proof.
  intros p.
  destruct (volumes_are_percents_run evs _ (volumes_are_percents_new bot g))
    as [(pct & Hr & Hv) (lst & Hlr & Hl)].
  fold p in Hv, Hl.
  pose proof (percent_check _ pct within_float_range_all Hr) as Hw.
  unfold within_float_range in Hw. rewrite Z2Nat.id in Hw by lia.
  apply andb_prop in Hw as [Hlo Hhi].
  split; [exists pct; repeat split; try lia; try exact Hv;
          now apply volume_percent_of_percent|].
  split; [now exists lst|].
  rewrite Hv, Hl. repeat split; try assumption.
  rewrite volume_positive_iff by lia. apply Z.ltb_lt. lia.
Qed.

(* ===================================================================== *)
(** ** The attached source carries the player's volume *)
(* ===================================================================== *)

Lemma pcm_follows_volume_ext w w' :
  _pcm (player w') = _pcm (player w) -> pcms w' = pcms w ->
  volume (player w') = volume (player w) ->
  pcm_follows_volume w -> pcm_follows_volume w'.
Proof.
  intros Hp Hs Hv Hinv s. rewrite Hp, Hs, Hv. apply Hinv.
Qed.

Lemma pcm_follows_volume_none w :
  _pcm (player w) = None -> pcm_follows_volume w.
Proof. intros H s Hs. congruence. Qed.

Lemma pcm_follows_volume_set n w :
  pcm_follows_volume w -> pcm_follows_volume (set_volume_percent n w).1.
Proof.
  intros Hinv s Hs.
  rewrite (proj2 (proj2 (set_volume_percent_playback n w))) in Hs.
  destruct (Hinv s Hs) as (src & Hsrc & _).
  exists (set_pcm_volume (volume (player (set_volume_percent n w).1)) src).
  split; [|reflexivity].
  unfold set_volume_percent at 1. cbn [fst pcms].
  assert (Hp : forall q, _pcm (if Float64.gtb (volume q) Float64.zero
                               then set_last_nonzero_volume (volume q) q
                               else q) = _pcm q)
    by (intros q; destruct (Float64.gtb _ _); reflexivity).
  rewrite Hp. cbn [_pcm set_volume]. rewrite Hs.
  rewrite list_lookup_alter_eq, Hsrc. cbn [fmap option_fmap option_map].
  do 2 f_equal; unfold set_volume_percent; cbn [fst player];
    destruct (Float64.gtb _ _); reflexivity.
Qed.

Lemma pcm_follows_volume_mute w :
  pcm_follows_volume w -> pcm_follows_volume (mute w).
Proof.
  intros Hinv. unfold mute. apply pcm_follows_volume_set.
  destruct (Float64.gtb _ _); [|exact Hinv].
  now apply (pcm_follows_volume_ext w).
Qed.

Lemma pcm_follows_volume_loop_exit i w :
  pcm_follows_volume w -> pcm_follows_volume (loop_exit i w).
Proof.
  intros Hinv. unfold loop_exit. destruct (_ && _).
  - now apply (pcm_follows_volume_ext w).
  - now apply pcm_follows_volume_none.
Qed.

Lemma pcm_follows_volume_attach i env t vc w :
  pcm_follows_volume (attach i env t vc w).
Proof.
  assert (Hnew : (pcms w ++ [{| pcm_url := url t;
                                pcm_volume := volume (player w) |}])
                 !! length (pcms w)
                 = Some {| pcm_url := url t;
                           pcm_volume := volume (player w) |}).
  { rewrite lookup_app_r by lia. now rewrite Nat.sub_diag. }
  unfold attach. destruct (is_playing vc).
  - intros s Hs. cbn in Hs. injection Hs as <-. cbn.
    eexists. split; [exact Hnew|reflexivity].
  - cbn [announce_channel current set_started_at set_voice set_pcm player].
    destruct (announce_channel (player w));
      [destruct (current (player w)) as [c|]; [destruct (notice_builds c)|]|];
      intros s Hs; cbn in Hs; injection Hs as <-; cbn;
      (eexists; split; [exact Hnew|reflexivity]).
Qed.

Lemma pcm_follows_volume_loop_head i env w :
  pcm_follows_volume w -> pcm_follows_volume (loop_head i env w).
Proof.
  intros Hinv. unfold loop_head. destruct (queue (player w)) as [|t rest].
  { now apply pcm_follows_volume_loop_exit. }
  destruct (channel_empty_excluding_self (player w)).
  { now apply pcm_follows_volume_loop_exit. }
  set (w1 := upd_player _ w).
  assert (Hinv1 : pcm_follows_volume w1)
    by now apply (pcm_follows_volume_ext w).
  destruct (voice (player w1)) as [vc|];
    [|now apply pcm_follows_volume_loop_exit].
  destruct (is_connected vc); [|now apply pcm_follows_volume_loop_exit].
  destruct (open_ok env); [apply pcm_follows_volume_attach|].
  now apply (pcm_follows_volume_ext w1).
Qed.

Lemma pcm_follows_volume_task i env w w' :
  pcm_follows_volume w -> step_task i env w = Some w' ->
  pcm_follows_volume w'.
Proof.
  intros Hinv. unfold step_task.
  destruct (tasks w !! i) as [pc|]; [|discriminate].
  destruct pc; try discriminate; intros H; try (injection H as <-);
    try (now apply pcm_follows_volume_loop_head).
  - now apply (pcm_follows_volume_ext w).
  - destruct (wait_ready finished w); [|discriminate].
    injection H as <-. now apply pcm_follows_volume_none.
  - destruct (disconnect_ok env); injection H as <-;
      [now apply pcm_follows_volume_none
      |now apply (pcm_follows_volume_ext w)].
Qed.

(** Apart from the volume commands and the loop, nothing touches the store
    of sources. *)
Lemma pcms_frame e w :
  match e with
  | ESetVolume _ | EMute | EUnmute | ERun _ _ => False
  | _ => True
  end ->
  pcms (apply_event e w) = pcms w.
Proof.
  destruct e as [t| | | |index|rnd|percent| | | | |ch|ch|ms| |i env];
    cbn [apply_event]; intros H; try contradiction; try reflexivity.
  - rewrite add_unfold. destruct (needs_loop w); reflexivity.
  - unfold skip. destruct (playing (player w)); cbn; [|reflexivity].
    apply voice_stop_volume.
  - unfold stop, skip. destruct (playing _); cbn; [|reflexivity].
    apply (voice_stop_volume (upd_player clear_queue w)).
  - unfold stream_end. destruct (playing (player w)); [|reflexivity].
    apply voice_stop_volume.
Qed.

Lemma pcm_follows_volume_step e w :
  pcm_follows_volume w -> pcm_follows_volume (apply_event e w).
Proof.
  intros Hinv.
  destruct e as [t| | | |index|rnd|percent| | | | |ch|ch|ms| |i env];
    try (match goal with
         | |- pcm_follows_volume (apply_event ?e w) =>
             apply (pcm_follows_volume_ext w);
             [apply (playback_fields_frame e w I)
             |apply (pcms_frame e w I)
             |apply (volume_frame e w I)
             |exact Hinv]
         end).
  - now apply pcm_follows_volume_set.
  - now apply pcm_follows_volume_mute.
  - cbn [apply_event]. unfold unmute.
    destruct (Float64.trunc _); [|exact Hinv].
    now apply pcm_follows_volume_set.
  - cbn [apply_event]. destruct (step_task i env w) as [w'|] eqn:Hs;
      [|exact Hinv].
    exact (pcm_follows_volume_task _ _ _ _ Hinv Hs).
Qed.

Lemma pcm_follows_volume_run evs w :
  pcm_follows_volume w -> pcm_follows_volume (run evs w).
Proof.
  revert w. induction evs as [|e evs IH]; intros w Hinv; [exact Hinv|].
  rewrite run_cons. apply IH, pcm_follows_volume_step, Hinv.
Qed.

(** X5.  After any schedule on a fresh player, whenever [_pcm] refers to a
    source, that source is in the store and its volume is the player's
    current volume: the loop creates each source with [self.volume], and
    every later volume change (set, bump, mute, unmute) reaches it, however
    the commands are interleaved with the loop. *)
Theorem attached_source_has_player_volume
    (evs : list Event) (bot : option Z) (g : Z) (s : nat) :
  let w := run evs (new_world bot g) in
  _pcm (player w) = Some s ->
  exists src, pcms w !! s = Some src /\ pcm_volume src = volume (player w).
Proof.
  intros w. apply (pcm_follows_volume_run evs (new_world bot g)).
  now apply pcm_follows_volume_none.
Qed.

Lemma attached_source_has_player_volume_witness :
  let w := run [EConnect sample_channel; EAdd (sample_track "A");
                ERun 0%nat sample_env; ESetVolume 57; EMute; EUnmute]
               sample_world in
  exists src, pcms w !! 0%nat = Some src
              /\ pcm_volume src = volume_of_percent 56
              /\ volume (player w) = volume_of_percent 56.
Proof.
  intros w.
  destruct (attached_source_has_player_volume
              [EConnect sample_channel; EAdd (sample_track "A");
               ERun 0%nat sample_env; ESetVolume 57; EMute; EUnmute]
              (Some 7) 42 0%nat eq_refl) as (src & Hsrc & Hvol).
  exists src. split; [exact Hsrc|].
  split; [rewrite Hvol|]; vm_compute; reflexivity.
Defined.

(* ===================================================================== *)
(** ** The volume buttons *)
(* ===================================================================== *)

Lemma clamp_id x : 0 <= x <= 200 -> clamp x 0 200 = x.
Proof. intros H. rewrite clamp_0_200. lia. Qed.

(** X6.  The volume buttons move in whole steps and saturate.  After any
    schedule on a fresh player the volume is some whole percentage [pct];
    bumping by [delta] (the -10 % / +10 % buttons of the volume view, the
    quieter / louder buttons of the queue view) never fails, returns
    [max 0 (min (pct + delta) 200)] and stores exactly that percentage: the
    float round trip through [volume_percent()] loses nothing.  So +10 then
    -10 comes back to [pct] when [pct <= 190], and at 200 the +10 button
    changes nothing. *)
Theorem bump_adds_delta_and_saturates
    (evs : list Event) (bot : option Z) (g : Z) (delta : Z) :
  let w := run evs (new_world bot g) in
  exists pct,
    0 <= pct <= 200
    /\ volume (player w) = volume_of_percent pct
    /\ bump delta w = Some (set_volume_percent (pct + delta) w)
    /\ (set_volume_percent (pct + delta) w).2 = Z.max 0 (Z.min (pct + delta) 200)
    /\ volume (player (set_volume_percent (pct + delta) w).1)
       = volume_of_percent (Z.max 0 (Z.min (pct + delta) 200))
    /\ volume_percent (player (set_volume_percent (pct + delta) w).1)
       = Some (Z.max 0 (Z.min (pct + delta) 200)).
Proof.
  intros w.
  destruct (volumes_are_percents_run evs _ (volumes_are_percents_new bot g))
    as [(pct & Hr & Hv) _].
  fold w in Hv. exists pct.
  split; [exact Hr|]. split; [exact Hv|].
  split; [unfold bump; now rewrite (volume_percent_of_percent _ pct Hr Hv)|].
  rewrite <- clamp_0_200.
  split; [reflexivity|].
  split; [apply set_volume_percent_volume|].
  apply volume_percent_of_percent;
    [apply clamp_range | apply set_volume_percent_volume].
Qed.

(** X7.  The mute button always flips between silent and audible.  After any
    schedule on a fresh player, [mute_unmute] never fails; if the volume was
    positive it becomes 0, and if it was 0 it becomes positive: the restored
    percentage is the remembered one or one less, and at least 1. *)
Theorem mute_button_always_toggles
    (evs : list Event) (bot : option Z) (g : Z) :
  let w := run evs (new_world bot g) in
  exists w' lst,
    mute_unmute w = Some w'
    /\ 1 <= lst <= 200
    /\ _last_nonzero_volume (player w) = volume_of_percent lst
    /\ Float64.gtb (volume (player w')) Float64.zero
       = negb (Float64.gtb (volume (player w)) Float64.zero)
    /\ (volume (player w) = volume_of_percent 0 ->
        volume (player w') = volume_of_percent lst
        \/ volume (player w') = volume_of_percent (lst - 1)).
Proof.
  intros w.
  destruct (volumes_are_percents_run evs _ (volumes_are_percents_new bot g))
    as [(pct & Hr & Hv) (lst & Hlr & Hl)].
  fold w in Hv, Hl.
  unfold mute_unmute. rewrite (volume_percent_of_percent _ pct Hr Hv).
  destruct (pct =? 0) eqn:E.
  - apply Z.eqb_eq in E. subst pct.
    assert (Hlpos : Float64.gtb (volume_of_percent lst) Float64.zero = true)
      by (rewrite volume_positive_iff by lia; apply Z.ltb_lt; lia).
    pose proof (percent_check _ lst trunc_is_near_all ltac:(lia)) as Hn.
    unfold trunc_is_near in Hn. rewrite Z2Nat.id in Hn by lia.
    unfold unmute. rewrite Hl, Hlpos.
    destruct (Float64.trunc _) as [m|]; [|discriminate].
    apply andb_prop in Hn as [Hnear Hone].
    assert (Hm : (m = lst \/ m = lst - 1) /\ 1 <= m).
    { apply orb_prop in Hnear. apply orb_prop in Hone. split.
      - destruct Hnear as [H|H]; apply Z.eqb_eq in H; tauto.
      - destruct Hone as [H|H]; [apply Z.ltb_lt in H|apply Z.leb_le in H];
          lia. }
    destruct Hm as [Hm Hm1].
    exists (set_volume_percent m w).1, lst. cbn [option_map].
    split; [reflexivity|]. split; [exact Hlr|]. split; [reflexivity|].
    rewrite set_volume_percent_volume, clamp_id by lia.
    split.
    + rewrite Hv, !volume_positive_iff by lia. cbn.
      apply Z.ltb_lt. lia.
    + intros _. destruct Hm as [->| ->]; tauto.
  - apply Z.eqb_neq in E.
    exists (mute w), lst.
    split; [reflexivity|]. split; [exact Hlr|]. split; [exact Hl|].
    assert (Hmv : volume (player (mute w)) = volume_of_percent 0)
      by (unfold mute; now rewrite set_volume_percent_volume).
    split.
    + rewrite Hmv, Hv, !volume_positive_iff by lia.
      cbn. symmetry. apply negb_false_iff, Z.ltb_lt. lia.
    + intros H0. exfalso. rewrite Hv in H0.
      assert (Hg : Float64.gtb (volume_of_percent pct) Float64.zero = true)
        by (rewrite volume_positive_iff by lia; apply Z.ltb_lt; lia).
      rewrite H0 in Hg. discriminate Hg.
Qed.

Lemma mute_button_always_toggles_witness :
  exists w' lst,
    mute_unmute (run [ESetVolume 57; EMute] (new_world None 0)) = Some w'
    /\ 1 <= lst <= 200
    /\ (volume (player w') = volume_of_percent lst
        \/ volume (player w') = volume_of_percent (lst - 1)).
Proof.
  destruct (mute_button_always_toggles [ESetVolume 57; EMute] None 0)
    as (w' & lst & Hm & Hr & _ & _ & Hz).
  exists w', lst. split; [exact Hm|]. split; [exact Hr|].
  apply Hz. vm_compute. reflexivity.
Defined.

(* ===================================================================== *)
(** ** Pause and resume *)
(* ===================================================================== *)

Lemma pause_playing p :
  playing p = true ->
  exists vc a,
    voice p = Some vc /\ vc_player vc = Some a /\ ap_paused a = false /\
    pause p = (set_voice (Some (with_paused true vc)) p, true).
Proof.
  unfold playing, pause, is_playing.
  destruct (voice p) as [vc|]; [|discriminate].
  destruct (vc_player vc) as [a|] eqn:Ha; [|discriminate].
  intros Hp. exists vc, a. rewrite Hp.
  repeat split; [exact Ha | now apply negb_true_iff].
Qed.

Lemma resume_paused p :
  paused p = true ->
  exists vc a,
    voice p = Some vc /\ vc_player vc = Some a /\ ap_paused a = true /\
    resume p = (set_voice (Some (with_paused false vc)) p, true).
Proof.
  unfold paused, resume, is_paused.
  destruct (voice p) as [vc|]; [|discriminate].
  destruct (vc_player vc) as [a|] eqn:Ha; [|discriminate].
  intros Hp. exists vc, a. rewrite Hp. repeat split; assumption.
Qed.

Lemma resume_after_pause p :
  playing p = true ->
  paused (pause p).1 = true /\ playing (pause p).1 = false
  /\ resume (pause p).1 = (p, true).
Proof.
  unfold playing, paused, pause, resume, is_playing, is_paused, with_paused,
    with_audio.
  destruct p as [bu gu q c v pt se sa vol pc ln ac]; cbn.
  destruct v as [[cn ch [[s f pa]|]]|]; cbn; try discriminate.
  destruct pa; cbn; try discriminate. intros _. repeat split.
Qed.

Lemma pause_after_resume p :
  paused p = true ->
  playing (resume p).1 = true /\ paused (resume p).1 = false
  /\ pause (resume p).1 = (p, true).
Proof.
  unfold playing, paused, pause, resume, is_playing, is_paused, with_paused,
    with_audio.
  destruct p as [bu gu q c v pt se sa vol pc ln ac]; cbn.
  destruct v as [[cn ch [[s f pa]|]]|]; cbn; try discriminate.
  destruct pa; cbn; try discriminate. intros _. repeat split.
Qed.

Lemma pause_not_playing p : playing p = false -> pause p = (p, false).
Proof.
  unfold playing, pause. destruct (voice p) as [vc|]; [|reflexivity].
  now intros ->.
Qed.

Lemma resume_not_paused p : paused p = false -> resume p = (p, false).
Proof.
  unfold paused, resume. destruct (voice p) as [vc|]; [|reflexivity].
  now intros ->.
Qed.

Lemma paused_not_playing p : paused p = true -> playing p = false.
Proof.
  unfold paused, playing, is_paused, is_playing.
  destruct (voice p) as [vc|]; [|discriminate].
  destruct (vc_player vc); [|discriminate]. now intros ->.
Qed.

(** X8.  [pause()] and [resume()] report whether they took effect, and undo
    each other exactly.  [pause()] returns [True] precisely when the voice
    client is playing and [resume()] precisely when it is paused; otherwise
    each returns [False] and the player is unchanged.  Pausing a playing
    stream and resuming gives back the very same player state, and so does
    resuming a paused stream and pausing again; hence pressing the queue
    view's pause/resume button twice changes nothing, whatever the state. *)
Theorem pause_and_resume_undo_each_other (p : GuildPlayer) :
  (pause p).2 = playing p
  /\ (resume p).2 = paused p
  /\ (playing p = false -> pause p = (p, false))
  /\ (paused p = false -> resume p = (p, false))
  /\ (playing p = true ->
      paused (pause p).1 = true /\ playing (pause p).1 = false
      /\ resume (pause p).1 = (p, true))
  /\ (paused p = true ->
      playing (resume p).1 = true /\ paused (resume p).1 = false
      /\ pause (resume p).1 = (p, true))
  /\ pause_resume (pause_resume p) = p.
Proof.
  split.
  { destruct (playing p) eqn:Hp.
    - destruct (pause_playing p Hp) as (vc & a & _ & _ & _ & ->). reflexivity.
    - now rewrite pause_not_playing. }
  split.
  { destruct (paused p) eqn:Hp.
    - destruct (resume_paused p Hp) as (vc & a & _ & _ & _ & ->). reflexivity.
    - now rewrite resume_not_paused. }
  split; [apply pause_not_playing|]. split; [apply resume_not_paused|].
  split; [apply resume_after_pause|]. split; [apply pause_after_resume|].
  unfold pause_resume at 2. destruct (paused p) eqn:Hpa.
  - destruct (pause_after_resume p Hpa) as (_ & Hnp & Hback).
    unfold pause_resume. now rewrite Hnp, Hback.
  - destruct (playing p) eqn:Hpl.
    + destruct (resume_after_pause p Hpl) as (Hp' & _ & Hback).
      unfold pause_resume. now rewrite Hp', Hback.
    + rewrite (pause_not_playing p Hpl). cbn [fst].
      unfold pause_resume. rewrite Hpa. now rewrite (pause_not_playing p Hpl).
Qed.

Lemma pause_and_resume_undo_each_other_witness :
  let p := player first_playing_world in
  playing p = true
  /\ (pause p).2 = true
  /\ (pause (pause p).1).2 = false
  /\ resume (pause p).1 = (p, true).
Proof.
  intros p.
  destruct (pause_and_resume_undo_each_other p)
    as (Hret & _ & _ & _ & Hround & _).
  destruct (Hround eq_refl) as (_ & Hnp & Hback).
  split; [reflexivity|]. split; [exact Hret|].
  split; [|exact Hback].
  destruct (pause_and_resume_undo_each_other (pause p).1) as (Hret' & _).
  now rewrite Hret', Hnp.
Defined.

(* ===================================================================== *)
(** ** Stop and teardown *)
(* ===================================================================== *)

Lemma voice_stop_sent w : sent (voice_stop w) = sent w.
Proof.
  unfold voice_stop. destruct (voice (player w)) as [vc|]; [|reflexivity].
  destruct (vc_player vc); reflexivity.
Qed.

Lemma skip_sent w : sent (skip w) = sent w.
Proof.
  unfold skip. destruct (playing (player w)); cbn; [|reflexivity].
  apply voice_stop_sent.
Qed.

Lemma voice_disconnect_sent w : sent (voice_disconnect w) = sent w.
Proof.
  unfold voice_disconnect.
  destruct (voice (player (voice_stop w))); cbn; apply voice_stop_sent.
Qed.

Lemma voice_disconnect_queue w :
  queue (player (voice_disconnect w)) = queue (player w).
Proof.
  unfold voice_disconnect.
  destruct (voice (player (voice_stop w))); cbn;
    apply voice_stop_player_fields.
Qed.

Lemma voice_stop_commutes f w :
  (forall p, voice (f p) = voice p) ->
  (forall p v, f (set_voice v p) = set_voice v (f p)) ->
  voice_stop (upd_player f w) = upd_player f (voice_stop w).
Proof.
  intros Hv Hc. unfold voice_stop. cbn [player upd_player]. rewrite Hv.
  destruct (voice (player w)) as [vc|]; [|reflexivity].
  destruct (vc_player vc); [|reflexivity].
  unfold set_finished, upd_player. cbn. now rewrite Hc.
Qed.

Lemma teardown_begin_is_stop w : (teardown_begin w).1 = stop w.
Proof.
  unfold teardown_begin, stop, skip. cbn [fst].
  change (playing (player (upd_player (set_stop_event true)
                             (upd_player clear_queue w))))
    with (playing (player (upd_player clear_queue w))).
  destruct (playing _); [|reflexivity].
  now apply voice_stop_commutes.
Qed.

Lemma stop_facts w :
  queue (player (stop w)) = []
  /\ _stop_event (player (stop w)) = true
  /\ playing (player (stop w)) = false
  /\ tasks (stop w) = tasks w
  /\ pcms (stop w) = pcms w
  /\ sent (stop w) = sent w
  /\ current (player (stop w)) = current (player w).
Proof.
  unfold stop.
  destruct (skip_facts (upd_player clear_queue w))
    as (Ht & Hq & Hc & Hs & Hp & _).
  rewrite Hq, Hc, Ht. repeat split; try assumption.
  - exact (pcms_frame EStop w I).
  - apply (skip_sent (upd_player clear_queue w)).
Qed.

Lemma apply_run_step i e w w' :
  step_task i e w = Some w' -> apply_event (ERun i e) w = w'.
Proof. intros H. cbn [apply_event]. now rewrite H. Qed.

Lemma step_from_wait i e w fid :
  tasks w !! i = Some (Waiting fid) -> _stop_event (player w) = true ->
  step_task i e w
  = Some (set_task i Pacing
            (upd_player (fun p => set_pcm None (set_stop_event false p)) w)).
Proof.
  intros Hi Hs. unfold step_task, wait_ready. now rewrite Hi, Hs.
Qed.

Lemma stop_presence w :
  connected (player (stop w)) = connected (player w)
  /\ channel_empty_excluding_self (player (stop w))
     = channel_empty_excluding_self (player w)
  /\ _started_at (player (stop w)) = _started_at (player w)
  /\ _play_task (player (stop w)) = _play_task (player w)
  /\ volume (player (stop w)) = volume (player w).
Proof.
  unfold stop.
  destruct (skip_facts (upd_player clear_queue w))
    as (_ & _ & _ & _ & _ & Hch & Hc).
  destruct (skip_playback (upd_player clear_queue w)) as (_ & Hs & _).
  rewrite Hc, Hch, Hs, (proj2 (skip_tasks _)).
  repeat split. apply (volume_frame EStop w I).
Qed.

Lemma teardown_begin_unfold w :
  teardown_begin w = (stop w, connected (player w)).
Proof.
  rewrite <- (proj1 (stop_presence w)), <- (teardown_begin_is_stop w).
  reflexivity.
Qed.

Lemma voice_disconnect_stop_event w :
  _stop_event (player (voice_disconnect w)) = _stop_event (player w).
Proof.
  unfold voice_disconnect.
  destruct (voice (player (voice_stop w))); cbn;
    apply voice_stop_player_fields.
Qed.

Lemma voice_disconnect_playing w :
  playing (player (voice_disconnect w)) = false.
Proof.
  unfold voice_disconnect.
  destruct (voice (player (voice_stop w))) as [vc|] eqn:Hv.
  - pose proof (proj2 (proj2 (voice_stop_presence w))) as Hnp.
    unfold playing in Hnp |- *. rewrite Hv in Hnp. cbn. exact Hnp.
  - apply voice_stop_presence.
Qed.

(** The rest of [teardown], from the return of the disconnect: what it
    writes and what it leaves alone. *)
Lemma teardown_end_facts ok w :
  playback_cleared (player (teardown_end ok w))
  /\ queue (player (teardown_end ok w)) = queue (player w)
  /\ _stop_event (player (teardown_end ok w)) = _stop_event (player w)
  /\ tasks (teardown_end ok w) = tasks w
  /\ _play_task (player (teardown_end ok w)) = _play_task (player w)
  /\ volume (player (teardown_end ok w)) = volume (player w)
  /\ (ok = true -> connected (player (teardown_end ok w)) = false)
  /\ (playing (player w) = false ->
      playing (player (teardown_end ok w)) = false).
Proof.
  unfold teardown_end, teardown_finally. destruct ok.
  - split; [repeat split|]. cbn [player upd_player].
    split; [cbn; apply voice_disconnect_queue|].
    split; [cbn; apply voice_disconnect_stop_event|].
    split; [cbn; apply voice_disconnect_tasks|].
    split; [cbn; apply voice_disconnect_tasks|].
    split; [cbn; apply voice_disconnect_volume|].
    split; [intros _; apply voice_disconnect_connected|].
    intros _. apply voice_disconnect_playing.
  - split; [repeat split|].
    repeat (split; [reflexivity|]).
    split; [discriminate | intros H; exact H].
Qed.

(** X9.  What [teardown()] guarantees, with other handlers running while it
    awaits the disconnect.  Up to the await it does exactly what the [stop]
    command does, and it is suspended exactly when the voice client is
    connected.  When it is over, [current], [_started_at] and [_pcm] are
    [None], whatever ran in between and whether or not the disconnect
    raised; it has raised exactly when it awaited a disconnect that raised.
    With no connected client, or with nothing running during the await, the
    queue is then empty, the stop event set, nothing playing, the transport
    disconnected if [teardown] returned, and the loop task and the volume
    untouched.  But the queue and the stop event are not protected during
    the await: a loop task released from its wait by [teardown] clears the
    stop event again, and a track added meanwhile stays queued. *)
Theorem teardown_leaves_nothing_behind
    (ok : bool) (during : list Event) (w : World) :
  let out := teardown ok during w in
  teardown_begin w = (stop w, connected (player w))
  /\ playback_cleared (player out.1)
  /\ (out.2 = false <-> connected (player w) = true /\ ok = false)
  /\ (connected (player w) = false \/ during = [] ->
      queue (player out.1) = []
      /\ _stop_event (player out.1) = true
      /\ playing (player out.1) = false
      /\ (out.2 = true -> connected (player out.1) = false)
      /\ tasks out.1 = tasks w
      /\ _play_task (player out.1) = _play_task (player w)
      /\ volume (player out.1) = volume (player w))
  /\ (forall i fid env,
        connected (player w) = true ->
        tasks w !! i = Some (Waiting fid) -> during = [ERun i env] ->
        _stop_event (player out.1) = false
        /\ tasks out.1 !! i = Some Pacing)
  /\ (forall t,
        connected (player w) = true -> during = [EAdd t] ->
        queue (player out.1) = [t]).
Proof.
  cbv zeta. unfold teardown. rewrite (teardown_begin_unfold w).
  destruct (stop_facts w) as (Hq & Hs & Hp & Ht & _).
  destruct (stop_presence w) as (Hc & _ & _ & Hh & Hvol).
  split; [reflexivity|].
  destruct (connected (player w)) eqn:Hconn; cbn [fst snd].
  - split; [apply teardown_end_facts|].
    split; [split; [intros ->; now split | now intros [_ ->]]|].
    split.
    { intros [Hd| ->]; [discriminate|]. cbn [run fold_left].
      destruct (teardown_end_facts ok (stop w))
        as (_ & Hq' & Hs' & Ht' & Hh' & Hv' & Hd & Hp').
      rewrite Hq', Hs', Ht', Hh', Hv'. repeat split; try assumption.
      now apply Hp'. }
    split.
    + intros i fid env _ Hi ->. cbn [run fold_left].
      assert (His : tasks (stop w) !! i = Some (Waiting fid))
        by now rewrite Ht.
      rewrite (apply_run_step i env (stop w) _
                 (step_from_wait i env (stop w) fid His Hs)).
      destruct (teardown_end_facts ok
                  (set_task i Pacing
                     (upd_player
                        (fun p => set_pcm None (set_stop_event false p))
                        (stop w))))
        as (_ & _ & -> & -> & _).
      split; [reflexivity|]. exact (lookup_set_task i Pacing _ _ His).
    + intros t _ ->. cbn [run fold_left apply_event].
      rewrite (proj1 (proj2 (teardown_end_facts ok _))), add_queue, Hq.
      reflexivity.
  - split; [repeat split|].
    split; [split; [discriminate | now intros [? _]]|].
    split; [|split; [intros i fid env H; discriminate H
                    |intros t H; discriminate H]].
    intros _. unfold teardown_finally. cbn [player upd_player].
    repeat split; try assumption.
    intros _. exact Hc.
Qed.

Lemma teardown_leaves_nothing_behind_witness :
  let out := teardown true [ERun 0%nat sample_env] first_playing_world in
  current (player first_playing_world) = Some (sample_track "A")
  /\ playback_cleared (player out.1)
  /\ _stop_event (player out.1) = false
  /\ tasks out.1 !! 0%nat = Some Pacing.
Proof.
  intros out.
  destruct (teardown_leaves_nothing_behind true [ERun 0%nat sample_env]
              first_playing_world) as (_ & Hc & _ & _ & Hrun & _).
  split; [reflexivity|]. split; [exact Hc|].
  exact (Hrun 0%nat 0%nat sample_env eq_refl eq_refl eq_refl).
Defined.

(* ===================================================================== *)
(** ** The loop winds down once the queue is empty and the signal is set *)
(* ===================================================================== *)

Lemma run_finished_task i e w pc :
  tasks w !! i = Some pc -> task_done pc = true ->
  apply_event (ERun i e) w = w.
Proof.
  intros H Hd. cbn [apply_event]. unfold step_task. rewrite H.
  destruct pc; try discriminate; reflexivity.
Qed.

Lemma loop_ending_absorbs d ok i e w0 w :
  loop_ending d ok i w0 w -> loop_ending d ok i w0 (apply_event (ERun i e) w).
Proof.
  unfold loop_ending. intros H.
  destruct (d && negb ok).
  - now rewrite (run_finished_task i e w Raised (proj1 H) eq_refl).
  - now rewrite (run_finished_task i e w Done (proj1 H) eq_refl).
Qed.

(** Resuming a task suspended in the disconnect. *)
Lemma disconnect_ends i e w0 w :
  tasks w !! i = Some Disconnecting -> queue (player w) = [] ->
  current (player w) = current (player w0) ->
  _started_at (player w) = _started_at (player w0) ->
  pcms w = pcms w0 -> sent w = sent w0 ->
  loop_ending true (disconnect_ok e) i w0 (apply_event (ERun i e) w).
Proof.
  intros Hi Hq Hc Hst Hp Hs. unfold loop_ending.
  cbn [apply_event]. unfold step_task. rewrite Hi.
  destruct (disconnect_ok e); cbn [andb negb].
  - split; [|split; [apply finish_loop_cleared|split; [|split]]].
    + apply (lookup_set_task i Done _ Disconnecting).
      now rewrite tasks_upd, (proj1 (voice_disconnect_tasks _)).
    + cbn. now rewrite voice_disconnect_queue.
    + cbn. now rewrite (proj2 (proj2 (voice_disconnect_volume _))).
    + cbn. now rewrite voice_disconnect_sent.
  - split; [exact (lookup_set_task i Raised _ _ Hi)|]. now repeat split.
Qed.

(** From the code after the [while], one more resumption is enough. *)
Lemma exit_winds_down i e w0 w pc :
  tasks w !! i = Some pc -> queue (player w) = [] ->
  current (player w) = current (player w0) ->
  _started_at (player w) = _started_at (player w0) ->
  pcms w = pcms w0 -> sent w = sent w0 ->
  loop_ending (exit_disconnects (player w)) (disconnect_ok e) i w0
    (apply_event (ERun i e) (loop_exit i w)).
Proof.
  intros Hi Hq Hc Hst Hp Hs. unfold loop_exit, exit_disconnects.
  destruct (_ && _).
  - apply disconnect_ends; try assumption.
    exact (lookup_set_task i Disconnecting w pc Hi).
  - apply (loop_ending_absorbs false). unfold loop_ending. cbn [andb].
    split; [exact (lookup_set_task i Done _ pc Hi)|].
    split; [apply finish_loop_cleared|]. now repeat split.
Qed.

Lemma head_winds_down i e1 e2 w0 w pc :
  tasks w !! i = Some pc -> at_loop_head pc = true ->
  queue (player w) = [] ->
  current (player w) = current (player w0) ->
  _started_at (player w) = _started_at (player w0) ->
  pcms w = pcms w0 -> sent w = sent w0 ->
  loop_ending (exit_disconnects (player w)) (disconnect_ok e2) i w0
    (apply_event (ERun i e2) (apply_event (ERun i e1) w)).
Proof.
  intros Hi Hpc Hq Hc Hst Hp Hs.
  rewrite (apply_run_step i e1 w _ (step_at_loop_head i e1 w pc Hi Hpc)).
  unfold loop_head. rewrite Hq.
  now apply (exit_winds_down i e2 w0 w pc).
Qed.

Lemma wait_winds_down i e1 e2 e3 w0 w fid :
  tasks w !! i = Some (Waiting fid) -> _stop_event (player w) = true ->
  queue (player w) = [] ->
  current (player w) = current (player w0) ->
  _started_at (player w) = _started_at (player w0) ->
  pcms w = pcms w0 -> sent w = sent w0 ->
  loop_ending (exit_disconnects (player w)) (disconnect_ok e3) i w0
    (apply_event (ERun i e3)
       (apply_event (ERun i e2) (apply_event (ERun i e1) w))).
Proof.
  intros Hi Hstop Hq Hc Hst Hp Hs.
  rewrite (apply_run_step i e1 w _ (step_from_wait i e1 w fid Hi Hstop)).
  set (w1 := set_task i Pacing _).
  change (exit_disconnects (player w)) with (exit_disconnects (player w1)).
  apply (head_winds_down i e2 e3 w0 w1 Pacing); try assumption.
  - exact (lookup_set_task i Pacing _ _ Hi).
  - reflexivity.
Qed.

(** The resumption in which the task reaches the code after the [while]
    and, if it disconnects, comes back from the disconnect. *)
Lemma winds_down i e1 e2 e3 e4 w0 w pc :
  tasks w !! i = Some pc -> task_done pc = false ->
  queue (player w) = [] -> _stop_event (player w) = true ->
  current (player w) = current (player w0) ->
  _started_at (player w) = _started_at (player w0) ->
  pcms w = pcms w0 -> sent w = sent w0 ->
  exists e, In e [e1; e2; e3; e4]
    /\ loop_ending (reaches_disconnect pc (player w)) (disconnect_ok e) i w0
         (run (resume_four i e1 e2 e3 e4) w).
Proof.
  intros Hi Halive Hq Hstop Hc Hst Hp Hs.
  unfold resume_four, run. cbn [fold_left reaches_disconnect].
  destruct pc; try discriminate.
  - exists e2. split; [cbn; tauto|]. do 2 apply loop_ending_absorbs.
    now apply (head_winds_down i e1 e2 w0 w Created).
  - exists e2. split; [cbn; tauto|]. do 2 apply loop_ending_absorbs.
    now apply (head_winds_down i e1 e2 w0 w Yielded).
  - exists e4. split; [cbn; tauto|].
    assert (Hstep : step_task i e1 w = Some (set_task i (Waiting finished) w))
      by (unfold step_task; now rewrite Hi).
    rewrite (apply_run_step i e1 w _ Hstep).
    set (w1 := set_task i (Waiting finished) w).
    change (exit_disconnects (player w)) with (exit_disconnects (player w1)).
    apply (wait_winds_down i e2 e3 e4 w0 w1 finished); try assumption.
    exact (lookup_set_task i _ _ _ Hi).
  - exists e3. split; [cbn; tauto|]. apply loop_ending_absorbs.
    now apply (wait_winds_down i e1 e2 e3 w0 w finished).
  - exists e2. split; [cbn; tauto|]. do 2 apply loop_ending_absorbs.
    now apply (head_winds_down i e1 e2 w0 w Pacing).
  - exists e1. split; [cbn; tauto|]. do 3 apply loop_ending_absorbs.
    now apply disconnect_ends.
Qed.

Lemma loop_ending_finished d ok i w0 w :
  loop_ending d ok i w0 w ->
  (exists pc, tasks w !! i = Some pc /\ task_done pc = true)
  /\ queue (player w) = [] /\ pcms w = pcms w0 /\ sent w = sent w0.
Proof.
  unfold loop_ending. destruct (d && negb ok).
  - intros (Ht & _ & _ & Hq & Hp & Hs). split; [now exists Raised|].
    now repeat split.
  - intros (Ht & _ & Hq & Hp & Hs). split; [now exists Done|].
    now repeat split.
Qed.

(** X10.  After [stop] (which is also what [teardown] has done when it
    awaits its disconnect) a loop task that has not finished, wherever it
    is suspended, is finished within four resumptions: it takes no further
    track, builds no source and sends no notice, and the queue stays empty.
    If it does not get to [voice.disconnect()] (it is not already suspended
    there, and the channel has listeners or the client is not connected),
    or if the disconnect returns, the task returns with [current],
    [_started_at] and [_pcm] cleared.  If it does and the disconnect
    raises, the task is ended by the exception, and [current] and
    [_started_at] are left as they were. *)
Theorem loop_winds_down_after_stop
    (i : nat) (e1 e2 e3 e4 : Env) (w : World) (pc : LoopPc) :
  tasks w !! i = Some pc -> task_done pc = false ->
  let w' := run (resume_four i e1 e2 e3 e4) (stop w) in
  let d := reaches_disconnect pc (player w) in
  (exists pc', tasks w' !! i = Some pc' /\ task_done pc' = true)
  /\ queue (player w') = [] /\ pcms w' = pcms w /\ sent w' = sent w
  /\ (d = false -> wound_down i w w')
  /\ (disconnect_ok e1 = true -> disconnect_ok e2 = true ->
      disconnect_ok e3 = true -> disconnect_ok e4 = true ->
      wound_down i w w')
  /\ (d = true ->
      disconnect_ok e1 = false -> disconnect_ok e2 = false ->
      disconnect_ok e3 = false -> disconnect_ok e4 = false ->
      died_disconnecting i w w').
Proof.
  intros Hi Halive w' d.
  destruct (stop_facts w) as (Hq & Hs & _ & Ht & Hp & Hsent & Hcur).
  destruct (stop_presence w) as (Hconn & Hch & Hst & _).
  assert (His : tasks (stop w) !! i = Some pc) by now rewrite Ht.
  destruct (winds_down i e1 e2 e3 e4 w (stop w) pc His Halive Hq Hs Hcur Hst
              Hp Hsent) as (e & Hin & Hend).
  fold w' in Hend.
  assert (Hd : reaches_disconnect pc (player (stop w)) = d).
  { unfold d, reaches_disconnect, exit_disconnects.
    now rewrite Hconn, Hch. }
  rewrite Hd in Hend.
  destruct (loop_ending_finished _ _ _ _ _ Hend) as (Hfin & Hq' & Hp' & Hs').
  repeat (split; [assumption|]).
  unfold loop_ending in Hend.
  assert (Hcases : e = e1 \/ e = e2 \/ e = e3 \/ e = e4)
    by (cbn in Hin; intuition congruence).
  split; [|split].
  - intros E. now rewrite E in Hend.
  - intros H1 H2 H3 H4.
    assert (Hok : disconnect_ok e = true)
      by (destruct Hcases as [-> |[-> |[-> | ->]]]; assumption).
    rewrite Hok, andb_false_r in Hend. exact Hend.
  - intros E H1 H2 H3 H4.
    assert (Hok : disconnect_ok e = false)
      by (destruct Hcases as [-> |[-> |[-> | ->]]]; assumption).
    now rewrite E, Hok in Hend.
Qed.

Lemma loop_winds_down_after_stop_witness :
  let w := run [EMembers [7]] first_playing_world in
  wound_down 0 w
    (run (resume_four 0 sample_env sample_env sample_env sample_env) (stop w))
  /\ died_disconnecting 0 w
       (run (resume_four 0 raising_env raising_env raising_env raising_env)
            (stop w))
  /\ current (player w) = Some (sample_track "A").
Proof.
  intros w.
  destruct (loop_winds_down_after_stop 0 sample_env sample_env sample_env
              sample_env w (Waiting 0) eq_refl eq_refl)
    as (_ & _ & _ & _ & _ & Hok & _).
  destruct (loop_winds_down_after_stop 0 raising_env raising_env raising_env
              raising_env w (Waiting 0) eq_refl eq_refl)
    as (_ & _ & _ & _ & _ & _ & Hbad).
  split; [exact (Hok eq_refl eq_refl eq_refl eq_refl)|].
  split; [exact (Hbad eq_refl eq_refl eq_refl eq_refl eq_refl)|reflexivity].
Defined.

(* ===================================================================== *)
(** ** What the two [break]s do to the head of the queue *)
(* ===================================================================== *)

Lemma channel_not_empty_voice p :
  channel_empty_excluding_self p = false -> exists vc, voice p = Some vc.
Proof.
  unfold channel_empty_excluding_self, others_in_channel_count.
  destruct (voice p) as [vc|]; [now exists vc|discriminate].
Qed.

(** X11.  The two [break]s treat the head of the queue differently.  A pass
    that finds the channel without listeners leaves the queue exactly as it
    is (the pending tracks survive the auto-disconnect).  A pass that finds
    listeners but a transport that is not connected has already taken the
    head track: the task returns at once, [current] is cleared, and that
    track is gone from the queue without a source having been built or a
    notice sent for it. *)
Theorem breaks_and_the_head_track
    (i : nat) (env : Env) (w : World) (pc : LoopPc)
    (t : Track) (rest : list Track) :
  tasks w !! i = Some pc -> at_loop_head pc = true ->
  queue (player w) = t :: rest ->
  (channel_empty_excluding_self (player w) = true ->
   exists w1, step_task i env w = Some w1
              /\ queue (player w1) = t :: rest
              /\ pcms w1 = pcms w /\ sent w1 = sent w
              /\ (tasks w1 !! i = Some Done \/
                  tasks w1 !! i = Some Disconnecting))
  /\ (channel_empty_excluding_self (player w) = false ->
      connected (player w) = false ->
      exists w1, step_task i env w = Some w1
                 /\ queue (player w1) = rest
                 /\ current (player w1) = None
                 /\ tasks w1 !! i = Some Done
                 /\ pcms w1 = pcms w /\ sent w1 = sent w).
Proof.
  intros Hi Hpc Hq.
  rewrite (step_at_loop_head i env w pc Hi Hpc). unfold loop_head.
  rewrite Hq. split.
  - intros Hempty. rewrite Hempty. eexists. split; [reflexivity|].
    unfold loop_exit. rewrite Hempty. cbn [andb].
    destruct (connected (player w)).
    + repeat split; try assumption.
      right. exact (lookup_set_task i _ w pc Hi).
    + repeat split; try assumption.
      left. exact (lookup_set_task i _ _ pc Hi).
  - intros Hne Hnc. rewrite Hne.
    destruct (channel_not_empty_voice _ Hne) as (vc & Hv).
    cbn [player upd_player voice set_started_at set_current set_queue].
    rewrite Hv. unfold connected in Hnc. rewrite Hv in Hnc. rewrite Hnc.
    eexists. split; [reflexivity|].
    unfold loop_exit.
    replace (channel_empty_excluding_self _) with false
      by (symmetry; exact Hne).
    cbn [andb]. repeat split.
    exact (lookup_set_task i _ _ pc Hi).
Qed.

Lemma breaks_and_the_head_track_witness :
  (exists w1, step_task 0 sample_env lonely_world = Some w1
              /\ queue (player w1) = [sample_track "A"; sample_track "B"]
              /\ tasks w1 !! 0%nat = Some Disconnecting)
  /\ (exists w1, step_task 0 sample_env dropped_world = Some w1
                 /\ queue (player w1) = [sample_track "B"]
                 /\ current (player w1) = None
                 /\ tasks w1 !! 0%nat = Some Done
                 /\ pcms w1 = []).
Proof.
  split.
  - destruct (breaks_and_the_head_track 0 sample_env lonely_world Created
                (sample_track "A") [sample_track "B"] eq_refl eq_refl eq_refl)
      as [H _].
    destruct (H eq_refl) as (w1 & Hs & Hq & _ & _ & Ht).
    exists w1. split; [exact Hs|]. split; [exact Hq|].
    destruct Ht as [Ht|Ht]; [|exact Ht].
    rewrite Hs in *. exfalso.
    assert (Hd : step_task 0 sample_env lonely_world
                 = Some (set_task 0 Disconnecting lonely_world))
      by reflexivity.
    rewrite Hd in Hs. injection Hs as <-. discriminate Ht.
  - destruct (breaks_and_the_head_track 0 sample_env dropped_world Created
                (sample_track "A") [sample_track "B"] eq_refl eq_refl eq_refl)
      as [_ H].
    destruct (H eq_refl eq_refl) as (w1 & Hs & Hq & Hc & Ht & Hp & _).
    exists w1. repeat split; assumption.
Defined.

(* ===================================================================== *)
(** ** Pages of the queue view *)
(* ===================================================================== *)

Lemma range_count_covers n step :
  (1 <= step)%nat -> (n <= range_count n step * step)%nat.
Proof.
  intros Hs. unfold range_count.
  pose proof (Nat.div_mod_eq (n + step - 1) step) as Hd.
  pose proof (Nat.mod_upper_bound (n + step - 1) step ltac:(lia)) as Hm.
  set (d := ((n + step - 1) / step)%nat) in *.
  set (m := ((n + step - 1) mod step)%nat) in *.
  rewrite (Nat.mul_comm d step). lia.
Qed.

Lemma range_count_inside n step k :
  (1 <= step)%nat -> (k < range_count n step)%nat -> (k * step < n)%nat.
Proof.
  intros Hs. unfold range_count.
  pose proof (Nat.div_mod_eq (n + step - 1) step) as Hd.
  pose proof (Nat.mod_upper_bound (n + step - 1) step ltac:(lia)) as Hm.
  set (d := ((n + step - 1) / step)%nat) in *.
  set (m := ((n + step - 1) mod step)%nat) in *.
  intros Hk.
  assert (S k * step <= d * step)%nat by (apply Nat.mul_le_mono_r; lia).
  lia.
Qed.

Lemma range_count_zero step : (1 <= step)%nat -> range_count 0 step = 0%nat.
Proof.
  intros Hs. unfold range_count. apply Nat.div_small. lia.
Qed.

Lemma range_count_pos n step :
  (1 <= step)%nat -> (1 <= n)%nat -> (1 <= range_count n step)%nat.
Proof.
  intros Hs Hn. unfold range_count.
  apply Nat.div_str_pos. lia.
Qed.

Section Slices.

Context {A : Type}.
Implicit Types (q : list A).

(** The slices [q[k * per : k * per + per]] for [k] below [n]. *)
Lemma slices_concat per n q :
  concat (map (fun k => take per (drop (k * per) q)) (seq 0 n))
  = take (n * per) q.
Proof.
  induction n as [|n IH]; [now rewrite take_0|].
  rewrite seq_S, map_app, concat_app, IH. cbn [map concat plus].
  rewrite app_nil_r, take_take_drop. f_equal. lia.
Qed.

Lemma slices_lookup per n q k :
  (k < n)%nat ->
  map (fun k => take per (drop (k * per) q)) (seq 0 n) !! k
  = Some (take per (drop (k * per) q)).
Proof.
  intros Hk. rewrite list_lookup_fmap, lookup_seq_lt by exact Hk.
  reflexivity.
Qed.

Lemma slices_length per n q :
  length (map (fun k => take per (drop (k * per) q)) (seq 0 n)) = n.
Proof. now rewrite length_map, length_seq. Qed.

Lemma slice_item per q k j x :
  take per (drop (k * per) q) !! j = Some x ->
  (j < per)%nat /\ q !! (k * per + j)%nat = Some x.
Proof.
  intros H. apply lookup_take_Some in H as [H Hj].
  rewrite lookup_drop in H. now split.
Qed.

End Slices.

(** The pages of a view with at least one track per page. *)
Lemma queue_pages_some per q :
  (1 <= per)%nat ->
  exists pages,
    queue_pages per q = Some pages
    /\ length pages = Nat.max 1 (range_count (length q) per)
    /\ (q <> [] ->
        pages = map (fun k => take per (drop (k * per) q))
                    (seq 0 (range_count (length q) per)))
    /\ (q = [] -> pages = [[]]).
Proof.
  intros Hper. unfold queue_pages.
  destruct per as [|per']; [lia|]. set (per := S per') in *.
  pose proof (slices_length per (range_count (length q) per) q) as Hl.
  assert (Hn0 : q = [] -> range_count (length q) per = 0%nat)
    by (intros ->; now apply range_count_zero).
  assert (Hn1 : q <> [] -> (1 <= range_count (length q) per)%nat).
  { intros Hq. apply range_count_pos; [exact Hper|].
    destruct q; [congruence|cbn; lia]. }
  destruct (map _ (seq 0 (range_count (length q) per))) as [|pg pgs] eqn:Hm.
  - eexists. split; [reflexivity|]. cbn [length] in Hl.
    split; [cbn [length]; lia|].
    split; [intros Hq; specialize (Hn1 Hq); lia|reflexivity].
  - eexists. split; [reflexivity|].
    split; [rewrite Hl at 1; cbn [length] in Hl; lia|].
    split; [reflexivity|].
    intros Hq. specialize (Hn0 Hq). cbn [length] in Hl. lia.
Qed.

(** X12.  The pages of the queue view cut the queue into consecutive runs
    of [per_page] tracks.  For a view with [per_page >= 1]: there is always
    at least one page; the pages laid end to end are the queue; no page is
    longer than [per_page] and every page but the last is full; a non-empty
    queue has no empty page; and entry [j] of page [k] is entry
    [k * per_page + j] of the queue.  With [per_page = 0] building the
    pages fails. *)
Theorem queue_pages_partition_the_queue (per : nat) (q : list Track) :
  queue_pages 0 q = None
  /\ ((1 <= per)%nat ->
      exists pages,
        queue_pages per q = Some pages
        /\ concat pages = q
        /\ (1 <= length pages)%nat
        /\ length pages = Nat.max 1 (range_count (length q) per)
        /\ (forall k pg, pages !! k = Some pg ->
              (length pg <= per)%nat
              /\ (S k < length pages -> length pg = per)%nat
              /\ (q <> [] -> pg <> [])
              /\ (forall j t, pg !! j = Some t ->
                              q !! (k * per + j)%nat = Some t))).
Proof.
  split; [reflexivity|]. intros Hper.
  destruct (queue_pages_some per q Hper) as (pages & Hp & Hlen & Hne & He).
  exists pages. split; [exact Hp|].
  destruct q as [|t0 q0] eqn:Hq.
  { pose proof (He eq_refl) as ->.
    split; [reflexivity|]. split; [cbn; lia|]. split; [exact Hlen|].
    intros k pg Hk. destruct k as [|k]; [|discriminate].
    injection Hk as <-.
    split; [cbn; lia|]. split; [cbn; lia|]. split; [congruence|].
    intros j t Hj. discriminate. }
  rewrite <- Hq in *. assert (Hq' : q <> []) by (subst q; discriminate).
  clear He. specialize (Hne Hq'). set (n := range_count (length q) per) in *.
  split.
  { rewrite Hne, slices_concat. apply take_ge.
    apply range_count_covers, Hper. }
  split; [rewrite Hlen; lia|]. split; [exact Hlen|].
  intros k pg Hk.
  assert (Hkn : (k < n)%nat).
  { apply lookup_lt_Some in Hk. rewrite Hne, slices_length in Hk. exact Hk. }
  rewrite Hne, slices_lookup in Hk by exact Hkn. injection Hk as <-.
  pose proof (range_count_inside (length q) per k Hper Hkn) as Hin.
  split; [rewrite length_take; lia|].
  split.
  { intros Hnext. rewrite Hne, slices_length in Hnext.
    pose proof (range_count_inside (length q) per (S k) Hper Hnext).
    rewrite length_take, length_drop. lia. }
  split.
  { intros _ Hnil. apply (f_equal length) in Hnil.
    rewrite length_take, length_drop in Hnil. cbn in Hnil. lia. }
  intros j t Hj. now apply slice_item in Hj.
Qed.

Lemma queue_pages_partition_the_queue_witness :
  exists pages,
    queue_pages 8 twenty_tracks = Some pages
    /\ concat pages = twenty_tracks
    /\ map (@length Track) pages = [8; 8; 4]%nat.
Proof.
  destruct (queue_pages_partition_the_queue 8 twenty_tracks) as [_ H].
  destruct (H ltac:(lia)) as (pages & Hp & Hc & _).
  exists pages. split; [exact Hp|]. split; [exact Hc|].
  assert (Hq : queue_pages 8 twenty_tracks
               = Some [take 8 twenty_tracks; take 8 (drop 8 twenty_tracks);
                       take 8 (drop 16 twenty_tracks)]) by reflexivity.
  rewrite Hq in Hp. injection Hp as <-. reflexivity.
Defined.

(* ===================================================================== *)
(** ** The remove select and the page of the view *)
(* ===================================================================== *)

Lemma queue_pages_lookup per q pages k pg :
  (1 <= per)%nat -> queue_pages per q = Some pages ->
  pages !! k = Some pg ->
  forall j t, pg !! j = Some t -> q !! (k * per + j)%nat = Some t.
Proof.
  intros Hper Hp Hk j t Hj.
  destruct (queue_pages_some per q Hper) as (pages' & Hp' & _ & Hne & He).
  rewrite Hp in Hp'. injection Hp' as <-.
  destruct q as [|t0 q0] eqn:Hq.
  { rewrite (He eq_refl) in Hk. destruct k; [|discriminate].
    injection Hk as <-. discriminate. }
  rewrite <- Hq in *. assert (Hq' : q <> []) by (subst q; discriminate).
  specialize (Hne Hq').
  assert (Hkn : (k < range_count (length q) per)%nat).
  { apply lookup_lt_Some in Hk. rewrite Hne, slices_length in Hk. exact Hk. }
  rewrite Hne, slices_lookup in Hk by exact Hkn. injection Hk as <-.
  now apply slice_item in Hj.
Qed.

Lemma queue_pages_page_length per q pages k pg :
  (1 <= per)%nat -> queue_pages per q = Some pages ->
  pages !! k = Some pg -> (length pg <= per)%nat.
Proof.
  intros Hper Hp Hk.
  destruct (queue_pages_some per q Hper) as (pages' & Hp' & _ & Hne & He).
  rewrite Hp in Hp'. injection Hp' as <-.
  destruct q as [|t0 q0] eqn:Hq.
  { rewrite (He eq_refl) in Hk. destruct k; [|discriminate].
    injection Hk as <-. cbn. lia. }
  rewrite <- Hq in *. assert (Hq' : q <> []) by (subst q; discriminate).
  specialize (Hne Hq').
  assert (Hkn : (k < range_count (length q) per)%nat).
  { apply lookup_lt_Some in Hk. rewrite Hne, slices_length in Hk. exact Hk. }
  rewrite Hne, slices_lookup in Hk by exact Hkn. injection Hk as <-.
  rewrite length_take. lia.
Qed.

Lemma queue_pages_length per q pages :
  (1 <= per)%nat -> queue_pages per q = Some pages ->
  length pages = Nat.max 1 (range_count (length q) per).
Proof.
  intros Hper Hp.
  destruct (queue_pages_some per q Hper) as (pages' & Hp' & Hl & _).
  rewrite Hp in Hp'. now injection Hp' as <-.
Qed.

Lemma list_pop_at {A} (l : list A) n t :
  l !! n = Some t -> list_pop n l = Some (t, take n l ++ drop (S n) l).
Proof. intros H. unfold list_pop. now rewrite H. Qed.

Lemma remove_at p n t :
  queue p !! n = Some t ->
  remove (Z.of_nat n + 1) p
  = (set_queue (take n (queue p) ++ drop (S n) (queue p)) p, Removed t).
Proof.
  intros Hn. pose proof (lookup_lt_Some _ _ _ Hn) as Hlt. unfold remove.
  destruct (Z.of_nat n + 1 <? 1) eqn:E1; [apply Z.ltb_lt in E1; lia|].
  destruct (Z.of_nat (length (queue p)) <? Z.of_nat n + 1) eqn:E2;
    [apply Z.ltb_lt in E2; lia|].
  cbn [orb]. replace (Z.to_nat (Z.of_nat n + 1 - 1)) with n by lia.
  now rewrite (list_pop_at _ _ _ Hn).
Qed.

(** [max(0, (len - 1) // per_page)] is the index of the last page. *)
Lemma max_page_is_last per len :
  (1 <= per)%nat ->
  (Z.to_nat (Z.max 0 ((Z.of_nat len - 1) / Z.of_nat per))
   < Nat.max 1 (range_count len per))%nat.
Proof.
  intros Hper. destruct len as [|len'].
  - assert ((Z.of_nat 0 - 1) / Z.of_nat per < 0)
      by (apply Z.div_lt_upper_bound; lia).
    lia.
  - replace (Z.of_nat (S len') - 1) with (Z.of_nat len') by lia.
    rewrite <- Nat2Z.inj_div.
    unfold range_count.
    replace (S len' + per - 1)%nat with (len' + 1 * per)%nat by lia.
    rewrite Nat.div_add by lia. lia.
Qed.

Lemma sync_button_states_some v q :
  (1 <= per_page v)%nat ->
  forall b, sync_button_states v q = Some b ->
  exists pages pg,
    queue_pages (per_page v) q = Some pages
    /\ pages !! page v = Some pg
    /\ (select_disabled b = false ->
        select_values b
        = imap (fun j (_ : Track) => Z.of_nat (page v * per_page v + S j)) pg).
Proof.
  intros Hper b. unfold sync_button_states.
  destruct (queue_pages (per_page v) q) as [pages|] eqn:Hp; [|discriminate].
  destruct (pages !! page v) as [pg|] eqn:Hpg; [|discriminate].
  intros H. injection H as <-. exists pages, pg.
  split; [reflexivity|]. split; [exact Hpg|].
  cbn [select_disabled select_values].
  destruct pg as [|t pg']; [discriminate|]. reflexivity.
Qed.

Lemma sync_button_states_valid v q pages :
  queue_pages (per_page v) q = Some pages ->
  is_Some (sync_button_states v q) <-> (page v < length pages)%nat.
Proof.
  intros Hp. unfold sync_button_states. rewrite Hp. split.
  - intros [b Hb]. destruct (pages !! page v) eqn:E; [|discriminate].
    now apply lookup_lt_Some in E.
  - intros Hlt. destruct (lookup_lt_is_Some_2 pages (page v) Hlt) as [pg ->].
    eexists. reflexivity.
Qed.

(** X13.  Choosing an entry of the remove select removes the track it
    stands for.  In a view with [per_page >= 1] whose select is enabled,
    the [j]-th value is the 1-based queue position [page * per_page + j + 1]
    of the [j]-th track shown on the page; [_on_remove_select] with that
    value replies with that very track and leaves the queue without it (the
    tracks before and after it in their order), exactly as the [remove]
    command would with the same number; and the page it keeps is still a
    page of the shorter queue, so the next refresh of the buttons does not
    fail. *)
Theorem select_removes_the_track_shown
    (v : QueueView) (p : GuildPlayer) (b : Buttons) (j : nat) (val : Z) :
  (1 <= per_page v)%nat ->
  sync_button_states v (queue p) = Some b ->
  select_disabled b = false ->
  select_values b !! j = Some val ->
  exists pages pg t v',
    queue_pages (per_page v) (queue p) = Some pages
    /\ pages !! page v = Some pg
    /\ pg !! j = Some t
    /\ val = Z.of_nat (page v * per_page v + j) + 1
    /\ queue p !! (page v * per_page v + j)%nat = Some t
    /\ on_remove_select val v p
       = Some (v', set_queue (take (page v * per_page v + j) (queue p)
                              ++ drop (S (page v * per_page v + j)) (queue p))
                     p,
               RemovedTrack t)
    /\ remove val p
       = (set_queue (take (page v * per_page v + j) (queue p)
                     ++ drop (S (page v * per_page v + j)) (queue p)) p,
          Removed t)
    /\ (page v' <= page v)%nat
    /\ is_Some (sync_button_states v'
                  (take (page v * per_page v + j) (queue p)
                   ++ drop (S (page v * per_page v + j)) (queue p))).
Proof.
  intros Hper Hsync Hen Hval.
  destruct (sync_button_states_some v (queue p) Hper b Hsync)
    as (pages & pg & Hp & Hpg & Hvals).
  rewrite (Hvals Hen), list_lookup_imap in Hval.
  destruct (pg !! j) as [t|] eqn:Hj; [|discriminate].
  cbn in Hval. injection Hval as <-.
  pose proof (queue_pages_lookup _ _ _ _ _ Hper Hp Hpg j t Hj) as Hq.
  set (n := (page v * per_page v + j)%nat) in *.
  set (q' := take n (queue p) ++ drop (S n) (queue p)).
  assert (Hval : Z.of_nat (page v * per_page v + S j) = Z.of_nat n + 1)
    by (subst n; lia).
  pose proof (lookup_lt_Some _ _ _ Hq) as Hlt.
  exists pages, pg, t,
    {| per_page := per_page v;
       page := Nat.min (page v)
                 (Z.to_nat (Z.max 0 ((Z.of_nat (length q') - 1)
                                     / Z.of_nat (per_page v)))) |}.
  split; [exact Hp|]. split; [exact Hpg|]. split; [exact Hj|].
  split; [exact Hval|]. split; [exact Hq|].
  rewrite Hval. split; [|split; [now apply remove_at|split]].
  - unfold on_remove_select.
    destruct (Z.of_nat n + 1 <? 1) eqn:E1; [apply Z.ltb_lt in E1; lia|].
    destruct (Z.of_nat (length (queue p)) <? Z.of_nat n + 1) eqn:E2;
      [apply Z.ltb_lt in E2; lia|].
    cbn [orb]. replace (Z.to_nat (Z.of_nat n + 1 - 1)) with n by lia.
    rewrite (list_pop_at _ _ _ Hq). fold q'.
    destruct (per_page v) as [|k] eqn:Hk; [lia|]. reflexivity.
  - cbn [page]. lia.
  - destruct (queue_pages_some (per_page v) q' Hper) as (pages' & Hp' & Hl' & _).
    apply (sync_button_states_valid _ q' pages'); [exact Hp'|].
    cbn [page]. rewrite Hl'.
    pose proof (max_page_is_last (per_page v) (length q') Hper). lia.
Qed.

Lemma select_removes_the_track_shown_witness :
  let p := set_queue twenty_tracks (new_player (Some 7) 42) in
  exists b t v',
    sync_button_states (queue_view 2) (queue p) = Some b
    /\ select_values b = [17; 18; 19; 20]
    /\ on_remove_select 20 (queue_view 2) p
       = Some (v', set_queue (take 19 twenty_tracks) p, RemovedTrack t)
    /\ t = sample_track "T"
    /\ (page v' <= 2)%nat.
Proof.
  intros p.
  assert (Hb : exists b, sync_button_states (queue_view 2) (queue p) = Some b
                         /\ select_values b = [17; 18; 19; 20]
                         /\ select_disabled b = false)
    by (eexists; repeat split).
  destruct Hb as (b & Hb & Hvals & Hen).
  destruct (select_removes_the_track_shown (queue_view 2) p b 3 20
              ltac:(cbn; lia) Hb Hen ltac:(now rewrite Hvals))
    as (pages & pg & t & v' & _ & _ & _ & _ & Hq & Hsel & _ & Hpage & _).
  exists b, t, v'. split; [exact Hb|]. split; [exact Hvals|].
  split; [exact Hsel|]. split; [|exact Hpage].
  cbn in Hq. now injection Hq as <-.
Defined.

(** X14.  How the view handles its page, for [per_page >= 1].  [embed]
    always finds the page it shows (it clamps the page into the existing
    ones).  [_sync_button_states] does not clamp: it succeeds exactly when
    the page is an existing one.  When it succeeds it disables "previous"
    exactly on the first page and "next" exactly on the last page.  Going
    back a page or to the first page keeps the page valid, but "next" on
    the last page leaves a page for which the refresh of the buttons
    fails. *)
Theorem view_page_handling (v : QueueView) (q : list Track) :
  (1 <= per_page v)%nat ->
  exists pages,
    queue_pages (per_page v) q = Some pages
    /\ is_Some (pages !! shown_page v pages)
    /\ (is_Some (sync_button_states v q) <-> (page v < length pages)%nat)
    /\ is_Some (sync_button_states (first_page v) q)
    /\ (is_Some (sync_button_states v q) ->
        is_Some (sync_button_states (prev_page v) q))
    /\ (S (page v) = length pages ->
        sync_button_states (next_page v) q = None)
    /\ (forall b, sync_button_states v q = Some b ->
          prev_disabled b = Nat.eqb (page v) 0
          /\ next_disabled b = Nat.eqb (S (page v)) (length pages)).
Proof.
  intros Hper.
  destruct (queue_pages_some (per_page v) q Hper) as (pages & Hp & Hl & _).
  assert (Hpos : (1 <= length pages)%nat) by lia.
  exists pages. split; [exact Hp|].
  split; [apply lookup_lt_is_Some_2; unfold shown_page; lia|].
  split; [now apply sync_button_states_valid|].
  split; [apply (sync_button_states_valid (first_page v) q pages Hp); cbn; lia|].
  split.
  { intros Hs. apply (sync_button_states_valid v q pages Hp) in Hs.
    apply (sync_button_states_valid (prev_page v) q pages Hp). cbn. lia. }
  split.
  { intros Hlast. destruct (sync_button_states (next_page v) q) eqn:E;
      [|reflexivity].
    assert (Hs : is_Some (sync_button_states (next_page v) q))
      by (rewrite E; eauto).
    apply (sync_button_states_valid (next_page v) q pages Hp) in Hs.
    cbn in Hs. lia. }
  intros b Hb. unfold sync_button_states in Hb. rewrite Hp in Hb.
  destruct (pages !! page v) as [pg|] eqn:Hpg; [|discriminate].
  apply lookup_lt_Some in Hpg. injection Hb as <-.
  cbn [prev_disabled next_disabled]. split.
  - destruct (page v); reflexivity.
  - destruct (Z.of_nat (page v) <? Z.of_nat (length pages) - 1) eqn:E;
      cbn [negb]; symmetry.
    + apply Z.ltb_lt in E. apply Nat.eqb_neq. lia.
    + apply Z.ltb_ge in E. apply Nat.eqb_eq. lia.
Qed.

Lemma view_page_handling_witness :
  exists pages,
    queue_pages 8 twenty_tracks = Some pages
    /\ length pages = 3%nat
    /\ is_Some (pages !! shown_page (queue_view 7) pages)
    /\ sync_button_states (next_page (queue_view 2)) twenty_tracks = None.
Proof.
  destruct (view_page_handling (queue_view 2) twenty_tracks ltac:(cbn; lia))
    as (pages & Hp & _ & _ & _ & _ & Hnext & _).
  destruct (view_page_handling (queue_view 7) twenty_tracks ltac:(cbn; lia))
    as (pages' & Hp' & Hshown & _).
  cbn [per_page queue_view] in Hp, Hp'.
  rewrite Hp in Hp'. injection Hp' as <-.
  assert (Hl : length pages = 3%nat).
  { assert (Hq : queue_pages 8 twenty_tracks
                 = Some [take 8 twenty_tracks; take 8 (drop 8 twenty_tracks);
                         take 8 (drop 16 twenty_tracks)]) by reflexivity.
    rewrite Hq in Hp. now injection Hp as <-. }
  exists pages. split; [exact Hp|]. split; [exact Hl|].
  split; [exact Hshown|]. apply Hnext. now rewrite Hl.
Defined.

(** X15.  The number shown in front of a track is the number to give to
    [/remove].  For a view with [per_page >= 1], whatever its page, [embed]
    lists some page of the queue, and if it shows number [n] in front of
    track [t], then [t] is the [n]-th pending track and the [remove]
    command with index [n] replies with [t] and leaves the queue without
    that entry. *)
Theorem shown_number_removes_that_track
    (v : QueueView) (p : GuildPlayer) :
  (1 <= per_page v)%nat ->
  exists lines,
    embed_lines v (queue p) = Some lines
    /\ (length lines <= per_page v)%nat
    /\ forall j n t,
         lines !! j = Some (n, t) ->
         (1 <= n <= length (queue p))%nat
         /\ queue p !! (n - 1)%nat = Some t
         /\ remove (Z.of_nat n) p
            = (set_queue (take (n - 1) (queue p) ++ drop n (queue p)) p,
               Removed t).
Proof.
  intros Hper. unfold embed_lines.
  destruct (queue_pages_some (per_page v) (queue p) Hper)
    as (pages & Hp & Hl & Hne & He).
  rewrite Hp.
  assert (Hsh : (shown_page v pages < length pages)%nat)
    by (unfold shown_page; lia).
  destruct (lookup_lt_is_Some_2 pages _ Hsh) as [pg Hpg]. rewrite Hpg.
  eexists. split; [reflexivity|]. split.
  { unfold line_numbers. rewrite length_imap.
    exact (queue_pages_page_length _ _ _ _ _ Hper Hp Hpg). }
  intros j n t Hj. unfold line_numbers in Hj.
  rewrite list_lookup_imap in Hj.
  destruct (pg !! j) as [t'|] eqn:Hpj; [|discriminate].
  cbn [fmap option_fmap option_map] in Hj. injection Hj as <- <-.
  pose proof (queue_pages_lookup _ _ _ _ _ Hper Hp Hpg j t' Hpj) as Hq.
  pose proof (lookup_lt_Some _ _ _ Hq) as Hlt.
  set (o := (shown_page v pages * per_page v)%nat) in *.
  replace (o + S j - 1)%nat with (o + j)%nat by lia.
  split; [lia|]. split; [exact Hq|].
  replace (Z.of_nat (o + S j)) with (Z.of_nat (o + j) + 1) by lia.
  replace (o + S j)%nat with (S (o + j)) by lia.
  exact (remove_at p _ t' Hq).
Qed.

Lemma shown_number_removes_that_track_witness :
  let p := set_queue twenty_tracks (new_player (Some 7) 42) in
  exists lines,
    embed_lines (queue_view 1) (queue p) = Some lines
    /\ lines !! 0%nat = Some (9%nat, sample_track "I")
    /\ remove 9 p
       = (set_queue (take 8 twenty_tracks ++ drop 9 twenty_tracks) p,
          Removed (sample_track "I")).
Proof.
  intros p.
  destruct (shown_number_removes_that_track (queue_view 1) p
              ltac:(cbn; lia)) as (lines & Hlines & _ & Hall).
  exists lines. split; [exact Hlines|].
  assert (H0 : lines !! 0%nat = Some (9%nat, sample_track "I")).
  { cbn in Hlines. injection Hlines as <-. reflexivity. }
  split; [exact H0|]. exact (proj2 (proj2 (Hall 0%nat 9%nat _ H0))).
Defined.

(* ===================================================================== *)
(** ** Times and bars *)
(* ===================================================================== *)

Lemma pad2_two_chars_all : forallb pad2_two_chars (seq 0 60) = true.
Proof. vm_compute. reflexivity. Qed.

Lemma bar_as_expected_all : forallb bar_as_expected (seq 0 201) = true.
Proof. vm_compute. reflexivity. Qed.

Lemma hms_split h m s :
  0 <= m < 60 -> 0 <= s < 60 ->
  let sec := 3600 * h + 60 * m + s in
  sec / 60 = 60 * h + m /\ sec mod 60 = s
  /\ (60 * h + m) / 60 = h /\ (60 * h + m) mod 60 = m.
Proof.
  intros Hm Hs sec. subst sec. repeat split; symmetry.
  - apply (Z.div_unique _ 60 _ s); lia.
  - apply (Z.mod_unique _ 60 (60 * h + m)); lia.
  - apply (Z.div_unique _ 60 _ m); lia.
  - apply (Z.mod_unique _ 60 h); lia.
Qed.

(** X16.  What [fmt_time] prints.  [None], zero (also 0.0 and -0.0) and
    every negative number give "?:??"; nan and +inf make it raise.  A
    positive whole number of seconds [3600 h + 60 m + s] (with [m], [s]
    below 60) is printed as "m:ss" when [h = 0] and as "h:mm:ss" otherwise,
    minutes and seconds of the latter always two characters wide.  A
    positive finite float is printed as its integer part, so a position
    below one second reads "0:00" while position 0.0 reads "?:??". *)
Theorem fmt_time_prints_hours_minutes_seconds :
  fmt_time PyNone = Some "?:??"
  /\ (forall z, z <= 0 -> fmt_time (PyInt z) = Some "?:??")
  /\ (forall b, fmt_time (PyFloat (S754_zero b)) = Some "?:??")
  /\ (forall m e, fmt_time (PyFloat (S754_finite true m e)) = Some "?:??")
  /\ fmt_time (PyFloat (S754_infinity true)) = Some "?:??"
  /\ fmt_time (PyFloat S754_nan) = None
  /\ fmt_time (PyFloat (S754_infinity false)) = None
  /\ (forall h m s,
        0 <= h -> 0 <= m < 60 -> 0 <= s < 60 -> 0 < 3600 * h + 60 * m + s ->
        fmt_time (PyInt (3600 * h + 60 * m + s))
        = Some (if h =? 0 then pretty m +:+ ":" +:+ pad2 s
                else pretty h +:+ ":" +:+ pad2 m +:+ ":" +:+ pad2 s)
        /\ String.length (pad2 m) = 2%nat /\ String.length (pad2 s) = 2%nat)
  /\ (forall m e,
        fmt_time (PyFloat (S754_finite false m e))
        = Some (render_hms (Z.shiftl (Zpos m) e)))
  /\ render_hms 0 = "0:00".
Proof.
  split; [reflexivity|].
  split.
  { intros z Hz. unfold fmt_time. cbn [py_falsy py_negative].
    destruct (z =? 0) eqn:E0; [reflexivity|].
    apply Z.eqb_neq in E0.
    replace (z <? 0) with true by (symmetry; apply Z.ltb_lt; lia).
    reflexivity. }
  split; [intros b; reflexivity|].
  split; [intros m e; reflexivity|].
  split; [reflexivity|]. split; [reflexivity|]. split; [reflexivity|].
  split.
  { intros h m s Hh Hm Hs Hpos.
    destruct (hms_split h m s Hm Hs) as (H1 & H2 & H3 & H4).
    cbv zeta in H1, H2, H3, H4.
    split.
    - unfold fmt_time. cbn [py_falsy py_negative py_int].
      replace (3600 * h + 60 * m + s =? 0) with false
        by (symmetry; apply Z.eqb_neq; lia).
      replace (3600 * h + 60 * m + s <? 0) with false
        by (symmetry; apply Z.ltb_ge; lia).
      cbn [orb]. unfold render_hms. now rewrite H1, H2, H3, H4.
    - split.
      + pose proof (proj1 (forallb_forall _ _) pad2_two_chars_all
                      (Z.to_nat m) ltac:(apply in_seq; lia)) as Hc.
        unfold pad2_two_chars in Hc. rewrite Z2Nat.id in Hc by lia.
        now apply Nat.eqb_eq.
      + pose proof (proj1 (forallb_forall _ _) pad2_two_chars_all
                      (Z.to_nat s) ltac:(apply in_seq; lia)) as Hc.
        unfold pad2_two_chars in Hc. rewrite Z2Nat.id in Hc by lia.
        now apply Nat.eqb_eq. }
  split; [intros m e; reflexivity|].
  vm_compute. reflexivity.
Qed.

Lemma fmt_time_prints_hours_minutes_seconds_witness :
  fmt_time (PyInt 3725) = Some "1:02:05"
  /\ fmt_time (PyInt 185) = Some "3:05"
  /\ fmt_time (PyInt (-4)) = Some "?:??".
Proof.
  destruct fmt_time_prints_hours_minutes_seconds
    as (_ & Hneg & _ & _ & _ & _ & _ & Hhms & _).
  split; [|split].
  - exact (proj1 (Hhms 1 2 5 ltac:(lia) ltac:(lia) ltac:(lia) ltac:(lia))).
  - exact (proj1 (Hhms 0 3 5 ltac:(lia) ltac:(lia) ltac:(lia) ltac:(lia))).
  - apply Hneg. lia.
Defined.

Lemma utf8_length_app s1 s2 :
  utf8_length (s1 +:+ s2) = (utf8_length s1 + utf8_length s2)%nat.
Proof.
  induction s1 as [|c s1 IH]; [reflexivity|].
  change (String c s1 +:+ s2) with (String c (s1 +:+ s2)).
  cbn [utf8_length]. rewrite IH. lia.
Qed.

Lemma utf8_length_repeat s n :
  utf8_length (str_repeat s n) = (n * utf8_length s)%nat.
Proof.
  induction n as [|n IH]; [reflexivity|].
  cbn [str_repeat]. rewrite utf8_length_app, IH. lia.
Qed.

(** X17.  The volume bar overflows its width above 104 %.  For every
    percentage from 0 to 200 the bar of width 12 has exactly
    [(12 * percent + 50) / 100] full cells (the float computation
    [int(round(percent / 100 * 12))] agrees with that whole-number
    formula), padded with light cells up to 12; its length in characters is
    therefore 12 up to 104 % and the number of full cells, 13 to 24, from
    105 % on, where no light cell is left. *)
Theorem volume_bar_cells (percent : Z) :
  0 <= percent <= 200 ->
  let filled := (12 * percent + 50) / 100 in
  volume_bar_filled percent 12 = Some filled
  /\ volume_bar percent 12
     = Some (py_str_mul full_block filled
             +:+ py_str_mul light_shade (12 - filled))
  /\ (forall bar, volume_bar percent 12 = Some bar ->
        utf8_length bar = Z.to_nat (Z.max 12 filled)
        /\ (percent <= 104 -> utf8_length bar = 12%nat)
        /\ (105 <= percent ->
            12 < filled <= 24 /\ py_str_mul light_shade (12 - filled) = "")).
Proof.
  intros Hr filled.
  pose proof (proj1 (forallb_forall _ _) bar_as_expected_all
                (Z.to_nat percent) ltac:(apply in_seq; lia)) as Hc.
  unfold bar_as_expected in Hc. rewrite Z2Nat.id in Hc by lia.
  fold filled in Hc.
  destruct (volume_bar_filled percent 12) as [f|] eqn:Hf; [|discriminate].
  apply Z.eqb_eq in Hc. subst f.
  assert (Hfr : 0 <= filled < 25)
    by (subst filled; split;
        [apply Z.div_pos; lia | apply Z.div_lt_upper_bound; lia]).
  split; [reflexivity|].
  assert (Hbar : volume_bar percent 12
                 = Some (py_str_mul full_block filled
                         +:+ py_str_mul light_shade (12 - filled)))
    by (unfold volume_bar; now rewrite Hf).
  split; [exact Hbar|].
  intros bar Hb. rewrite Hbar in Hb. injection Hb as <-.
  assert (Hle : percent <= 104 -> filled < 13)
    by (intros H; subst filled; apply Z.div_lt_upper_bound; lia).
  assert (Hgt : 105 <= percent -> 12 < filled).
  { intros H. subst filled.
    apply Z.lt_le_trans with ((12 * 105 + 50) / 100).
    - vm_compute. reflexivity.
    - apply Z.div_le_mono; lia. }
  clearbody filled. clear Hf Hbar.
  assert (Hlen : utf8_length (py_str_mul full_block filled
                              +:+ py_str_mul light_shade (12 - filled))
                 = Z.to_nat (Z.max 12 filled)).
  { unfold py_str_mul. rewrite utf8_length_app, !utf8_length_repeat.
    change (utf8_length full_block) with 1%nat.
    change (utf8_length light_shade) with 1%nat. lia. }
  split; [exact Hlen|]. split.
  - intros H. rewrite Hlen. specialize (Hle H). lia.
  - intros H. specialize (Hgt H). split; [lia|]. unfold py_str_mul.
    replace (Z.to_nat (12 - filled)) with 0%nat by lia. reflexivity.
Qed.

Lemma volume_bar_cells_witness :
  volume_bar_filled 150 12 = Some 18
  /\ option_map utf8_length (volume_bar 150 12) = Some 18%nat
  /\ option_map utf8_length (volume_bar 50 12) = Some 12%nat.
Proof.
  destruct (volume_bar_cells 150 ltac:(lia)) as (Hf & Hb & Hall).
  destruct (volume_bar_cells 50 ltac:(lia)) as (_ & Hb' & Hall').
  split; [exact Hf|]. split.
  - destruct (Hall _ Hb) as (Hl & _).
    rewrite Hb. cbn [option_map]. now rewrite Hl.
  - destruct (Hall' _ Hb') as (_ & Hl & _).
    rewrite Hb'. cbn [option_map]. now rewrite Hl by lia.
Defined.

(* ===================================================================== *)
(** ** The now-playing notice *)
(* ===================================================================== *)

(** X18.  The "Now Playing" notice never shows a position.  Its position
    is the constant 0.0, which [fmt_time] prints as "?:??", and for every
    track whose duration is not nan its progress bar is 16 empty cells
    (a nan duration gives 16 full cells instead). *)
Theorem now_playing_notice_shows_no_position (t : Track) :
  now_playing_position = Some "?:??"
  /\ (duration t <> S754_nan ->
      now_playing_bar t = Some (py_str_mul white_parallelogram 16))
  /\ (duration t = S754_nan ->
      now_playing_bar t = Some (py_str_mul black_parallelogram 16)).
Proof.
  split; [reflexivity|].
  unfold now_playing_bar, now_playing_frac, now_playing_dur.
  destruct (duration t) as [s|s| |s m e]; split; intros H;
    try congruence; try discriminate H;
    try (destruct s; vm_compute; reflexivity).
  vm_compute. reflexivity.
Qed.

Lemma now_playing_notice_shows_no_position_witness :
  now_playing_bar (sample_track "A")
  = Some (py_str_mul white_parallelogram 16).
Proof.
  apply (now_playing_notice_shows_no_position (sample_track "A")).
  discriminate.
Defined.

(* ===================================================================== *)
(** ** Auto-disconnect *)
(* ===================================================================== *)

(** When the listener decides on a teardown. *)
Lemma watch_decision_teardown
    (players : gmap Z GuildPlayer) (g : Z) (before after f : option Z) :
  watch_decision players g before after = WatchTearDown f <->
  exists p vc ch,
    players !! g = Some p /\ voice p = Some vc
    /\ is_connected vc = true /\ vc_channel vc = Some ch
    /\ touches ch before || touches ch after = true
    /\ channel_empty_excluding_self p = true
    /\ f = announce_channel p.
Proof.
  unfold watch_decision.
  destruct (players !! g) as [p|] eqn:Hp.
  2:{ split; [discriminate|]. intros (p & ? & ? & H & _). discriminate H. }
  destruct (voice p) as [vc|] eqn:Hv.
  2:{ split; [discriminate|].
      intros (p' & vc & ch & H1 & H2 & _). congruence. }
  destruct (is_connected vc) eqn:Hc.
  2:{ split; [discriminate|].
      intros (p' & vc' & ch & H1 & H2 & H3 & _). congruence. }
  destruct (vc_channel vc) as [ch|] eqn:Hch.
  2:{ split; [destruct before, after; discriminate|].
      intros (p' & vc' & ch & H1 & H2 & H3 & H4 & _). congruence. }
  destruct (touches ch before || touches ch after) eqn:Ht.
  2:{ split; [discriminate|].
      intros (p' & vc' & ch' & H1 & H2 & H3 & H4 & H5 & _). congruence. }
  fold (channel_empty_excluding_self p).
  destruct (channel_empty_excluding_self p) eqn:He.
  2:{ split; [discriminate|].
      intros (p' & vc' & ch' & H1 & H2 & H3 & H4 & H5 & H6 & _).
      congruence. }
  split.
  - intros H. injection H as <-. exists p, vc, ch. now repeat split.
  - intros (p' & vc' & ch' & H1 & _ & _ & _ & _ & _ & ->). congruence.
Qed.

(** X19.  When the listener forgets a player.  The listener decides on a
    teardown exactly when the guild has a player whose voice client is
    connected to a channel, the change touches that channel, and the
    channel holds no member besides the bot.  If [teardown] then returns,
    the guild's entry is popped from the dictionary as it is at that time:
    the next [get_player] gives a fresh player (empty queue, volume 1.0, no
    voice client) and the entries of other guilds are untouched.  If
    [teardown] raises (its disconnect failed), the pop is not reached: the
    dictionary is left as it is and [get_player] keeps returning the
    guild's old player.  Without a teardown the dictionary is as the
    listener found it. *)
Theorem auto_disconnect_forgets_the_player
    (bot : option Z) (players later : gmap Z GuildPlayer) (g : Z)
    (before after : option Z) (returned : bool) :
  let d := watch_decision players g before after in
  let out := watch_registry players g before after returned later in
  (forall f, d = WatchTearDown f <->
     exists p vc ch,
       players !! g = Some p /\ voice p = Some vc
       /\ is_connected vc = true /\ vc_channel vc = Some ch
       /\ touches ch before || touches ch after = true
       /\ channel_empty_excluding_self p = true
       /\ f = announce_channel p)
  /\ (forall f, d = WatchTearDown f -> returned = true ->
        out !! g = None
        /\ (get_player bot out g).2 = new_player bot g
        /\ (forall g', g' <> g -> out !! g' = later !! g'))
  /\ (forall f, d = WatchTearDown f -> returned = false ->
        out = later
        /\ (forall p, later !! g = Some p ->
                      get_player bot out g = (later, p)))
  /\ ((forall f, d <> WatchTearDown f) -> out = players).
Proof.
  intros d out. subst d out.
  split; [intros f; apply watch_decision_teardown|].
  unfold watch_registry.
  destruct (watch_decision players g before after) as [|f0|] eqn:Hd.
  - repeat split; try discriminate.
  - split; [|split].
    + intros f _ ->. split; [apply lookup_delete_eq|].
      split; [unfold get_player; now rewrite lookup_delete_eq|].
      intros g' Hne. now apply lookup_delete_ne.
    + intros f _ ->. split; [reflexivity|].
      intros p Hp. unfold get_player. now rewrite Hp.
    + intros H. exfalso. now apply (H f0).
  - repeat split; try discriminate.
Qed.

Lemma auto_disconnect_forgets_the_player_witness :
  let p := set_volume (volume_of_percent 150)
             (set_queue [sample_track "B"]
                (connect_to lonely_channel (new_player (Some 7) 42))) in
  let players : gmap Z GuildPlayer := {[ 42 := p ]} in
  watch_decision players 42 (Some 1) None = WatchTearDown None
  /\ watch_registry players 42 (Some 1) None true players !! 42 = None
  /\ volume (get_player (Some 7)
               (watch_registry players 42 (Some 1) None true players) 42).2
     = Float64.one
  /\ volume (get_player (Some 7)
               (watch_registry players 42 (Some 1) None false players) 42).2
     = volume_of_percent 150.
Proof.
  intros p players.
  assert (Hd : watch_decision players 42 (Some 1) None = WatchTearDown None)
    by reflexivity.
  destruct (auto_disconnect_forgets_the_player (Some 7) players players 42
              (Some 1) None true) as (_ & Hgone & _).
  destruct (auto_disconnect_forgets_the_player (Some 7) players players 42
              (Some 1) None false) as (_ & _ & Hkept & _).
  destruct (Hgone None Hd eq_refl) as (Hnone & Hfresh & _).
  destruct (Hkept None Hd eq_refl) as (_ & Hold).
  split; [exact Hd|]. split; [exact Hnone|].
  split; [now rewrite Hfresh|].
  now rewrite (Hold p (lookup_singleton_eq 42 p)).
Defined.

(* ===================================================================== *)
(** ** From one track to the next *)
(* ===================================================================== *)

Lemma stream_end_playing w vc a :
  voice (player w) = Some vc -> vc_player vc = Some a ->
  ap_paused a = false ->
  stream_end w
  = set_finished (ap_after a)
      (upd_player (set_voice (Some (with_audio None vc))) w).
Proof.
  intros Hv Ha Hp. unfold stream_end, playing, is_playing, voice_stop.
  now rewrite Hv, Ha, Hp.
Qed.

(** X20.  When the stream ends by itself, the loop moves on to the next
    track.  A loop task waiting on the [finished] event of the stream the
    voice client is playing, with the stop event clear, is blocked; once
    the stream has ended it can be resumed, and it then goes to its pacing
    sleep with nothing playing and the queue untouched.  Its next pass
    returns (or goes to disconnect) when the queue is empty, and otherwise,
    with listeners present, the transport connected and the source
    building, makes the head of the queue the new [current], playing, with
    the old tail as queue. *)
Theorem stream_end_advances_the_loop
    (i fid : nat) (env : Env) (w : World) (vc : VoiceClient)
    (a : AudioPlayer) :
  tasks w !! i = Some (Waiting fid) ->
  voice (player w) = Some vc -> vc_player vc = Some a ->
  ap_paused a = false -> ap_after a = fid ->
  finished_events w !! fid = Some false ->
  _stop_event (player w) = false ->
  step_task i env w = None
  /\ exists w1,
       step_task i env (stream_end w) = Some w1
       /\ tasks w1 !! i = Some Pacing
       /\ playing (player w1) = false
       /\ queue (player w1) = queue (player w)
       /\ (queue (player w) = [] ->
           forall env', exists w2,
             step_task i env' w1 = Some w2
             /\ (tasks w2 !! i = Some Done \/
                 tasks w2 !! i = Some Disconnecting))
       /\ (forall env' n rest,
             queue (player w) = n :: rest ->
             channel_empty_excluding_self (player w) = false ->
             is_connected vc = true ->
             open_ok env' = true ->
             exists w2,
               step_task i env' w1 = Some w2
               /\ current (player w2) = Some n
               /\ queue (player w2) = rest
               /\ playing (player w2) = true).
Proof.
  intros Hi Hv Ha Hp Hf Hfin Hstop.
  split.
  { unfold step_task, wait_ready. now rewrite Hi, Hstop, Hfin. }
  rewrite (stream_end_playing w vc a Hv Ha Hp), Hf.
  set (w0 := set_finished fid
               (upd_player (set_voice (Some (with_audio None vc))) w)).
  assert (Hi0 : tasks w0 !! i = Some (Waiting fid)) by exact Hi.
  assert (Hready : wait_ready fid w0 = true).
  { unfold wait_ready. cbn [finished_events w0 set_finished upd_player].
    rewrite list_lookup_insert_eq by now apply lookup_lt_Some in Hfin.
    apply orb_true_r. }
  assert (Hstep : step_task i env w0
                  = Some (set_task i Pacing
                            (upd_player
                               (fun p => set_pcm None (set_stop_event false p))
                               w0)))
    by (unfold step_task; now rewrite Hi0, Hready).
  rewrite Hstep. eexists. split; [reflexivity|].
  set (w1 := set_task i Pacing _).
  assert (Hp1 : tasks w1 !! i = Some Pacing)
    by exact (lookup_set_task i Pacing _ _ Hi0).
  split; [exact Hp1|]. split; [reflexivity|]. split; [reflexivity|].
  split.
  - intros Hempty env'.
    rewrite (step_at_loop_head i env' w1 Pacing Hp1 eq_refl).
    eexists. split; [reflexivity|].
    assert (Hq1 : queue (player w1) = []) by exact Hempty.
    unfold loop_head. rewrite Hq1. unfold loop_exit.
    destruct (_ && _).
    + right. exact (lookup_set_task i _ _ _ Hp1).
    + left. exact (lookup_set_task i _ _ _ Hp1).
  - intros env' n rest Hq Hne Hc Hopen.
    rewrite (step_at_loop_head i env' w1 Pacing Hp1 eq_refl).
    eexists. split; [reflexivity|].
    assert (Hq1 : queue (player w1) = n :: rest) by exact Hq.
    assert (Hv1 : voice (player w1) = Some (with_audio None vc))
      by reflexivity.
    assert (Hch1 : channel_empty_excluding_self (player w1) = false).
    { rewrite <- Hne.
      unfold channel_empty_excluding_self, others_in_channel_count.
      rewrite Hv1, Hv. reflexivity. }
    rewrite (loop_head_takes i env' w1 n rest (with_audio None vc)
               Hq1 Hch1 Hv1 Hc), Hopen.
    destruct (attach_success i env' n (with_audio None vc)
                (take_head n rest w1) Pacing Hp1 eq_refl)
      as (Hc2 & Hq2 & _ & _ & _ & Hpl2 & _).
    rewrite Hc2, Hq2. now repeat split.
Qed.

Lemma stream_end_advances_the_loop_witness :
  step_task 0 sample_env first_playing_world = None
  /\ exists w1 w2,
       step_task 0 sample_env (stream_end first_playing_world) = Some w1
       /\ step_task 0 sample_env w1 = Some w2
       /\ current (player w2) = Some (sample_track "B")
       /\ queue (player w2) = []
       /\ playing (player w2) = true.
Proof.
  destruct (stream_end_advances_the_loop 0 0 sample_env first_playing_world
              {| vc_connected := true; vc_channel := Some sample_channel;
                 vc_player := Some {| ap_source := 0; ap_after := 0;
                                      ap_paused := false |} |}
              {| ap_source := 0; ap_after := 0; ap_paused := false |}
              eq_refl eq_refl eq_refl eq_refl eq_refl eq_refl eq_refl)
    as (Hblocked & w1 & Hs & _ & _ & _ & _ & Hnext).
  split; [exact Hblocked|].
  destruct (Hnext sample_env (sample_track "B") [] eq_refl eq_refl eq_refl
              eq_refl) as (w2 & Hs2 & Hc & Hq & Hpl).
  exists w1, w2. now repeat split.
Defined.



(* ===================================================================== *)
(** ** Tracks are played in queue order *)
(* ===================================================================== *)













